(** * The AMG interpolation-skeleton solver of [tools/amg_matlab2/cinterp_skel.c]

    A shallow embedding of [sp_mv], [resid_update], [heap_sort],
    [interp_skel] and [mexFunction], and the properties of the
    specification that concern them.

    Conventions of the embedding.
    - [double] is IEEE binary64, Rocq's primitive [float]; the C operators
      [+ - * /], [sqrt], [fabs], [>] and [==] are the primitive operations.
    - [mwIndex] and [mwSize] (unsigned, 64 bits) are [nat]: every such value
      is a position in, or a length of, an allocated array, so [hole<<1],
      [child+1] and [++yn] stay far below 2^64 and never wrap.
      [mwSignedIndex] and [char] are [Z].
    - An array is a [list]; [a !!! i] reads [a[i]] and [<[i:=v]> a] writes
      it.  An access out of range is undefined behaviour in C; here the read
      gives the default element and the write is dropped.
    - A sparse vector (index array, value array, length [n]) is the list of
      the [n] pairs (index, value), in array order.  Output buffers "assumed
      big enough" by the source are represented by their written prefix. *)

From Stdlib Require Import Floats ZArith Lia.
From stdpp Require Import base list sorting strings.
From Equations Require Import Equations.

#[global] Instance float_inhabited : Inhabited float := populate 0%float.

Abbreviation double := float (only parsing).
Abbreviation sparse := (list (nat * float)) (only parsing).

(** ** Compressed sparse column matrices *)

(** [sp_mat_c]: the fields [m], [n], [jc], [ir], [pr] used by the source. *)
Record sp_mat_c := {
  mat_m : nat;
  mat_n : nat;
  mat_jc : list nat;
  mat_ir : list nat;
  mat_pr : list float }.

(** [sp_log_mat]: the fields [m], [n], [nzmax], [jc], [ir]. *)
Record sp_log_mat := {
  log_m : nat;
  log_n : nat;
  log_nzmax : nat;
  log_jc : list nat;
  log_ir : list nat }.

(** [&arr[jc[j]]] up to [&arr[jc[j+1]]]. *)
Definition col_slice {T} (jc : list nat) (arr : list T) (j : nat) : list T :=
  take (jc !!! (j + 1) - jc !!! j) (drop (jc !!! j) arr).

(** Column [j] of [A] as the sparse vector the loops walk with
    [Air], [Apr]. *)
Definition column (A : sp_mat_c) (j : nat) : sparse :=
  zip (col_slice (mat_jc A) (mat_ir A) j) (col_slice (mat_jc A) (mat_pr A) j).

(** [memcpy(buf + off, vals, ...)]. *)
Fixpoint write_at {T} (off : nat) (vals : list T) (buf : list T) : list T :=
  match vals with
  | [] => buf
  | v :: vs => write_at (S off) vs (<[off := v]> buf)
  end.

(** ** Index heaps ([heap = yi-1]: positions start at 1) *)

Definition hget (heap : list nat) (p : nat) : nat := heap !!! (p - 1).
Definition hset (heap : list nat) (p v : nat) : list nat := <[p - 1 := v]> heap.

(** The insertion loop of [sp_mv], lines 57-62, with the closing
    [heap[hole]=i]. *)
Equations? sift_up (heap : list nat) (i hole : nat) : list nat by wf hole lt :=
sift_up heap i hole with decide (1 < hole) := {
  | left _ =>
      let parent := Nat.shiftr hole 1 in
      let ip := hget heap parent in
      if decide (i < ip) then hset heap hole i
      else sift_up (hset heap hole ip) i parent
  | right _ => hset heap hole i }.
Proof. change (Nat.div2 hole < hole). apply Nat.lt_div2. lia. Qed.

(** The [do ... while(hole>1)] of [heap_sort], lines 168-173. *)
Equations? sift_up_do (heap : list nat) (v hole : nat) : list nat by wf hole lt :=
sift_up_do heap v hole :=
  let parent := Nat.shiftr hole 1 in
  let vp := hget heap parent in
  if decide (v < vp) then hset heap hole v
  else match decide (1 < parent) with
       | left _ => sift_up_do (hset heap hole vp) v parent
       | right _ => hset (hset heap hole vp) parent v
       end.
Proof.
  change (Nat.div2 hole < hole). apply Nat.lt_div2.
  destruct hole as [|[|h]]; simpl in *; lia.
Qed.

(** The [for(;;)] of the delete-max, lines 72-78 and 179-185, with the
    closing [heap[hole]=v].  The loop is entered at [hole=1] and moves to a
    child, so the clause for position 0 is never reached. *)
Equations? sift_down (heap : list nat) (hi v hole : nat) : list nat
  by wf (hi - hole) lt :=
sift_down heap hi v 0 := heap;
sift_down heap hi v (S h) :=
  let hole := S h in
  let child := Nat.shiftl hole 1 in
  let r := child + 1 in
  let child := if decide (r < hi ∧ hget heap child < hget heap r) then r else child in
  match decide (hi ≤ child ∨ hget heap child ≤ v) with
  | left _ => hset heap hole v
  | right _ => sift_down (hset heap hole (hget heap child)) hi v child
  end.
Proof.
  assert (S h < child).
  { subst child child0 r hole. unfold Nat.double. destruct (decide _); lia. }
  assert (child < hi); [|lia].
  destruct (decide (hi ≤ child)); [exfalso; apply n; by left | lia].
Qed.

(** The delete-max loop [for(hi=yn;hi>1;--hi)], shared by [sp_mv]
    (lines 68-79) and [heap_sort] (lines 175-186). *)
Fixpoint drain (heap : list nat) (hi : nat) : list nat :=
  match hi with
  | S (S _ as hi') =>
      let v := hget heap hi in
      let heap := hset heap hi (hget heap 1) in
      drain (sift_down heap hi v 1) hi'
  | _ => heap
  end.

(** Body of [for(i=2;i<=un;++i)], lines 166-174. *)
Definition heap_build_step (heap : list nat) (i : nat) : list nat :=
  if decide (hget heap (Nat.shiftr i 1) < hget heap i)
  then sift_up_do heap (hget heap i) i
  else heap.

Definition heap_sort (un : nat) (uv : list nat) : list nat :=
  drain (foldl heap_build_step uv (seq 2 (un - 1))) un.

(** ** [sp_mv]: masked sparse matrix times sparse vector *)

(** The locals [yn], [heap] and the workspaces [sv], [flag] of [sp_mv]. *)
Record mv_state := {
  mv_yn : nat;
  mv_heap : list nat;
  mv_sv : list float;
  mv_flag : list Z }.

(** Body of the inner loop over the entries [(i, *Apr)] of a column of [A],
    lines 51-65 ([IGNORE_MASK] is not defined).  [++yn] claims the next slot
    of [yi]; the slot is written before it is read, so its initial content
    is immaterial. *)
Definition sp_mv_entry (mask : list Z) (xj : float) (st : mv_state)
    (e : nat * float) : mv_state :=
  let '(i, a) := e in
  if (0 <=? mask !!! i)%Z then st
  else
    let st :=
      if (mv_flag st !!! i =? 0)%Z then
        let hole := S (mv_yn st) in
        {| mv_yn := hole;
           mv_heap := sift_up (mv_heap st ++ [i]) i hole;
           mv_sv := <[i := 0%float]> (mv_sv st);
           mv_flag := <[i := 1%Z]> (mv_flag st) |}
      else st in
    {| mv_yn := mv_yn st;
       mv_heap := mv_heap st;
       mv_sv := <[i := (mv_sv st !!! i + a * xj)%float]> (mv_sv st);
       mv_flag := mv_flag st |}.

(** Body of the outer loop over the entries [(j, xj)] of [x], lines 45-66. *)
Definition sp_mv_col (A : sp_mat_c) (mask : list Z) (st : mv_state)
    (e : nat * float) : mv_state :=
  let '(j, xj) := e in
  if (abs xj =? 0)%float then st
  else foldl (sp_mv_entry mask xj) st (column A j).

(** Body of the closing loop, line 80. *)
Definition sp_mv_emit (sv : list float) (acc : list float * list Z) (i : nat)
    : list float * list Z :=
  (acc.1 ++ [sv !!! i], <[i := 0%Z]> acc.2).

(** Returns [(yn, yi, y, sv, flag)]: the return value, the two output
    arrays, and the workspaces as the call leaves them. *)
Definition sp_mv (A : sp_mat_c) (x : sparse) (sv : list float)
    (flag : list Z) (mask : list Z)
    : nat * list nat * list float * list float * list Z :=
  let st := foldl (sp_mv_col A mask)
              {| mv_yn := 0; mv_heap := []; mv_sv := sv; mv_flag := flag |} x in
  let yi := drain (mv_heap st) (mv_yn st) in
  let '(y, flag) := foldl (sp_mv_emit (mv_sv st)) ([], mv_flag st) yi in
  (mv_yn st, yi, y, mv_sv st, flag).

(** ** [resid_update]: sparse residual and energy update *)

(** The output cursor [rnz], [ri], [rp] and the dense [beta]. *)
Record resid_state := {
  rs_rnz : nat;
  rs_r : list (nat * float);
  rs_beta : list float }.

(** [if(mask[i]<0) ++rnz, *ri++=i, *rp++=v;] *)
Definition resid_emit (mask : list Z) (i : nat) (v : float)
    (st : resid_state) : resid_state :=
  if (mask !!! i <? 0)%Z
  then {| rs_rnz := S (rs_rnz st); rs_r := rs_r st ++ [(i, v)];
          rs_beta := rs_beta st |}
  else st.

Definition resid_set_beta (i : nat) (b : float) (st : resid_state)
    : resid_state :=
  {| rs_rnz := rs_rnz st; rs_r := rs_r st;
     rs_beta := <[i := b]> (rs_beta st) |}.

(** The three branches of the merge, lines 101-125. *)
Definition resid_x (mask : list Z) (st : resid_state) (e : nat * float)
    : resid_state :=
  resid_emit mask e.1 e.2 st.

Definition resid_y (mask : list Z) (alpha : float) (st : resid_state)
    (e : nat * float) : resid_state :=
  let '(iy, y) := e in
  resid_emit mask iy (- alpha * y)%float (resid_set_beta iy (y * y)%float st).

Definition resid_xy (mask : list Z) (alpha : float) (st : resid_state)
    (iy : nat) (x y : float) : resid_state :=
  resid_emit mask iy (x - alpha * y)%float
    (resid_set_beta iy (rs_beta st !!! iy + y * y)%float st).

(** The [for(;;)] of lines 98-127: runs while both cursors are inside
    their vectors and returns what is left of each. *)
Fixpoint resid_merge (mask : list Z) (alpha : float) (x : list (nat * float))
    : list (nat * float) → resid_state →
      list (nat * float) * list (nat * float) * resid_state :=
  fix merge_y (y : list (nat * float)) (st : resid_state) :=
    match x, y with
    | (ix, xv) :: x', (iy, yv) :: y' =>
        if decide (ix < iy) then
          resid_merge mask alpha x' y (resid_x mask st (ix, xv))
        else if decide (iy < ix) then
          merge_y y' (resid_y mask alpha st (iy, yv))
        else
          resid_merge mask alpha x' y' (resid_xy mask alpha st iy xv yv)
    | _, _ => (x, y, st)
    end.

(** Returns the state after the two closing loops, lines 128-142. *)
Definition resid_update (beta : list float) (x : sparse) (alpha : float)
    (y : sparse) (mask : list Z) : resid_state :=
  let '(x', y', st) :=
    resid_merge mask alpha x y
      {| rs_rnz := 0; rs_r := []; rs_beta := beta |} in
  let st := foldl (resid_x mask) st x' in
  foldl (resid_y mask alpha) st y'.

(** ** The routines of [cinterp_common.h] used by [interp_skel]

    The header is not part of the sources at hand.  [interp_skel] is
    embedded over the interface of the three routines it calls; each
    returns the values it stores through its [out] pointer. *)
Class triangular_ops := {
  (** [sp_restrict_unsorted(out, k, map_to_Qi, nz, idx, val)] *)
  sp_restrict_unsorted : nat → list Z → list (nat * float) → list float;
  (** [mv_utt(out, k, Q, x)] *)
  mv_utt : nat → list float → list float → list float;
  (** [mv_ut(out, k, Q, x)] *)
  mv_ut : nat → list float → list float → list float }.

(** Sum of a list of doubles, accumulated from [0.0] left to right. *)
Definition fsum (l : list float) : float :=
  foldl (λ a c, (a + c)%float) 0%float l.

(** [Q_rc] for [r ≤ c] lives at position [c(c+1)/2 + r] of the packed
    buffer (specification, section 3). *)
Definition packed (Q : list float) (r c : nat) : float :=
  Q !!! (c * (c + 1) / 2 + r).

(** Modelled from the spec: [sp_restrict_unsorted] of the missing header
    [cinterp_common.h]: "gather A·e_s restricted to the current pivot set
    into a dense length-(k+1) vector via map_to_Qi". *)
Definition sp_restrict_unsorted_spec (k : nat) (map_to_Qi : list Z)
    (col : list (nat * float)) : list float :=
  foldl (λ out e,
           if (0 <=? map_to_Qi !!! e.1)%Z
           then <[Z.to_nat (map_to_Qi !!! e.1) := e.2]> out else out)
        (replicate (k + 1) 0%float) col.

(** Modelled from the spec: [mv_utt] of the missing header
    [cinterp_common.h]: "out := (Q[:,0:k])ᵀ · x where x is a dense vector
    of length k+1 ...; produces a k-length out". *)
Definition mv_utt_spec (k : nat) (Q x : list float) : list float :=
  (λ c, fsum ((λ r, (packed Q r c * x !!! r)%float) <$> seq 0 (c + 1)))
    <$> seq 0 k.

(** Modelled from the spec: [mv_ut] of the missing header
    [cinterp_common.h]: "out := Q[:,0:k] · x, producing a (k+1)-length
    dense out whose last component is 0". *)
Definition mv_ut_spec (k : nat) (Q x : list float) : list float :=
  ((λ r, fsum ((λ c, (packed Q r c * x !!! c)%float) <$> seq r (k - r)))
     <$> seq 0 k) ++ [0%float].

Definition spec_ops : triangular_ops :=
  {| sp_restrict_unsorted := sp_restrict_unsorted_spec;
     mv_utt := mv_utt_spec;
     mv_ut := mv_ut_spec |}.

(** ** [interp_skel]: the column solver and its driver *)

(** The variables of [interp_skel].  [st_ir] is the written prefix
    [X_skel->ir[0..iri)], [st_jc] the entries written through [jcp];
    [st_Qi] and [st_qk] are the offsets of the pointers [Qi] and [qk] into
    [X_skel->ir] and [Q]; [st_r] holds [ri], [rp].  The buffers [Aqk_i],
    [Aqk_p], [si] are written and consumed inside one iteration and are
    local to [expand]. *)
Record state := {
  st_ir : list nat;
  st_iri : nat;
  st_nzmax : nat;
  st_jc : list nat;
  st_X_sum : list float;
  st_beta : list float;
  st_sp : list float;
  st_flag : list Z;
  st_map_to_Qi : list Z;
  st_Q : list float;
  st_max_Q : nat;
  st_Qi : nat;
  st_qk : nat;
  st_k : nat;
  st_s : nat;
  st_w : float;
  st_norm : float;
  st_rnz : nat;
  st_r : list (nat * float) }.

#[global] Instance state_inhabited : Inhabited state :=
  populate {| st_ir := []; st_iri := 0; st_nzmax := 0; st_jc := [];
              st_X_sum := []; st_beta := []; st_sp := []; st_flag := [];
              st_map_to_Qi := []; st_Q := []; st_max_Q := 0; st_Qi := 0;
              st_qk := 0; st_k := 0; st_s := 0; st_w := 0%float;
              st_norm := 0%float; st_rnz := 0; st_r := [] |}.

Section Solver.
Context {ops : triangular_ops}.

(** The build-time constant [STOP_TEST] (default 2). *)
Variable STOP_TEST : nat.

(** Lines 215-219. *)
Definition adjust_tol (tol : float) : float :=
  if decide (STOP_TEST = 1) then (tol * (0.5 * tol))%float
  else if decide (STOP_TEST = 2) then (tol * 0.5)%float
  else tol.

(** Lines 273-277 and 353-357. *)
Definition norm_update (norm tn : float) : float :=
  if decide (STOP_TEST = 1) then (if (norm <? tn)%float then tn else norm)
  else if decide (STOP_TEST = 2) then (norm + tn)%float
  else norm.

(** Lines 272-277 and 352-357: the running best [(s, w)] and [norm]. *)
Definition pick (acc : nat * float * float) (i : nat) (tw tn : float)
    : nat * float * float :=
  let '(s, w, norm) := acc in
  let '(s, w) := if (abs w <? abs tw)%float then (i, tw) else (s, w) in
  (s, w, norm_update norm tn).

(** Body of the loop of lines 268-278. *)
Definition init_step (D : list float)
    (acc : list float * (nat * float * float)) (e : nat * float)
    : list float * (nat * float * float) :=
  let '(i, r) := e in
  let d := D !!! i in
  (<[i := 0%float]> acc.1, pick acc.2 i (r / sqrt d)%float (abs (r / d))).

(** Lines 267-278: returns [beta] and [(s, w, norm)]. *)
Definition init_scan (D beta : list float) (rnz : nat)
    (r : list (nat * float)) : list float * (nat * float * float) :=
  let '(s, r0) := r !!! 0 in
  foldl (init_step D)
    (<[s := 0%float]> beta,
     (s, (r0 / sqrt (D !!! s))%float, abs (r0 / D !!! s)))
    (drop 1 (take rnz r)).

(** Body of the loop of lines 349-358. *)
Definition rescan_step (D beta : list float) (acc : nat * float * float)
    (e : nat * float) : nat * float * float :=
  let '(i, r) := e in
  let d := (D !!! i - beta !!! i)%float in
  pick acc i (r / sqrt d)%float (abs (r / d)).

(** Lines 345-358: returns [(s, w, norm)]. *)
Definition rescan (D beta : list float) (rnz : nat) (r : list (nat * float))
    (s : nat) (w : float) : nat * float * float :=
  if decide (0 < rnz) then
    let '(s, r0) := r !!! 0 in
    let d := (D !!! s - beta !!! s)%float in
    foldl (rescan_step D beta) (s, (r0 / sqrt d)%float, abs (r0 / d))
      (drop 1 (take rnz r))
  else (s, w, 0%float).

(** [qk[m]] and [Qi[m]]. *)
Definition qk_at (Q : list float) (qk m : nat) : float := Q !!! (qk + m).
Definition Qi_at (ir : list nat) (Qi m : nat) : nat := ir !!! (Qi + m).

(** Body of [while(norm>tol)], lines 283-359. *)
Definition expand (A : sp_mat_c) (D u : list float) (j : nat) (st : state)
    : state :=
  let k := st_k st in
  let s := st_s st in
  let w := st_w st in
  let qk := st_qk st in
  let Qi := st_Qi st in
  (* lines 284-289: check if we underestimated nnz(X_skel) *)
  let nzmax :=
    if decide (st_iri st = st_nzmax st) then st_nzmax st * 2
    else st_nzmax st in
  (* lines 291-295: check if we underestimated dim(Q); the [int] product
     of line 293 is exact while it fits in an [int] *)
  let max_Q := if decide (st_max_Q st < k + 1) then st_max_Q st * 2
               else st_max_Q st in
  let Q := if decide (st_max_Q st < k + 1)
           then resize (max_Q * (max_Q + 1) / 2) 0%float (st_Q st)
           else st_Q st in
  (* line 297 *)
  let ir := st_ir st ++ [s] in
  let iri := S (st_iri st) in
  let map_to_Qi := <[s := Z.of_nat k]> (st_map_to_Qi st) in
  (* lines 302-308: calculate Q Q^t A e_s *)
  let Q := write_at qk
             (take (k + 1) (sp_restrict_unsorted k map_to_Qi (column A s))) Q in
  let sp := write_at 0 (take k (mv_utt k Q (take (k + 1) (drop qk Q))))
              (st_sp st) in
  let Q := write_at qk (take (k + 1) (mv_ut k Q sp)) Q in
  (* lines 313-316 *)
  let norm_fac := (-1 / sqrt (D !!! s - st_beta st !!! s))%float in
  let Q := foldl (λ Q m, <[qk + m := (qk_at Q qk m * norm_fac)%float]> Q)
             Q (seq 0 k) in
  let Q := <[qk + k := (- norm_fac)%float]> Q in
  (* lines 321-323 *)
  let ujw := (u !!! j * w)%float in
  let X_sum :=
    foldl (λ X m, <[Qi_at ir Qi m :=
                      (X !!! (Qi_at ir Qi m) + ujw * qk_at Q qk m)%float]> X)
          (st_X_sum st) (seq 0 (k + 1)) in
  (* line 332: calculate A qk *)
  let '(Aqk_nz, Aqk_i, Aqk_p, sp, flag) :=
    sp_mv A (zip (take (k + 1) (drop Qi ir)) (take (k + 1) (drop qk Q)))
      sp (st_flag st) map_to_Qi in
  (* lines 337-340: r := r - w Aqk, beta := beta + Aqk .* Aqk *)
  let si := take (st_rnz st) (st_r st).*1 in
  let sp := write_at 0 (take (st_rnz st) (st_r st).*2) sp in
  let rs := resid_update (st_beta st) (zip si (take (st_rnz st) sp)) w
              (take Aqk_nz (zip Aqk_i Aqk_p)) map_to_Qi in
  (* lines 345-358: find best s, recompute norm *)
  let '(s, w, norm) := rescan D (rs_beta rs) (rs_rnz rs) (rs_r rs) s w in
  (* line 359 *)
  {| st_ir := ir; st_iri := iri; st_nzmax := nzmax; st_jc := st_jc st;
     st_X_sum := X_sum; st_beta := rs_beta rs; st_sp := sp; st_flag := flag;
     st_map_to_Qi := map_to_Qi; st_Q := Q; st_max_Q := max_Q; st_Qi := Qi;
     st_qk := qk + (k + 1); st_k := k + 1; st_s := s; st_w := w;
     st_norm := norm; st_rnz := rs_rnz rs; st_r := rs_r rs |}.

(** [while(norm>tol)], line 279.  The loop need not terminate (a negative
    [tol] keeps it running), so it is driven by [fuel]; [None] is "still
    running". *)
Fixpoint expand_loop (fuel : nat) (A : sp_mat_c) (D u : list float)
    (tol : float) (j : nat) (st : state) : option state :=
  match fuel with
  | 0 => None
  | S fuel =>
      if (tol <? st_norm st)%float
      then expand_loop fuel A D u tol j (expand A D u j st)
      else Some st
  end.

(** Lines 361-365: sort the pivots of the column, clear the inverse map. *)
Definition finish_column (st : state) : state :=
  let k := st_k st in
  let Qi := st_Qi st in
  let ir := take Qi (st_ir st) ++ heap_sort k (drop Qi (st_ir st)) in
  let map_to_Qi :=
    foldl (λ mp m, <[Qi_at ir Qi m := (-1)%Z]> mp) (st_map_to_Qi st)
      (seq 0 k) in
  {| st_ir := ir; st_iri := st_iri st; st_nzmax := st_nzmax st;
     st_jc := st_jc st; st_X_sum := st_X_sum st; st_beta := st_beta st;
     st_sp := st_sp st; st_flag := st_flag st; st_map_to_Qi := map_to_Qi;
     st_Q := st_Q st; st_max_Q := st_max_Q st; st_Qi := Qi;
     st_qk := st_qk st; st_k := k; st_s := st_s st; st_w := st_w st;
     st_norm := st_norm st; st_rnz := st_rnz st; st_r := st_r st |}.

(** Lines 245-258: [k=0], [Qi=irp], [qk=Q], [*jcp++ = iri], and the
    initial residual length.  [rnz] is the [mwSize] difference of line 257,
    which is exact where [jc] ascends, as it does in a well-formed [B]. *)
Definition begin_column (B : sp_mat_c) (j : nat) (st : state) : state :=
  {| st_ir := st_ir st; st_iri := st_iri st; st_nzmax := st_nzmax st;
     st_jc := st_jc st ++ [st_iri st]; st_X_sum := st_X_sum st;
     st_beta := st_beta st; st_sp := st_sp st; st_flag := st_flag st;
     st_map_to_Qi := st_map_to_Qi st; st_Q := st_Q st;
     st_max_Q := st_max_Q st; st_Qi := st_iri st; st_qk := 0; st_k := 0;
     st_s := st_s st; st_w := st_w st; st_norm := st_norm st;
     st_rnz := mat_jc B !!! (j + 1) - mat_jc B !!! j; st_r := st_r st |}.

(** Lines 264-278: copy column [j] of [B] into [r], initialise [beta], find
    [s] and [norm]. *)
Definition load_column (B : sp_mat_c) (D : list float) (j : nat) (st : state)
    : state :=
  let r := column B j in
  let '(beta, (s, w, norm)) := init_scan D (st_beta st) (st_rnz st) r in
  {| st_ir := st_ir st; st_iri := st_iri st; st_nzmax := st_nzmax st;
     st_jc := st_jc st; st_X_sum := st_X_sum st; st_beta := beta;
     st_sp := st_sp st; st_flag := st_flag st;
     st_map_to_Qi := st_map_to_Qi st; st_Q := st_Q st;
     st_max_Q := st_max_Q st; st_Qi := st_Qi st; st_qk := st_qk st;
     st_k := st_k st; st_s := s; st_w := w; st_norm := norm;
     st_rnz := st_rnz st; st_r := r |}.

(** Body of [for(j=0;j<nc;++j)], lines 242-369. *)
Definition solve_column (fuel : nat) (A B : sp_mat_c) (D u : list float)
    (tol : float) (st : state) (j : nat) : option state :=
  let st := begin_column B j st in
  if decide (st_rnz st < 1) then Some st
  else
    st ← expand_loop fuel A D u tol j (load_column B D j st);
    Some (finish_column st).

(** The loop over the columns [js], in order. *)
Fixpoint solve_columns (fuel : nat) (A B : sp_mat_c) (D u : list float)
    (tol : float) (st : state) (js : list nat) : option state :=
  match js with
  | [] => Some st
  | j :: js =>
      st ← solve_column fuel A B D u tol st j;
      solve_columns fuel A B D u tol st js
  end.

(** Lines 221-241: [X_skel] and the work arrays as allocated and
    initialised.  Memory that the source leaves uninitialised ([beta],
    [sp], [Q]) holds [0.0] here; no cell of it is read before it is
    written.  [X_sum] is the caller's buffer. *)
Definition init_state (B : sp_mat_c) (X_sum : list float) : state :=
  let nf := mat_m B in
  let nc := mat_n B in
  {| st_ir := []; st_iri := 0; st_nzmax := 2 * mat_jc B !!! nc;
     st_jc := [];
     st_X_sum := foldl (λ X j, <[j := 0%float]> X) X_sum (seq 0 nf);
     st_beta := replicate nf 0%float; st_sp := replicate nf 0%float;
     st_flag := replicate nf 0%Z; st_map_to_Qi := replicate nf (-1)%Z;
     st_Q := replicate (35 * (35 + 1) / 2) 0%float; st_max_Q := 35;
     st_Qi := 0; st_qk := 0; st_k := 0; st_s := 0; st_w := 0%float;
     st_norm := 0%float; st_rnz := 0; st_r := [] |}.

(** The state in which [interp_skel] leaves its loop over the columns. *)
Definition interp_skel_run (fuel : nat) (X_sum : list float)
    (A B : sp_mat_c) (D u : list float) (tol : float) : option state :=
  solve_columns fuel A B D u (adjust_tol tol) (init_state B X_sum)
    (seq 0 (mat_n B)).

(** [interp_skel]: returns [X_skel] and [X_sum]; [fuel] bounds the
    iterations of each column's expansion loop. *)
Definition interp_skel (fuel : nat) (X_sum : list float) (A B : sp_mat_c)
    (D u : list float) (tol : float) : option (sp_log_mat * list float) :=
  st ← interp_skel_run fuel X_sum A B D u tol;
  Some ({| log_m := mat_m B; log_n := mat_n B; log_nzmax := st_nzmax st;
           log_jc := st_jc st ++ [st_iri st]; log_ir := st_ir st |},
        st_X_sum st).

End Solver.

(** ** [mexFunction]: the entry point *)

(** What the MATLAB C API lets the entry point observe of an [mxArray]:
    [mxIsSparse], [mxIsDouble], [mxIsComplex], [mxGetM], [mxGetN],
    [mxGetIr], [mxGetJc], [mxGetPr], [mxGetLogicals]. *)
Record mxArray := {
  mxIsSparse : bool;
  mxIsDouble : bool;
  mxIsComplex : bool;
  mxGetM : nat;
  mxGetN : nat;
  mxGetIr : list nat;
  mxGetJc : list nat;
  mxGetPr : list float;
  mxGetLogicals : list bool }.

#[global] Instance mxArray_inhabited : Inhabited mxArray :=
  populate {| mxIsSparse := false; mxIsDouble := false; mxIsComplex := false;
              mxGetM := 0; mxGetN := 0; mxGetIr := []; mxGetJc := [];
              mxGetPr := []; mxGetLogicals := [] |}.

(** How a call ends: [mexWarnMsgTxt(msg); return;] with the output array
    [plhs] as it stands, or the normal return. *)
Inductive mex_outcome :=
  | Warned (msg : string) (plhs : list mxArray)
  | Returned (plhs : list mxArray).

(** [sp_mat_c] view of a sparse [mxArray], lines 397-400. *)
Definition sp_mat_of (a : mxArray) : sp_mat_c :=
  {| mat_m := mxGetM a; mat_n := mxGetN a; mat_jc := mxGetJc a;
     mat_ir := mxGetIr a; mat_pr := mxGetPr a |}.

(** [mxCreateDoubleMatrix(m,1,mxREAL)] filled with [pr]. *)
Definition mx_double_column (m : nat) (pr : list float) : mxArray :=
  {| mxIsSparse := false; mxIsDouble := true; mxIsComplex := false;
     mxGetM := m; mxGetN := 1; mxGetIr := []; mxGetJc := [];
     mxGetPr := pr; mxGetLogicals := [] |}.

(** A sparse, double, real input of the host, as [prhs[0]] and [prhs[1]]
    are expected. *)
Definition mx_sparse_double (M : sp_mat_c) : mxArray :=
  {| mxIsSparse := true; mxIsDouble := true; mxIsComplex := false;
     mxGetM := mat_m M; mxGetN := mat_n M; mxGetIr := mat_ir M;
     mxGetJc := mat_jc M; mxGetPr := mat_pr M; mxGetLogicals := [] |}.

(** [mxCreateSparseLogicalMatrix(m,n,nz)] after the copies of lines
    415-418. *)
Definition mx_sparse_logical (m n : nat) (jc ir : list nat) (nz : nat)
    : mxArray :=
  {| mxIsSparse := true; mxIsDouble := false; mxIsComplex := false;
     mxGetM := m; mxGetN := n; mxGetIr := take nz ir; mxGetJc := jc;
     mxGetPr := []; mxGetLogicals := replicate nz true |}.

Section Entry.
Context {ops : triangular_ops}.
Variable STOP_TEST : nat.

(** Lines 375-420.  [nrhs] is the length of [prhs]. *)
Definition mexFunction (fuel : nat) (nlhs : nat) (plhs prhs : list mxArray)
    : option mex_outcome :=
  let nrhs := length prhs in
  let p (i : nat) := prhs !!! i in
  if decide (nrhs ≠ 5) then Some (Warned "Five inputs required." plhs)
  else if decide (nlhs ≠ 2) then Some (Warned "Two outputs required." plhs)
  else if negb (mxIsSparse (p 0)) || negb (mxIsDouble (p 0))
          || mxIsComplex (p 0)
  then Some (Warned "First input not a sparse, double, real matrix." plhs)
  else if negb (mxIsSparse (p 1)) || negb (mxIsDouble (p 1))
          || mxIsComplex (p 1)
  then Some (Warned "Second input not a sparse, double, real matrix." plhs)
  else if mxIsSparse (p 2) || negb (mxIsDouble (p 2)) || mxIsComplex (p 2)
  then Some (Warned "Third input not a full, double, real array." plhs)
  else if mxIsSparse (p 3) || negb (mxIsDouble (p 3)) || mxIsComplex (p 3)
  then Some (Warned "Fourth input not a full, double, real array." plhs)
  else if mxIsSparse (p 4) || negb (mxIsDouble (p 4)) || mxIsComplex (p 4)
          || negb (mxGetM (p 4) =? 1) || negb (mxGetN (p 4) =? 1)
  then Some (Warned "Fifth input not a double real scalar." plhs)
  else
    let A := sp_mat_of (p 0) in
    let B := sp_mat_of (p 1) in
    let D := mxGetPr (p 2) in
    let u := mxGetPr (p 3) in
    let tol := mxGetPr (p 4) !!! 0 in
    if decide (mat_m A ≠ mat_n A) then Some (Warned "A not square." plhs)
    else if decide (mat_m A ≠ mat_m B)
    then Some (Warned "rows(A) != rows(B)" plhs)
    else if decide (mxGetM (p 2) ≠ mat_m A ∨ mxGetN (p 2) ≠ 1)
    then Some (Warned "D not a column vector, or rows(D) != rows(A)" plhs)
    else if decide (mxGetM (p 3) ≠ mat_n B ∨ mxGetN (p 3) ≠ 1)
    then Some (Warned "u not a column vector, or rows(u) != cols(B)" plhs)
    else
      '(X_skel, X_sum) ←
        interp_skel STOP_TEST fuel (replicate (mat_m B) 0%float) A B D u tol;
      let nz := log_jc X_skel !!! log_n X_skel in
      let plhs := <[1 := mx_double_column (mat_m B) X_sum]> plhs in
      let plhs :=
        <[0 := mx_sparse_logical (mat_m B) (mat_n B)
                 (take (log_n X_skel + 1) (log_jc X_skel))
                 (log_ir X_skel) nz]> plhs in
      Some (Returned plhs).

End Entry.

(** * Vocabulary of the statements *)

(** The child the delete-max compares with (lines 73-74 and 180-181): the
    larger of the two children of [hole] below [hi]. *)
Definition down_child (heap : list nat) (hi hole : nat) : nat :=
  if decide (Nat.shiftl hole 1 + 1 < hi ∧
             hget heap (Nat.shiftl hole 1) < hget heap (Nat.shiftl hole 1 + 1))
  then Nat.shiftl hole 1 + 1 else Nat.shiftl hole 1.

(** Max-heap order on the positions [1..n]. *)
Definition is_heap (heap : list nat) (n : nat) : Prop :=
  ∀ c, 2 ≤ c ≤ n → hget heap c ≤ hget heap (Nat.shiftr c 1).

(** The products [a_ij * x_j] that [sp_mv] adds up, with their rows, in the
    order of the scan: the entries of [x] in array order, exact zeros
    skipped, and under each the entries of column [j] of [A]. *)
Definition all_terms (A : sp_mat_c) (x : list (nat * float))
    : list (nat * float) :=
  x ≫= (λ e, if (abs e.2 =? 0)%float then []
             else (λ c, (c.1, (c.2 * e.2)%float)) <$> column A e.1).

(** The terms of row [i] among [cs], in order. *)
Definition row_terms (cs : list (nat * float)) (i : nat) : list float :=
  (filter (λ c, c.1 = i) cs).*2.

(** Row [i] of the product [A·x] as [sp_mv] sums it. *)
Definition row_product (A : sp_mat_c) (x : list (nat * float)) (i : nat)
    : float :=
  fsum (row_terms (all_terms A x) i).

(** [mask[i] < 0]: row [i] is admitted. *)
Definition admitted (mask : list Z) (i : nat) : Prop := (mask !!! i < 0)%Z.

#[global] Instance admitted_dec mask i : Decision (admitted mask i).
Proof. unfold admitted. apply _. Defined.

(** Lines 55-65 of [sp_mv] on one admitted term [(i, c)]. *)
Definition touch (st : mv_state) (e : nat * float) : mv_state :=
  let st' :=
    if (mv_flag st !!! e.1 =? 0)%Z then
      {| mv_yn := S (mv_yn st);
         mv_heap := sift_up (mv_heap st ++ [e.1]) e.1 (S (mv_yn st));
         mv_sv := <[e.1 := 0%float]> (mv_sv st);
         mv_flag := <[e.1 := 1%Z]> (mv_flag st) |}
    else st in
  {| mv_yn := mv_yn st';
     mv_heap := mv_heap st';
     mv_sv := <[e.1 := (mv_sv st' !!! e.1 + e.2)%float]> (mv_sv st');
     mv_flag := mv_flag st' |}.

(** What holds of the locals of [sp_mv] once the admitted terms [cs] have
    been scanned, starting from a clear [flag] and the scratch [sv0], both of
    length [nf]. *)
Definition mv_inv (nf : nat) (sv0 : list float) (cs : list (nat * float))
    (st : mv_state) : Prop :=
  mv_yn st = length (mv_heap st) ∧
  is_heap (mv_heap st) (mv_yn st) ∧
  NoDup (mv_heap st) ∧
  (∀ i, i ∈ mv_heap st ↔ i ∈ cs.*1) ∧
  length (mv_flag st) = nf ∧
  (∀ i, i < nf →
        mv_flag st !!! i = if decide (i ∈ mv_heap st) then 1%Z else 0%Z) ∧
  length (mv_sv st) = nf ∧
  (∀ i, i ∈ mv_heap st → mv_sv st !!! i = fsum (row_terms cs i)) ∧
  (∀ i, i ∉ mv_heap st → mv_sv st !!! i = sv0 !!! i).

(** The component of index [i] of a sparse vector, if it is stored. *)
Fixpoint sp_get (v : list (nat * float)) (i : nat) : option float :=
  match v with
  | [] => None
  | e :: v' => if decide (e.1 = i) then Some e.2 else sp_get v' i
  end.

(** The component of [r] at an admitted index, from those of [x] and [y]
    (specification, section 4.2). *)
Definition resid_value (alpha : float) (ox oy : option float)
    : option float :=
  match ox, oy with
  | Some a, Some b => Some (a - alpha * b)%float
  | Some a, None => Some a
  | None, Some b => Some (- alpha * b)%float
  | None, None => None
  end.

(** The entry of [beta] at an index, from its old value [b0] and the
    components of [x] and [y]: added to where both are present, set where
    only [y] is, untouched where [y] is absent. *)
Definition resid_beta (b0 : float) (ox oy : option float) : float :=
  match oy with
  | None => b0
  | Some b => match ox with
              | Some _ => (b0 + b * b)%float
              | None => (b * b)%float
              end
  end.

(** [final] is [st] after the merge of [x] and [y]: the entries emitted,
    the count, and [beta]. *)
Definition resid_post (mask : list Z) (alpha : float) (st : resid_state)
    (x y : list (nat * float)) (final : resid_state) : Prop :=
  ∃ out,
    rs_r final = rs_r st ++ out ∧
    rs_rnz final = rs_rnz st + length out ∧
    StronglySorted lt out.*1 ∧
    (∀ i, sp_get out i =
          if decide (admitted mask i)
          then resid_value alpha (sp_get x i) (sp_get y i) else None) ∧
    (∀ i, rs_beta final !!! i =
          resid_beta (rs_beta st !!! i) (sp_get x i) (sp_get y i)) ∧
    length (rs_beta final) = length (rs_beta st).

(** A candidate of a scan: the index, the weight [tw] and the term [tn] of
    the stopping norm, lines 269-270 and 350-351. *)
Definition cand0 (D : list float) (e : nat * float) : nat * float * float :=
  (e.1, (e.2 / sqrt (D !!! e.1))%float, abs (e.2 / D !!! e.1)).

Definition cand (D beta : list float) (e : nat * float)
    : nat * float * float :=
  (e.1, (e.2 / sqrt (D !!! e.1 - beta !!! e.1))%float,
   abs (e.2 / (D !!! e.1 - beta !!! e.1))).

(** The scan of candidates by [pick], from the first one. *)
Definition pick_fold (STOP_TEST : nat) (acc : nat * float * float)
    (cands : list (nat * float * float)) : nat * float * float :=
  foldl (λ acc c, pick STOP_TEST acc c.1.1 c.1.2 c.2) acc cands.

(** The two stopping norms of the specification (section 4.5), as sums and
    maxima of doubles taken in array order. *)
Definition fmax (a b : float) : float := if (a <? b)%float then b else a.

Definition max_norm (l : list float) : float :=
  match l with [] => 0%float | t :: ts => foldl fmax t ts end.

Definition sum_norm (l : list float) : float :=
  match l with [] => 0%float | t :: ts => foldl (λ a b, (a + b)%float) t ts end.

(** The compressed-column invariant of the specification (section 3), for
    a matrix with [mat_m M] rows: the two entry arrays have one length, row
    indices are below [mat_m M], column pointers ascend and stay inside the
    arrays, and each column lists its rows in strictly ascending order. *)
Definition csc_wf (M : sp_mat_c) : Prop :=
  length (mat_pr M) = length (mat_ir M) ∧
  Forall (λ i, i < mat_m M) (mat_ir M) ∧
  Forall (λ j, mat_jc M !!! j ≤ mat_jc M !!! (j + 1) ∧
               mat_jc M !!! (j + 1) ≤ length (mat_ir M) ∧
               StronglySorted lt (col_slice (mat_jc M) (mat_ir M) j))
         (seq 0 (mat_n M)).

#[global] Instance csc_wf_dec M : Decision (csc_wf M).
Proof. unfold csc_wf. apply _. Defined.

(** The pivots of the column being solved: [Qi[0..k)]. *)
Definition pivots (st : state) : list nat := drop (st_Qi st) (st_ir st).

(** The state of [interp_skel] between two columns, for [nf] rows. *)
Definition skel_inv (nf : nat) (st : state) : Prop :=
  st_iri st = length (st_ir st) ∧
  st_flag st = replicate nf 0%Z ∧
  st_map_to_Qi st = replicate nf (-1)%Z ∧
  length (st_beta st) = nf ∧
  length (st_sp st) = nf.

(** The state of [interp_skel] at the test of [while(norm>tol)]. *)
Definition col_inv (nf : nat) (tol : float) (st : state) : Prop :=
  st_iri st = length (st_ir st) ∧
  st_Qi st ≤ length (st_ir st) ∧
  length (pivots st) = st_k st ∧
  NoDup (pivots st) ∧
  Forall (λ i, i < nf) (pivots st) ∧
  length (st_map_to_Qi st) = nf ∧
  (∀ i, i ∈ pivots st → (0 ≤ st_map_to_Qi st !!! i)%Z) ∧
  (∀ i, i ∉ pivots st → i < nf → st_map_to_Qi st !!! i = (-1)%Z) ∧
  st_flag st = replicate nf 0%Z ∧
  length (st_beta st) = nf ∧
  length (st_sp st) = nf ∧
  st_rnz st = length (st_r st) ∧
  StronglySorted lt (st_r st).*1 ∧
  Forall (λ e, e.1 < nf ∧ e.1 ∉ pivots st) (st_r st) ∧
  ((tol <? st_norm st)%float = true → st_s st ∈ (st_r st).*1).

(** The pivot, its weight and the stopping norm that the initial scan of
    column [j] of [B] finds (lines 267-278); they depend on [B] and [D]
    only. *)
Definition first_pick (STOP_TEST : nat) (D : list float) (B : sp_mat_c)
    (j : nat) : nat * float * float :=
  (init_scan STOP_TEST D [] (mat_jc B !!! (j + 1) - mat_jc B !!! j)
     (column B j)).2.

(** The column pointers of the columns [cols] laid out from offset [off]. *)
Fixpoint starts (off : nat) (cols : list (list nat)) : list nat :=
  match cols with
  | [] => []
  | c :: cs => off :: starts (off + length c) cs
  end.

(** What the skeleton [col] emitted for column [j] owes to the initial
    scan: nothing for an empty column of [B] or a norm that does not exceed
    the tolerance, and otherwise at least the first pivot. *)
Definition col_fact (STOP_TEST : nat) (D : list float) (B : sp_mat_c)
    (tol : float) (j : nat) (col : list nat) : Prop :=
  if decide (mat_jc B !!! (j + 1) - mat_jc B !!! j < 1) then col = []
  else if (tol <? (first_pick STOP_TEST D B j).2)%float
       then (first_pick STOP_TEST D B j).1.1 ∈ col
       else col = [].

(** ** Inputs of the concrete scenarios (specification, section 8) *)

(** Scenario 1: [A = B = I_4], [D = u = (1,1,1,1)]. *)
Definition I4 : sp_mat_c :=
  {| mat_m := 4; mat_n := 4; mat_jc := [0; 1; 2; 3; 4];
     mat_ir := [0; 1; 2; 3]; mat_pr := [1; 1; 1; 1]%float |}.

Definition ones4 : list float := [1; 1; 1; 1]%float.

(** Scenario 2: [A = diag(4,9)], [B] the single column [(1,1)],
    [D = (4,9)], [u = (1)]. *)
Definition diag49 : sp_mat_c :=
  {| mat_m := 2; mat_n := 2; mat_jc := [0; 1; 2];
     mat_ir := [0; 1]; mat_pr := [4; 9]%float |}.

Definition col11 : sp_mat_c :=
  {| mat_m := 2; mat_n := 1; mat_jc := [0; 2];
     mat_ir := [0; 1]; mat_pr := [1; 1]%float |}.

(** Scenario 3: a [B] of two columns, the first one empty. *)
Definition col_empty_then_e0 : sp_mat_c :=
  {| mat_m := 2; mat_n := 2; mat_jc := [0; 0; 1];
     mat_ir := [0]; mat_pr := [1]%float |}.

(** Scenario 4: a [B] whose single entry is [2^-40]. *)
Definition col_tiny : sp_mat_c :=
  {| mat_m := 2; mat_n := 1; mat_jc := [0; 1];
     mat_ir := [0]; mat_pr := [0x1p-40]%float |}.

(** The tridiagonal matrix of order 3 with 2 on and -1 off the diagonal. *)
Definition tridiag3 : sp_mat_c :=
  {| mat_m := 3; mat_n := 3; mat_jc := [0; 2; 5; 7];
     mat_ir := [0; 1; 0; 1; 2; 1; 2];
     mat_pr := [2; -1; -1; 2; -1; -1; 2]%float |}.

(** The five preconditions on shapes and types of the specification
    (section 6): [A] square; [rows(A) = rows(B)]; [D] a column of length
    [rows(A)]; [u] a column of length [cols(B)]; [tol] a real double
    scalar. *)
Definition real_double_scalar (a : mxArray) : Prop :=
  mxIsDouble a = true ∧ mxIsComplex a = false ∧ mxGetM a = 1 ∧ mxGetN a = 1.

Definition preconditions (A B D u tol : mxArray) : Prop :=
  mxGetM A = mxGetN A ∧
  mxGetM A = mxGetM B ∧
  (mxGetM D = mxGetM A ∧ mxGetN D = 1) ∧
  (mxGetM u = mxGetN B ∧ mxGetN u = 1) ∧
  real_double_scalar tol.

(** The terms [|r_i / (D_i - beta_i)|] of the stopping norm of a residual
    [r], in array order. *)
Definition norm_terms (D beta : list float) (r : list (nat * float))
    : list float :=
  (λ e, abs (e.2 / (D !!! e.1 - beta !!! e.1))) <$> r.

(** [st] with the buffer [Q] replaced. *)
Definition with_Q (st : state) (Q : list float) : state :=
  {| st_ir := st_ir st; st_iri := st_iri st; st_nzmax := st_nzmax st;
     st_jc := st_jc st; st_X_sum := st_X_sum st; st_beta := st_beta st;
     st_sp := st_sp st; st_flag := st_flag st;
     st_map_to_Qi := st_map_to_Qi st; st_Q := Q; st_max_Q := st_max_Q st;
     st_Qi := st_Qi st; st_qk := st_qk st; st_k := st_k st;
     st_s := st_s st; st_w := st_w st; st_norm := st_norm st;
     st_rnz := st_rnz st; st_r := st_r st |}.

(** Two states that differ at most in the content of a non-empty [Q]. *)
Definition same_but_Q (st st' : state) : Prop :=
  st' = with_Q st (st_Q st') ∧
  length (st_Q st) = length (st_Q st') ∧
  0 < length (st_Q st) ∧ 1 ≤ st_max_Q st.

(** The run over the columns [js] from [st] gives every column at most one
    pivot (checked with the routines of the header as the specification
    describes them). *)
Fixpoint at_most_one_pivot (STOP_TEST : nat) (A B : sp_mat_c)
    (D u : list float) (tol : float) (st : state) (js : list nat) : bool :=
  match js with
  | [] => true
  | j :: js =>
      let st0 := begin_column B j st in
      if decide (st_rnz st0 < 1)
      then at_most_one_pivot STOP_TEST A B D u tol st0 js
      else
        let ld := load_column STOP_TEST B D j st0 in
        let st1 := if (tol <? st_norm ld)%float
                   then @expand spec_ops STOP_TEST A D u j ld else ld in
        negb (tol <? st_norm st1)%float
        && at_most_one_pivot STOP_TEST A B D u tol (finish_column st1) js
  end.


(** ** Vocabulary of the further properties *)

(** The sign of a double, read off its IEEE representation: [sf_negative]
    holds of the negative numbers and of [-infinity], not of [-0] or NaN;
    [sf_signed s] holds of NaN and of what carries the sign bit [s]. *)
Definition sf_negative (x : spec_float) : bool :=
  match x with
  | S754_finite true _ _ | S754_infinity true => true
  | _ => false
  end.

Definition sf_signed (s : bool) (x : spec_float) : Prop :=
  match x with
  | S754_nan => True
  | S754_zero s' | S754_infinity s' | S754_finite s' _ _ => s' = s
  end.

(** The compressed-column invariant for the pattern [X_skel]: [n+1] column
    pointers that start at 0, ascend and end at the number of stored
    entries; rows below [m]; each column strictly ascending. *)
Definition log_wf (X : sp_log_mat) : Prop :=
  length (log_jc X) = log_n X + 1 ∧
  log_jc X !!! 0 = 0 ∧
  log_jc X !!! log_n X = length (log_ir X) ∧
  Forall (λ i, i < log_m X) (log_ir X) ∧
  Forall (λ j, log_jc X !!! j ≤ log_jc X !!! (j + 1) ∧
               StronglySorted lt (col_slice (log_jc X) (log_ir X) j))
         (seq 0 (log_n X)).

(** The buffer [X_skel->ir] holds what has been written to it, and has
    room for twice the entries of [B] at least (lines 223-225, 284-289). *)
Definition ir_fits (B : sp_mat_c) (st : state) : Prop :=
  st_iri st ≤ st_nzmax st ∧ 2 * mat_jc B !!! mat_n B ≤ st_nzmax st.

(** [X_sum] has [nf] entries and is [0.0] at the rows that no column has
    taken as a pivot so far. *)
Definition sum_on_skeleton (nf : nat) (st : state) : Prop :=
  length (st_X_sum st) = nf ∧
  ∀ i, i < nf → i ∉ st_ir st → st_X_sum st !!! i = 0%float.

(** The size [max_Q*(max_Q+1)*sizeof(double)/2] of lines 234 and 293 is
    computed without wrap-around: the product [max_Q*(max_Q+1)] is an
    [int], then multiplied by [sizeof(double) = 8] as a [size_t], and both
    fit when the byte count stays below [2^32]. *)
Definition Q_size_exact (max_Q : nat) : Prop :=
  (Z.of_nat (max_Q * (max_Q + 1)) * 8 ≤ 4294967295)%Z.

(** The packed buffer [Q] holds the columns [0..max_Q) of an upper
    triangular matrix, [max_Q(max_Q+1)/2] doubles, a size that was
    computed exactly, and [qk] points at its column [k]:
    [qk = Q + k(k+1)/2] (lines 234, 291-295, 359). *)
Definition Q_fits (st : state) : Prop :=
  length (st_Q st) = st_max_Q st * (st_max_Q st + 1) / 2 ∧
  2 * st_qk st = st_k st * (st_k st + 1) ∧
  st_k st ≤ st_max_Q st ∧ 1 ≤ st_max_Q st ∧
  Q_size_exact (st_max_Q st).

(** The identity of order 36, and a state that has taken the rows 0 to 34
    of one of its columns as pivots and is about to take row 35 as the
    36th, with the [Q] of line 234 full. *)
Definition I36 : sp_mat_c :=
  {| mat_m := 36; mat_n := 36; mat_jc := seq 0 37; mat_ir := seq 0 36;
     mat_pr := replicate 36 1%float |}.

Definition full_Q_state : state :=
  {| st_ir := seq 0 35; st_iri := 35; st_nzmax := 72; st_jc := [0];
     st_X_sum := replicate 36 0%float; st_beta := replicate 36 0%float;
     st_sp := replicate 36 0%float; st_flag := replicate 36 0%Z;
     st_map_to_Qi := (Z.of_nat <$> seq 0 35) ++ [(-1)%Z];
     st_Q := replicate 630 0%float; st_max_Q := 35; st_Qi := 0;
     st_qk := 630; st_k := 35; st_s := 35; st_w := 1%float;
     st_norm := 1%float; st_rnz := 1; st_r := [(35, 1%float)] |}.

(** What a run of the merge from [st] on [x] and [y] is bound by, whatever
    the order of the indices: the entries [out] it emits, the count, and
    [beta]. *)
Definition resid_bound (mask : list Z) (st : resid_state)
    (x y : list (nat * float)) (final : resid_state) : Prop :=
  ∃ out,
    rs_r final = rs_r st ++ out ∧
    rs_rnz final = rs_rnz st + length out ∧
    length out ≤ length x + length y ∧
    Forall (λ e, admitted mask e.1 ∧ (e.1 ∈ x.*1 ∨ e.1 ∈ y.*1)) out ∧
    length (rs_beta final) = length (rs_beta st) ∧
    (∀ i, i ∉ y.*1 → rs_beta final !!! i = rs_beta st !!! i).

(** The merge of lines 98-127 followed by the two closing loops of lines
    128-142, from the output cursor [st]. *)
Definition resid_run (mask : list Z) (alpha : float)
    (x y : list (nat * float)) (st : resid_state) : resid_state :=
  let '(x', y', st') := resid_merge mask alpha x y st in
  foldl (resid_y mask alpha) (foldl (resid_x mask) st' x') y'.

(** The weight [r_i / sqrt(D_i - beta_i)] by which the rescan of lines
    345-358 ranks the entry [e] of the residual. *)
Definition score (D beta : list float) (e : nat * float) : float :=
  (e.2 / sqrt (D !!! e.1 - beta !!! e.1))%float.

(** The tests of lines 379-411 that precede the allocation of the
    outputs: five inputs, two outputs, [A] and [B] sparse, [D], [u] and
    [tol] full, all double and real, and the five conditions on shapes. *)
Definition sparse_double_real (a : mxArray) : Prop :=
  mxIsSparse a = true ∧ mxIsDouble a = true ∧ mxIsComplex a = false.

Definition full_double_real (a : mxArray) : Prop :=
  mxIsSparse a = false ∧ mxIsDouble a = true ∧ mxIsComplex a = false.

Definition checks_pass (nlhs : nat) (prhs : list mxArray) : Prop :=
  length prhs = 5 ∧ nlhs = 2 ∧
  sparse_double_real (prhs !!! 0) ∧ sparse_double_real (prhs !!! 1) ∧
  full_double_real (prhs !!! 2) ∧ full_double_real (prhs !!! 3) ∧
  full_double_real (prhs !!! 4) ∧
  preconditions (prhs !!! 0) (prhs !!! 1) (prhs !!! 2) (prhs !!! 3)
    (prhs !!! 4).

(** The rows that column [j] of [B] reaches through the columns of [A]:
    its own rows, and the rows of the column of [A] at a row reached. *)
Inductive reach (A B : sp_mat_c) (j : nat) : nat → Prop :=
  | reach_B i : i ∈ (column B j).*1 → reach A B j i
  | reach_A c i : reach A B j c → i ∈ (column A c).*1 → reach A B j i.

(** The pivots of the column being solved and the indices of its residual
    are rows that column [j] of [B] reaches. *)
Definition reach_inv (A B : sp_mat_c) (j : nat) (st : state) : Prop :=
  Forall (reach A B j) (pivots st) ∧
  Forall (λ e, reach A B j e.1) (st_r st).

(** [st] with the buffer [beta] replaced. *)
Definition with_beta (st : state) (beta : list float) : state :=
  {| st_ir := st_ir st; st_iri := st_iri st; st_nzmax := st_nzmax st;
     st_jc := st_jc st; st_X_sum := st_X_sum st; st_beta := beta;
     st_sp := st_sp st; st_flag := st_flag st;
     st_map_to_Qi := st_map_to_Qi st; st_Q := st_Q st;
     st_max_Q := st_max_Q st; st_Qi := st_Qi st; st_qk := st_qk st;
     st_k := st_k st; st_s := st_s st; st_w := st_w st;
     st_norm := st_norm st; st_rnz := st_rnz st; st_r := st_r st |}.

(** Two states that differ at most in the content of [beta]. *)
Definition same_but_beta (st st' : state) : Prop :=
  st' = with_beta st (st_beta st') ∧
  length (st_beta st') = length (st_beta st).

(** The two [beta] agree at the indices of the residual. *)
Definition beta_agrees (st st' : state) : Prop :=
  ∀ e, e ∈ st_r st → st_beta st' !!! e.1 = st_beta st !!! e.1.

(** [map_to_Qi] is the inverse of [Qi] on the pivots of the column:
    [map_to_Qi[Qi[m]] = m] for [m < k], and [-1] at every other row
    (comment of lines 211-212). *)
Definition inverse_map (nf : nat) (st : state) : Prop :=
  (∀ m, m < st_k st →
        st_map_to_Qi st !!! Qi_at (st_ir st) (st_Qi st) m = Z.of_nat m) ∧
  (∀ i, i < nf → i ∉ pivots st → st_map_to_Qi st !!! i = (-1)%Z).

(** A [B] whose single entry is NaN. *)
Definition col_nan : sp_mat_c :=
  {| mat_m := 2; mat_n := 1; mat_jc := [0; 1];
     mat_ir := [0]; mat_pr := [nan]%float |}.

(** A [B] of two columns without entries. *)
Definition col_none : sp_mat_c :=
  {| mat_m := 2; mat_n := 2; mat_jc := [0; 0; 0];
     mat_ir := []; mat_pr := [] |}.

(** * Properties *)

(** ** Arithmetic of positions *)

Lemma shiftr1_bounds (n : nat) :
  2 * Nat.shiftr n 1 ≤ n ∧ n ≤ 2 * Nat.shiftr n 1 + 1.
Proof.
  change (Nat.shiftr n 1) with (Nat.div2 n).
  rewrite Nat.div2_div.
  pose proof (Nat.div_mod_eq n 2). pose proof (Nat.mod_upper_bound n 2). lia.
Qed.

Lemma shiftl1_double (n : nat) : Nat.shiftl n 1 = 2 * n.
Proof. change (Nat.shiftl n 1) with (Nat.double n). unfold Nat.double. lia. Qed.

Lemma shiftr1_child (c p : nat) :
  Nat.shiftr c 1 = p ↔ c = 2 * p ∨ c = 2 * p + 1.
Proof. pose proof (shiftr1_bounds c). lia. Qed.

(** ** Reading and writing heap positions *)

Lemma length_hset heap p v : length (hset heap p v) = length heap.
Proof. apply length_insert. Qed.

Lemma hget_hset_eq heap p v :
  1 ≤ p ≤ length heap → hget (hset heap p v) p = v.
Proof.
  intros Hp. unfold hget, hset.
  apply list_lookup_total_insert_eq. lia.
Qed.

Lemma hget_hset_ne heap p q v :
  1 ≤ p → 1 ≤ q → p ≠ q → hget (hset heap p v) q = hget heap q.
Proof.
  intros Hp Hq Hne. unfold hget, hset.
  apply list_lookup_total_insert_ne. lia.
Qed.

Lemma drop_hset heap p v n :
  1 ≤ p ≤ n → drop n (hset heap p v) = drop n heap.
Proof. intros Hp. unfold hset. apply drop_insert_lt. lia. Qed.

(** ** The loops, one iteration at a time *)

Lemma sift_up_step heap i hole :
  sift_up heap i hole =
    if decide (1 < hole) then
      if decide (i < hget heap (Nat.shiftr hole 1)) then hset heap hole i
      else sift_up (hset heap hole (hget heap (Nat.shiftr hole 1))) i
             (Nat.shiftr hole 1)
    else hset heap hole i.
Proof.
  rewrite sift_up_equation_1. unfold sift_up_unfold_clause_1.
  destruct (decide (1 < hole)); reflexivity.
Qed.

Lemma sift_up_do_step heap v hole :
  sift_up_do heap v hole =
    if decide (v < hget heap (Nat.shiftr hole 1)) then hset heap hole v
    else if decide (1 < Nat.shiftr hole 1) then
      sift_up_do (hset heap hole (hget heap (Nat.shiftr hole 1))) v
        (Nat.shiftr hole 1)
    else hset (hset heap hole (hget heap (Nat.shiftr hole 1)))
           (Nat.shiftr hole 1) v.
Proof.
  rewrite sift_up_do_equation_1. cbv zeta.
  destruct (decide (v < _)); [reflexivity|].
  destruct (decide (1 < _)); reflexivity.
Qed.

Lemma sift_down_step heap hi v hole :
  1 ≤ hole →
  sift_down heap hi v hole =
    if decide (hi ≤ down_child heap hi hole ∨
               hget heap (down_child heap hi hole) ≤ v)
    then hset heap hole v
    else sift_down (hset heap hole (hget heap (down_child heap hi hole)))
           hi v (down_child heap hi hole).
Proof.
  intros Hh. destruct hole as [|h]; [lia|].
  rewrite sift_down_equation_2. unfold down_child. cbv zeta.
  destruct (decide (hi ≤ _ ∨ _)); reflexivity.
Qed.

(** ** Permutations through single writes *)

Lemma insert_perm (l : list nat) (i v : nat) :
  i < length l → (l !!! i) :: <[i := v]> l ≡ₚ v :: l.
Proof.
  revert i. induction l as [|a l IH]; intros [|i] Hi; simpl in *; try lia.
  - apply perm_swap.
  - rewrite perm_swap, (IH i) by lia. apply perm_swap.
Qed.

Lemma hset_perm heap p v :
  1 ≤ p ≤ length heap → hget heap p :: hset heap p v ≡ₚ v :: heap.
Proof. intros Hp. apply insert_perm. lia. Qed.

Lemma perm_take_of_drop (l1 l2 : list nat) (n : nat) :
  l1 ≡ₚ l2 → drop n l1 = drop n l2 → take n l1 ≡ₚ take n l2.
Proof.
  intros Hp Hd.
  rewrite <- (take_drop n l1), <- (take_drop n l2), Hd in Hp.
  by apply Permutation_app_inv_r in Hp.
Qed.

(** ** Max-heaps *)

Lemma is_heap_le heap n n' : n' ≤ n → is_heap heap n → is_heap heap n'.
Proof. intros Hn Hh c Hc. apply Hh. lia. Qed.

(** The root of a heap is its maximum. *)
Lemma is_heap_root heap n p :
  is_heap heap n → 1 ≤ p ≤ n → hget heap p ≤ hget heap 1.
Proof.
  intros Hh. induction p as [p IH] using lt_wf_ind. intros Hp.
  destruct (decide (p = 1)) as [->|Hne]; [done|].
  pose proof (shiftr1_bounds p).
  etrans; [apply Hh; lia|]. apply IH; lia.
Qed.

(** Writing [v] at [p] keeps the heap order when [v] fits between the
    parent and the children of [p]. *)
Lemma is_heap_hset heap n p v :
  1 ≤ p ≤ length heap →
  (∀ c, 2 ≤ c ≤ n → c ≠ p → Nat.shiftr c 1 ≠ p →
        hget heap c ≤ hget heap (Nat.shiftr c 1)) →
  (2 ≤ p ≤ n → v ≤ hget heap (Nat.shiftr p 1)) →
  (∀ c, 2 ≤ c ≤ n → Nat.shiftr c 1 = p → hget heap c ≤ v) →
  is_heap (hset heap p v) n.
Proof.
  intros Hp Hrest Hup Hdown c Hc.
  pose proof (shiftr1_bounds c).
  destruct (decide (c = p)) as [->|Hcp].
  - rewrite hget_hset_eq, hget_hset_ne by lia. apply Hup. lia.
  - rewrite (hget_hset_ne _ _ c) by lia.
    destruct (decide (Nat.shiftr c 1 = p)) as [Heq|Hne].
    + rewrite Heq, hget_hset_eq by lia. by apply Hdown.
    + rewrite hget_hset_ne by lia. by apply Hrest.
Qed.

Ltac hsimpl :=
  repeat first
    [ rewrite hget_hset_eq by (rewrite ?length_hset; lia)
    | rewrite hget_hset_ne by lia ].

(** The insertion loop started at [hole], with every edge of the heap in
    order except the one above [hole]: the result is a heap that holds [v]
    in place of the content of [hole]. *)
Lemma sift_up_spec (n : nat) : ∀ hole heap v,
  1 ≤ hole ≤ n → n ≤ length heap →
  (∀ c, 2 ≤ c ≤ n → c ≠ hole → hget heap c ≤ hget heap (Nat.shiftr c 1)) →
  (∀ c, 2 ≤ c ≤ n → Nat.shiftr c 1 = hole → 2 ≤ hole →
        hget heap c ≤ hget heap (Nat.shiftr hole 1)) →
  (∀ c, 2 ≤ c ≤ n → Nat.shiftr c 1 = hole → hget heap c ≤ v) →
  is_heap (sift_up heap v hole) n ∧
  hget heap hole :: sift_up heap v hole ≡ₚ v :: heap ∧
  length (sift_up heap v hole) = length heap ∧
  drop n (sift_up heap v hole) = drop n heap.
Proof.
  induction hole as [hole IH] using lt_wf_ind.
  intros heap v Hhole Hn Ha Hb Hc.
  pose proof (shiftr1_bounds hole) as Hpar.
  rewrite sift_up_step.
  destruct (decide (1 < hole)) as [H1|H1].
  - set (parent := Nat.shiftr hole 1) in *.
    set (ip := hget heap parent).
    destruct (decide (v < ip)) as [Hlt|Hge].
    + split_and!.
      * apply is_heap_hset; [lia| | |done].
        { intros c ? ? ?. by apply Ha. }
        { intros _. apply Nat.lt_le_incl. exact Hlt. }
      * apply hset_perm. lia.
      * apply length_hset.
      * apply drop_hset. lia.
    + destruct (IH parent ltac:(lia) (hset heap hole ip) v)
        as (Hheap & Hperm & Hlen & Hdrop).
      * lia.
      * rewrite length_hset. lia.
      * intros c Hc2 Hcp. pose proof (shiftr1_bounds c).
        destruct (decide (c = hole)) as [->|Hch].
        { fold parent. hsimpl. done. }
        hsimpl. destruct (decide (Nat.shiftr c 1 = hole)) as [Heq|Hne].
        { rewrite Heq. hsimpl. apply Hb; [done|done|lia]. }
        hsimpl. by apply Ha.
      * intros c Hc2 Hcp Hp2. pose proof (shiftr1_bounds c).
        pose proof (shiftr1_bounds parent).
        hsimpl. destruct (decide (c = hole)) as [->|Hch].
        { hsimpl. apply Ha; lia. }
        hsimpl. etrans; [apply Ha; lia|]. rewrite Hcp. apply Ha; lia.
      * intros c Hc2 Hcp. pose proof (shiftr1_bounds c).
        destruct (decide (c = hole)) as [->|Hch].
        { hsimpl. lia. }
        hsimpl. etrans; [apply Ha; lia|]. rewrite Hcp. fold ip. lia.
      * revert Hperm. hsimpl. fold ip. intros Hperm.
        split_and!.
        { done. }
        { apply (Permutation_cons_inv (a := ip)).
          rewrite perm_swap, Hperm, perm_swap.
          rewrite (hset_perm heap hole ip) by lia. apply perm_swap. }
        { by rewrite Hlen, length_hset. }
        { rewrite Hdrop. apply drop_hset. lia. }
  - assert (hole = 1) as -> by lia.
    split_and!.
    + apply is_heap_hset; [lia| |lia|done].
      intros c ? ? ?. by apply Ha.
    + apply hset_perm. lia.
    + apply length_hset.
    + apply drop_hset. lia.
Qed.

Lemma down_child_parent heap hi hole :
  Nat.shiftr (down_child heap hi hole) 1 = hole.
Proof.
  apply shiftr1_child. unfold down_child. rewrite shiftl1_double.
  destruct (decide _); lia.
Qed.

(** [down_child] is below [hi] as soon as some child of [hole] is, and
    then no child of [hole] below [hi] holds more. *)
Lemma down_child_max heap hi hole c :
  c < hi → Nat.shiftr c 1 = hole →
  down_child heap hi hole < hi ∧
  hget heap c ≤ hget heap (down_child heap hi hole).
Proof.
  intros Hc Hpar. apply shiftr1_child in Hpar.
  unfold down_child. rewrite shiftl1_double.
  destruct (decide _) as [[H1 H2]|Hn].
  - destruct Hpar as [-> | ->]; split; lia.
  - destruct Hpar as [-> | ->]; split; lia.
Qed.

(** The delete-max loop started at [hole] in a heap on [1..hi-1]: the
    result is a heap that holds [v] in place of the content of [hole]. *)
Lemma sift_down_spec (hi : nat) : ∀ d hole heap v,
  d = hi - hole →
  1 ≤ hole < hi → hi - 1 ≤ length heap →
  is_heap heap (hi - 1) →
  (2 ≤ hole → v ≤ hget heap (Nat.shiftr hole 1)) →
  is_heap (sift_down heap hi v hole) (hi - 1) ∧
  hget heap hole :: sift_down heap hi v hole ≡ₚ v :: heap ∧
  length (sift_down heap hi v hole) = length heap ∧
  drop (hi - 1) (sift_down heap hi v hole) = drop (hi - 1) heap.
Proof.
  induction d as [d IH] using lt_wf_ind.
  intros hole heap v -> Hhole Hlen Hheap Hup.
  rewrite sift_down_step by lia.
  pose proof (down_child_parent heap hi hole) as Hpar.
  pose proof (down_child_max heap hi hole) as Hmax.
  set (child := down_child heap hi hole) in *.
  pose proof (shiftr1_bounds child) as Hcb.
  destruct (decide (hi ≤ child ∨ hget heap child ≤ v)) as [Hexit|Hgo].
  - split_and!.
    + apply is_heap_hset; [lia| |intros ?; apply Hup; lia|].
      * intros c ? ? ?. by apply Hheap.
      * intros c Hc Hcp. destruct (Hmax c) as [? ?]; [lia|done|].
        destruct Hexit; lia.
    + apply hset_perm. lia.
    + apply length_hset.
    + apply drop_hset. lia.
  - assert (child < hi ∧ v < hget heap child) as [Hchi Hv].
    { split; [destruct (decide (hi ≤ child))|
              destruct (decide (hget heap child ≤ v))];
        try lia; exfalso; apply Hgo; auto. }
    set (ic := hget heap child) in *.
    destruct (IH (hi - child) ltac:(lia) child (hset heap hole ic) v)
      as (Hh & Hperm & Hl & Hdrop).
    + done.
    + lia.
    + rewrite length_hset. lia.
    + apply is_heap_hset; [lia| | |].
      * intros c ? ? ?. by apply Hheap.
      * intros ?. pose proof (shiftr1_bounds hole).
        etrans; [apply (Hheap child); lia|]. rewrite Hpar. apply Hheap. lia.
      * intros c Hc Hcp. by destruct (Hmax c) as [? ?]; [lia|done|].
    + intros _. rewrite Hpar. hsimpl. fold ic. lia.
    + revert Hperm. hsimpl. fold ic. intros Hperm.
      split_and!.
      * done.
      * apply (Permutation_cons_inv (a := ic)).
        rewrite perm_swap, Hperm, perm_swap.
        rewrite (hset_perm heap hole ic) by lia. apply perm_swap.
      * by rewrite Hl, length_hset.
      * rewrite Hdrop. apply drop_hset. lia.
Qed.

Lemma StronglySorted_snoc {A} (R : relation A) (l : list A) (y : A) :
  StronglySorted R l → Forall (λ x, R x y) l → StronglySorted R (l ++ [y]).
Proof.
  induction 1 as [|x l Hs IH Hx]; intros Hall; simpl.
  - repeat constructor.
  - apply Forall_cons in Hall as [Hxy Hall].
    constructor; [by apply IH|].
    apply Forall_app. split; [done|]. by constructor.
Qed.

Lemma elem_of_take_hget heap n x :
  x ∈ take n heap → ∃ p, 1 ≤ p ≤ n ∧ x = hget heap p.
Proof.
  intros (i & Hi & Hlt)%elem_of_take. exists (S i). split; [lia|].
  unfold hget. replace (S i - 1) with i by lia.
  symmetry. by apply list_lookup_total_correct.
Qed.

(** One round of the delete-max loop: the maximum moves to position [hi],
    the rest is a heap on [1..hi-1] again. *)
Lemma drain_round heap hi :
  2 ≤ hi ≤ length heap → is_heap heap hi →
  let heap' := sift_down (hset heap hi (hget heap 1)) hi (hget heap hi) 1 in
  is_heap heap' (hi - 1) ∧
  length heap' = length heap ∧
  drop (hi - 1) heap' = hget heap 1 :: drop hi heap ∧
  hget heap 1 :: take (hi - 1) heap' ≡ₚ take hi heap.
Proof.
  intros Hhi Hheap heap'. subst heap'.
  set (mx := hget heap 1). set (v := hget heap hi).
  destruct (sift_down_spec hi (hi - 1) 1 (hset heap hi mx) v)
    as (Hh & Hperm & Hl & Hdrop).
  - done.
  - lia.
  - rewrite length_hset. lia.
  - intros c Hc. pose proof (shiftr1_bounds c). hsimpl. apply Hheap. lia.
  - lia.
  - revert Hperm. hsimpl. fold mx. intros Hperm.
    destruct hi as [|h]; [lia|].
    replace (S h - 1) with h in * by lia.
    assert (heap !! h = Some v) as Hv.
    { unfold v, hget. replace (S h - 1) with h by lia.
      apply list_lookup_lookup_total_lt. lia. }
    assert (drop h (hset heap (S h) mx) = mx :: drop (S h) heap) as Hd1.
    { unfold hset. replace (S h - 1) with h by lia.
      rewrite drop_insert_ge by lia.
      rewrite (drop_S heap v h) by done.
      replace (h - h) with 0 by lia. reflexivity. }
    split_and!.
    + done.
    + by rewrite Hl, length_hset.
    + by rewrite Hdrop.
    + apply (perm_take_of_drop _ _ (S h)) in Hperm; [|by simpl].
      simpl in Hperm. rewrite Hperm.
      unfold hset. replace (S h - 1) with h by lia.
      rewrite take_insert_ge by lia.
      rewrite (take_S_r heap h v) by done.
      by rewrite Permutation_cons_append.
Qed.

(** The delete-max loop sorts a heap on [1..n] in place. *)
Lemma drain_spec (n : nat) : ∀ heap,
  n ≤ length heap → is_heap heap n →
  StronglySorted le (take n (drain heap n)) ∧
  take n (drain heap n) ≡ₚ take n heap ∧
  drop n (drain heap n) = drop n heap ∧
  length (drain heap n) = length heap.
Proof.
  induction n as [|n IH]; intros heap Hn Hheap.
  - simpl. rewrite take_0. split_and!; try done. constructor.
  - destruct n as [|n].
    + simpl. split_and!; try done.
      destruct heap; simpl; rewrite ?take_0; repeat constructor.
    + change (drain heap (S (S n))) with
        (drain (sift_down (hset heap (S (S n)) (hget heap 1)) (S (S n))
                  (hget heap (S (S n))) 1) (S n)).
      destruct (drain_round heap (S (S n))) as (Hh & Hl & Hd & Hp);
        [lia|done|].
      set (heap' := sift_down _ _ _ _) in *.
      replace (S (S n) - 1) with (S n) in * by lia.
      destruct (IH heap') as (Hs & Hperm & Hdrop & Hlen); [lia|done|].
      set (R := drain heap' (S n)) in *.
      assert (R !! S n = Some (hget heap 1)) as Hlast.
      { pose proof (lookup_drop R (S n) 0) as Hld.
        rewrite Hdrop, Hd, Nat.add_0_r in Hld. by rewrite <- Hld. }
      rewrite (take_S_r R (S n) _ Hlast).
      split_and!.
      * apply StronglySorted_snoc; [done|].
        apply Forall_forall. intros x Hx.
        rewrite Hperm in Hx.
        assert (x ∈ take (S (S n)) heap) as Hx'.
        { rewrite <- Hp. by right. }
        apply elem_of_take_hget in Hx' as (p & Hp' & ->).
        by apply (is_heap_root heap (S (S n))).
      * by rewrite Hperm, <- Permutation_cons_append.
      * transitivity (drop 1 (drop (S n) R)).
        { rewrite drop_drop. f_equal. lia. }
        rewrite Hdrop, Hd. simpl. by rewrite drop_0.
      * by rewrite Hlen.
Qed.

(** From a position above the root, the [do ... while] of [heap_sort] runs
    as the [while] of [sp_mv]. *)
Lemma sift_up_do_eq : ∀ hole heap v,
  1 < hole → sift_up_do heap v hole = sift_up heap v hole.
Proof.
  induction hole as [hole IH] using lt_wf_ind. intros heap v Hhole.
  pose proof (shiftr1_bounds hole).
  rewrite sift_up_do_step, sift_up_step.
  destruct (decide (1 < hole)); [|lia].
  destruct (decide (v < _)); [done|].
  destruct (decide (1 < Nat.shiftr hole 1)) as [Hp|Hp].
  - apply IH; lia.
  - rewrite sift_up_step. by destruct (decide (1 < Nat.shiftr hole 1)).
Qed.

Lemma heap_build_step_spec heap i :
  2 ≤ i ≤ length heap → is_heap heap (i - 1) →
  is_heap (heap_build_step heap i) i ∧
  heap_build_step heap i ≡ₚ heap ∧
  length (heap_build_step heap i) = length heap ∧
  drop i (heap_build_step heap i) = drop i heap.
Proof.
  intros Hi Hheap. unfold heap_build_step.
  destruct (decide (_ < _)) as [Hlt|Hge].
  - rewrite sift_up_do_eq by lia.
    destruct (sift_up_spec i i heap (hget heap i))
      as (Hh & Hperm & Hl & Hd).
    + lia.
    + lia.
    + intros c Hc Hne. apply Hheap. lia.
    + intros c Hc Hpar. pose proof (shiftr1_bounds c). lia.
    + intros c Hc Hpar. pose proof (shiftr1_bounds c). lia.
    + split_and!; try done. by apply Permutation_cons_inv in Hperm.
  - split_and!; try done.
    intros c Hc. destruct (decide (c = i)) as [->|Hne]; [lia|].
    apply Hheap. lia.
Qed.

Lemma heap_build_spec (cnt : nat) : ∀ start heap,
  2 ≤ start → start + cnt - 1 ≤ length heap → is_heap heap (start - 1) →
  let heap' := foldl heap_build_step heap (seq start cnt) in
  is_heap heap' (start + cnt - 1) ∧ heap' ≡ₚ heap ∧
  length heap' = length heap ∧
  drop (start + cnt - 1) heap' = drop (start + cnt - 1) heap.
Proof.
  induction cnt as [|cnt IH]; intros start heap Hs Hlen Hheap; simpl.
  - replace (start + 0 - 1) with (start - 1) by lia. done.
  - destruct (heap_build_step_spec heap start) as (Hh & Hp & Hl & Hd);
      [lia|done|].
    destruct (IH (S start) (heap_build_step heap start))
      as (Hh' & Hp' & Hl' & Hd'); [lia|lia| |].
    { by replace (S start - 1) with start by lia. }
    replace (S start + cnt - 1) with (start + S cnt - 1) in * by lia.
    split_and!; try done.
    + by rewrite Hp'.
    + by rewrite Hl'.
    + rewrite Hd'.
      replace (start + S cnt - 1) with (start + cnt) by lia.
      rewrite <- !drop_drop. by rewrite Hd.
Qed.

(** [heap_sort] sorts the first [un] entries of [uv] in place. *)
Lemma heap_sort_spec un uv :
  un ≤ length uv →
  StronglySorted le (take un (heap_sort un uv)) ∧
  take un (heap_sort un uv) ≡ₚ take un uv ∧
  drop un (heap_sort un uv) = drop un uv ∧
  length (heap_sort un uv) = length uv.
Proof.
  intros Hun. unfold heap_sort.
  destruct (decide (un ≤ 1)) as [Hsmall|Hbig].
  - replace (un - 1) with 0 by lia. simpl.
    destruct un as [|[|un]]; [| |lia]; simpl; rewrite ?take_0;
      split_and!; try done; try constructor.
    destruct uv; simpl; rewrite ?take_0; repeat constructor.
  - destruct (heap_build_spec (un - 1) 2 uv) as (Hh & Hp & Hl & Hd);
      [lia|lia| |].
    { intros c Hc. lia. }
    replace (2 + (un - 1) - 1) with un in * by lia.
    set (heap := foldl _ _ _) in *.
    destruct (drain_spec un heap) as (Hs & Hp' & Hd' & Hl'); [lia|done|].
    split_and!; try done.
    + rewrite Hp'. by apply perm_take_of_drop.
    + by rewrite Hd'.
    + by rewrite Hl'.
Qed.

Lemma heap_sort_small un uv : un ≤ 1 → heap_sort un uv = uv.
Proof.
  intros Hun. unfold heap_sort. replace (un - 1) with 0 by lia.
  by destruct un as [|[|un]]; [| |lia].
Qed.

(** ** [sp_mv]: the scan as one pass over the admitted terms *)

Lemma sp_mv_entry_touch mask xj st e :
  sp_mv_entry mask xj st e =
    if decide (admitted mask e.1) then touch st (e.1, (e.2 * xj)%float)
    else st.
Proof.
  destruct e as [i a]. unfold sp_mv_entry, admitted, touch. simpl.
  destruct (Z.leb_spec 0 (mask !!! i)); destruct (decide _); try lia; done.
Qed.

Lemma sp_mv_column_touch mask xj col : ∀ st,
  foldl (sp_mv_entry mask xj) st col =
    foldl touch st
      (filter (λ c, admitted mask c.1)
         ((λ c, (c.1, (c.2 * xj)%float)) <$> col)).
Proof.
  induction col as [|e col IH]; intros st; [done|].
  simpl. rewrite IH, sp_mv_entry_touch, filter_cons. simpl.
  by destruct (decide (admitted mask e.1)).
Qed.

Lemma sp_mv_scan_touch A mask x : ∀ st,
  foldl (sp_mv_col A mask) st x =
    foldl touch st (filter (λ c, admitted mask c.1) (all_terms A x)).
Proof.
  unfold all_terms.
  induction x as [|[j xj] x IH]; intros st; [done|].
  simpl. rewrite filter_app, foldl_app, IH.
  destruct (abs xj =? 0)%float; [done|].
  by rewrite sp_mv_column_touch.
Qed.

Lemma fsum_snoc l c : fsum (l ++ [c]) = (fsum l + c)%float.
Proof. unfold fsum. by rewrite foldl_app. Qed.

Lemma row_terms_snoc cs e i :
  row_terms (cs ++ [e]) i =
    row_terms cs i ++ (if decide (e.1 = i) then [e.2] else []).
Proof.
  unfold row_terms. rewrite filter_app, fmap_app. f_equal.
  rewrite filter_cons, filter_nil. by destruct (decide (e.1 = i)).
Qed.

Lemma row_terms_notin cs i : i ∉ cs.*1 → row_terms cs i = [].
Proof.
  unfold row_terms. induction cs as [|e cs IH]; intros Hi; [done|].
  rewrite filter_cons.
  rewrite fmap_cons, not_elem_of_cons in Hi. destruct Hi as [Hne Hi].
  destruct (decide (e.1 = i)); [congruence|]. by apply IH.
Qed.

Lemma hget_app_l heap l p :
  1 ≤ p ≤ length heap → hget (heap ++ l) p = hget heap p.
Proof. intros Hp. unfold hget. apply lookup_total_app_l. lia. Qed.

Lemma hget_snoc heap i : hget (heap ++ [i]) (S (length heap)) = i.
Proof.
  unfold hget. replace (S (length heap) - 1) with (length heap) by lia.
  by rewrite list_lookup_total_middle.
Qed.

(** Lines 56-62: a row that is not in the heap yet enters it. *)
Lemma heap_insert_spec heap i :
  is_heap heap (length heap) →
  let heap' := sift_up (heap ++ [i]) i (S (length heap)) in
  is_heap heap' (S (length heap)) ∧ heap' ≡ₚ heap ++ [i] ∧
  length heap' = S (length heap).
Proof.
  intros Hheap heap'. subst heap'.
  destruct (sift_up_spec (S (length heap)) (S (length heap)) (heap ++ [i]) i)
    as (Hh & Hp & Hl & _).
  - lia.
  - rewrite length_app. simpl. lia.
  - intros c Hc Hne. pose proof (shiftr1_bounds c).
    rewrite !hget_app_l by lia. apply Hheap. lia.
  - intros c Hc Hpar. pose proof (shiftr1_bounds c). lia.
  - intros c Hc Hpar. pose proof (shiftr1_bounds c). lia.
  - rewrite hget_snoc in Hp. apply Permutation_cons_inv in Hp.
    split_and!; [done|done|]. rewrite Hl, length_app. simpl. lia.
Qed.

(** One admitted term keeps the invariant of the scan. *)
Lemma touch_inv nf sv0 cs st e :
  mv_inv nf sv0 cs st → e.1 < nf → mv_inv nf sv0 (cs ++ [e]) (touch st e).
Proof.
  destruct e as [i c]. simpl.
  intros (Hyn & Hheap & Hnd & Hmem & Hfl & Hflag & Hsl & Hsv & Hsv0) Hi.
  assert (∀ i', i' ∈ (cs ++ [(i, c)]).*1 ↔ i' ∈ cs.*1 ∨ i' = i) as Hmem'.
  { intros i'. rewrite fmap_app, elem_of_app. simpl.
    rewrite list_elem_of_singleton. done. }
  unfold touch. simpl.
  pose proof (Hflag i Hi) as Hfi.
  destruct (decide (i ∈ mv_heap st)) as [Hin|Hnotin].
  - rewrite Hfi. unfold mv_inv. simpl.
    split_and!; try done.
    + intros i'. rewrite Hmem', Hmem. split; [auto|].
      intros [?| ->]; [done|]. by apply Hmem.
    + by rewrite length_insert.
    + intros i' Hi'. rewrite row_terms_snoc. simpl.
      destruct (decide (i = i')) as [<-|Hne].
      * rewrite list_lookup_total_insert_eq by lia.
        by rewrite fsum_snoc, Hsv.
      * rewrite list_lookup_total_insert_ne by done.
        rewrite app_nil_r. by apply Hsv.
    + intros i' Hi'. rewrite list_lookup_total_insert_ne; [by apply Hsv0|].
      intros ->. done.
  - rewrite Hfi. unfold mv_inv. simpl.
    rewrite Hyn in *.
    destruct (heap_insert_spec (mv_heap st) i Hheap) as (Hh & Hp & Hl).
    set (heap' := sift_up _ _ _) in *.
    assert (∀ i', i' ∈ heap' ↔ i' ∈ mv_heap st ∨ i' = i) as Hin'.
    { intros i'. rewrite Hp, elem_of_app, list_elem_of_singleton. done. }
    split_and!.
    + by rewrite Hl.
    + done.
    + rewrite Hp. apply NoDup_app. split_and!; [done| |apply NoDup_singleton].
      intros x Hx ->%list_elem_of_singleton. done.
    + intros i'. rewrite Hmem', Hin', Hmem. done.
    + by rewrite length_insert.
    + intros i' Hi'. destruct (decide (i = i')) as [<-|Hne].
      * rewrite list_lookup_total_insert_eq by lia.
        destruct (decide (i ∈ heap')) as [|Hn]; [done|].
        exfalso. apply Hn, Hin'. by right.
      * rewrite list_lookup_total_insert_ne by done. rewrite Hflag by done.
        destruct (decide (i' ∈ mv_heap st)) as [H1|H1];
          destruct (decide (i' ∈ heap')) as [H2|H2]; try done.
        -- exfalso. apply H2, Hin'. by left.
        -- apply Hin' in H2 as [?|?]; [done|congruence].
    + by rewrite !length_insert.
    + intros i' Hi'. rewrite row_terms_snoc. simpl.
      destruct (decide (i = i')) as [<-|Hne].
      * rewrite !list_lookup_total_insert_eq by (rewrite ?length_insert; lia).
        rewrite row_terms_notin; [done|]. by rewrite <- Hmem.
      * rewrite !list_lookup_total_insert_ne by done.
        rewrite app_nil_r. apply Hsv.
        apply Hin' in Hi' as [?|?]; [done|congruence].
    + intros i' Hi'.
      assert (i' ≠ i) by (intros ->; apply Hi', Hin'; by right).
      rewrite !list_lookup_total_insert_ne by done.
      apply Hsv0. intros ?. apply Hi', Hin'. by left.
Qed.

Lemma touch_fold_inv nf sv0 cs' : ∀ cs st,
  Forall (λ e, e.1 < nf) cs' → mv_inv nf sv0 cs st →
  mv_inv nf sv0 (cs ++ cs') (foldl touch st cs').
Proof.
  induction cs' as [|e cs' IH]; intros cs st Hall Hinv; simpl.
  - by rewrite app_nil_r.
  - apply Forall_cons in Hall as [He Hall].
    rewrite (cons_middle e cs cs'), app_assoc.
    apply IH; [done|]. by apply touch_inv.
Qed.

Lemma mv_inv_init nf sv flag :
  length sv = nf → flag = replicate nf 0%Z →
  mv_inv nf sv []
    {| mv_yn := 0; mv_heap := []; mv_sv := sv; mv_flag := flag |}.
Proof.
  intros Hsv ->. unfold mv_inv. simpl.
  split_and!; try done.
  - intros c Hc. lia.
  - constructor.
  - by rewrite length_replicate.
  - intros i Hi. rewrite lookup_total_replicate_2 by done.
    destruct (decide (i ∈ [])) as [H%elem_of_nil|]; done.
  - intros i H%elem_of_nil. done.
Qed.

(** ** [sp_mv]: the closing loop and the result *)

Lemma sp_mv_emit_fold sv yi : ∀ y flag,
  foldl (sp_mv_emit sv) (y, flag) yi =
    (y ++ ((λ i, sv !!! i) <$> yi), foldl (λ f i, <[i := 0%Z]> f) flag yi).
Proof.
  induction yi as [|i yi IH]; intros y flag; simpl.
  - by rewrite app_nil_r.
  - unfold sp_mv_emit at 2. simpl. rewrite IH. by rewrite <- app_assoc.
Qed.

Lemma set_all_length (v : Z) yi : ∀ flag : list Z,
  length (foldl (λ f i, <[i := v]> f) flag yi) = length flag.
Proof.
  induction yi as [|i yi IH]; intros flag; simpl; [done|].
  by rewrite IH, length_insert.
Qed.

Lemma set_all_lookup (v : Z) yi : ∀ (flag : list Z) i,
  i < length flag →
  foldl (λ f i, <[i := v]> f) flag yi !!! i =
    if decide (i ∈ yi) then v else flag !!! i.
Proof.
  induction yi as [|j yi IH]; intros flag i Hi; simpl.
  - destruct (decide (i ∈ [])) as [H%elem_of_nil|]; done.
  - rewrite IH by (by rewrite length_insert).
    destruct (decide (i ∈ yi)) as [Hin|Hnotin].
    + destruct (decide (i ∈ j :: yi)) as [|Hn]; [done|].
      exfalso. apply Hn. by right.
    + destruct (decide (i = j)) as [->|Hne].
      * rewrite list_lookup_total_insert_eq by done.
        destruct (decide (j ∈ j :: yi)) as [|Hn]; [done|].
        exfalso. apply Hn. by left.
      * rewrite list_lookup_total_insert_ne by done.
        destruct (decide (i ∈ j :: yi)) as [[?|?]%elem_of_cons|]; done.
Qed.

Lemma all_eq_replicate (v : Z) (l : list Z) n :
  length l = n → (∀ i, i < n → l !!! i = v) → l = replicate n v.
Proof.
  intros Hl Hz. apply list_eq. intros i.
  destruct (decide (i < n)) as [Hi|Hi].
  - rewrite lookup_replicate_2 by done.
    rewrite <- (Hz i Hi). apply list_lookup_lookup_total_lt. lia.
  - rewrite !lookup_ge_None_2; [done| |]; rewrite ?length_replicate; lia.
Qed.

Lemma StronglySorted_le_lt (l : list nat) :
  StronglySorted le l → NoDup l → StronglySorted lt l.
Proof.
  induction 1 as [|x l Hs IH Hx]; intros Hnd; [constructor|].
  apply NoDup_cons in Hnd as [Hx' Hnd].
  constructor; [by apply IH|].
  rewrite Forall_forall in Hx |- *. intros y Hy.
  pose proof (Hx y Hy). assert (x ≠ y) by (intros ->; done). lia.
Qed.

Lemma row_terms_admitted mask cs i :
  admitted mask i →
  row_terms (filter (λ c, admitted mask c.1) cs) i = row_terms cs i.
Proof.
  intros Hi. unfold row_terms. induction cs as [|e cs IH]; [done|].
  rewrite !filter_cons.
  destruct (decide (admitted mask e.1)) as [Ha|Ha].
  - rewrite filter_cons.
    destruct (decide (e.1 = i)); [rewrite !fmap_cons; f_equal|]; exact IH.
  - destruct (decide (e.1 = i)) as [Heq|]; [|done].
    exfalso. apply Ha. by rewrite Heq.
Qed.

Lemma elem_of_admitted_rows mask (cs : list (nat * float)) i :
  i ∈ (filter (λ c, admitted mask c.1) cs).*1 ↔
  admitted mask i ∧ i ∈ cs.*1.
Proof.
  rewrite !list_elem_of_fmap. split.
  - intros (c & -> & [Ha Hc]%list_elem_of_filter). split; [done|]. by exists c.
  - intros (Ha & c & -> & Hc). exists c. split; [done|].
    by apply list_elem_of_filter.
Qed.

(** What a call of [sp_mv] returns and leaves behind, for workspaces of
    length [nf], a clear [flag] and rows of [A] below [nf]. *)
Lemma sp_mv_spec A x sv flag mask nf :
  length sv = nf → flag = replicate nf 0%Z →
  Forall (λ c, c.1 < nf) (all_terms A x) →
  ∃ yi sv',
    sp_mv A x sv flag mask =
      (length yi, yi, row_product A x <$> yi, sv', replicate nf 0%Z) ∧
    StronglySorted lt yi ∧
    (∀ i, i ∈ yi ↔ admitted mask i ∧ i ∈ (all_terms A x).*1) ∧
    length sv' = nf ∧
    (∀ i, ¬ admitted mask i → sv' !!! i = sv !!! i).
Proof.
  intros Hsv Hflag Hrows. unfold sp_mv. rewrite sp_mv_scan_touch.
  set (cs := filter (λ c, admitted mask c.1) (all_terms A x)).
  assert (Forall (λ c, c.1 < nf) cs) as Hcs.
  { apply Forall_forall. intros c [_ Hc]%list_elem_of_filter.
    rewrite Forall_forall in Hrows. by apply Hrows. }
  pose proof (touch_fold_inv nf sv cs [] _ Hcs (mv_inv_init nf sv flag Hsv Hflag))
    as Hinv.
  simpl in Hinv. set (st := foldl touch _ cs) in *.
  destruct Hinv as (Hyn & Hheap & Hnd & Hmem & Hfl & Hfv & Hsl & Hsum & Hsv0).
  destruct (drain_spec (mv_yn st) (mv_heap st)) as (Hs & Hp & _ & Hl);
    [lia|done|].
  set (yi := drain (mv_heap st) (mv_yn st)) in *.
  rewrite (take_ge yi) in Hp, Hs by lia.
  rewrite (take_ge (mv_heap st)) in Hp by lia.
  rewrite sp_mv_emit_fold. simpl.
  assert (∀ i, i ∈ yi ↔ admitted mask i ∧ i ∈ (all_terms A x).*1) as Hyi.
  { intros i. rewrite Hp, Hmem. apply elem_of_admitted_rows. }
  assert (∀ i, i ∈ yi → i < nf) as Hlt.
  { intros i Hi. apply Hyi in Hi as [_ Hi].
    apply list_elem_of_fmap in Hi as (c & -> & Hc).
    rewrite Forall_forall in Hrows. by apply Hrows. }
  assert ((λ i, mv_sv st !!! i) <$> yi = row_product A x <$> yi) as ->.
  { apply list_fmap_ext. intros k i Hk.
    assert (i ∈ yi) as Hi by (by eapply list_elem_of_lookup_2).
    rewrite Hsum by (by rewrite <- Hp). unfold row_product.
    f_equal. apply row_terms_admitted. by apply Hyi. }
  assert (foldl (λ f i, <[i := 0%Z]> f) (mv_flag st) yi = replicate nf 0%Z)
    as ->.
  { apply all_eq_replicate.
    - by rewrite set_all_length.
    - intros i Hi. rewrite set_all_lookup by lia.
      destruct (decide (i ∈ yi)) as [|Hn]; [done|].
      rewrite Hfv by done.
      destruct (decide (i ∈ mv_heap st)) as [Hin|]; [|done].
      exfalso. apply Hn. by rewrite Hp. }
  exists yi, (mv_sv st). split_and!.
  - by rewrite Hyn, <- Hl.
  - apply StronglySorted_le_lt; [done|]. by rewrite Hp.
  - done.
  - done.
  - intros i Hi. apply Hsv0. rewrite Hmem. intros Hin.
    apply elem_of_admitted_rows in Hin as [? _]. done.
Qed.

(** ** [resid_update] *)

Lemma sp_get_above v i i0 :
  Forall (λ e : nat * float, i0 < e.1) v → i ≤ i0 → sp_get v i = None.
Proof.
  induction 1 as [|e v He Hv IH]; intros Hi; simpl; [done|].
  destruct (decide (e.1 = i)); [lia|]. by apply IH.
Qed.

Lemma sp_get_elem v i : i ∈ v.*1 ↔ is_Some (sp_get v i).
Proof.
  induction v as [|e v IH]; simpl.
  - rewrite elem_of_nil. split; [done|]. by intros [? ?].
  - rewrite elem_of_cons. destruct (decide (e.1 = i)) as [->|Hne].
    + split; [by eexists|by left].
    + rewrite <- IH. split; [intros [?|?]; [congruence|done]|by right].
Qed.

Lemma sorted_cons_above (e : nat * float) v :
  StronglySorted lt (e :: v).*1 →
  StronglySorted lt v.*1 ∧ Forall (λ e' : nat * float, e.1 < e'.1) v.
Proof.
  rewrite fmap_cons. intros [Hs Hall]%StronglySorted_inv.
  split; [done|]. by rewrite Forall_fmap in Hall.
Qed.

Lemma resid_value_is_Some alpha ox oy :
  is_Some (resid_value alpha ox oy) → is_Some ox ∨ is_Some oy.
Proof. destruct ox, oy; simpl; intros [? ?]; eauto. Qed.

Lemma resid_post_nil mask alpha st : resid_post mask alpha st [] [] st.
Proof.
  exists []. simpl. rewrite app_nil_r, Nat.add_0_r.
  split_and!; try done; [constructor|].
  intros i. by destruct (decide (admitted mask i)).
Qed.

(** One branch of the merge, at the index [i0] below all that is left of
    [x] and [y]. *)
Lemma resid_post_step mask alpha st st1 x x' y y' i0 ox oy v final :
  (∀ i, sp_get x i = if decide (i = i0) then ox else sp_get x' i) →
  (∀ i, sp_get y i = if decide (i = i0) then oy else sp_get y' i) →
  Forall (λ e : nat * float, i0 < e.1) x' →
  Forall (λ e : nat * float, i0 < e.1) y' →
  resid_value alpha ox oy = Some v →
  rs_r st1 =
    (if decide (admitted mask i0) then rs_r st ++ [(i0, v)] else rs_r st) →
  rs_rnz st1 =
    (if decide (admitted mask i0) then S (rs_rnz st) else rs_rnz st) →
  rs_beta st1 !!! i0 = resid_beta (rs_beta st !!! i0) ox oy →
  (∀ i, i ≠ i0 → rs_beta st1 !!! i = rs_beta st !!! i) →
  length (rs_beta st1) = length (rs_beta st) →
  resid_post mask alpha st1 x' y' final →
  resid_post mask alpha st x y final.
Proof.
  intros Hx Hy Hx' Hy' Hv Hr Hn Hb0 Hb Hlen
    (out & Hout & Hcnt & Hsorted & Hget & Hbeta & Hl).
  assert (sp_get x' i0 = None) as Hx0 by (by eapply sp_get_above).
  assert (sp_get y' i0 = None) as Hy0 by (by eapply sp_get_above).
  assert (Forall (lt i0) out.*1) as Habove.
  { apply Forall_forall. intros j Hj%sp_get_elem.
    rewrite Hget in Hj. destruct (decide (admitted mask j)); [|by destruct Hj].
    apply resid_value_is_Some in Hj as [Hj|Hj]; apply sp_get_elem in Hj;
      apply list_elem_of_fmap in Hj as (e & -> & He).
    - rewrite Forall_forall in Hx'. by apply Hx'.
    - rewrite Forall_forall in Hy'. by apply Hy'. }
  assert (∀ i, i ≠ i0 →
    (if decide (admitted mask i)
     then resid_value alpha (sp_get x' i) (sp_get y' i) else None) =
    (if decide (admitted mask i)
     then resid_value alpha (sp_get x i) (sp_get y i) else None)) as Hother.
  { intros i Hi. rewrite Hx, Hy. by destruct (decide (i = i0)). }
  assert (∀ i, rs_beta final !!! i =
    resid_beta (rs_beta st !!! i) (sp_get x i) (sp_get y i)) as Hbeta'.
  { intros i. rewrite Hbeta, Hx, Hy.
    destruct (decide (i = i0)) as [->|Hne].
    - by rewrite Hx0, Hy0, Hb0.
    - by rewrite Hb. }
  destruct (decide (admitted mask i0)) as [Ha|Ha].
  - exists ((i0, v) :: out). split_and!.
    + by rewrite Hout, Hr, <- app_assoc.
    + rewrite Hcnt, Hn. simpl. lia.
    + rewrite fmap_cons. by constructor.
    + intros i. simpl. destruct (decide (i0 = i)) as [<-|Hne].
      * rewrite Hx, Hy. destruct (decide (i0 = i0)); [|done].
        by destruct (decide (admitted mask i0)).
      * rewrite Hget. by apply Hother.
    + done.
    + by rewrite Hl.
  - exists out. split_and!.
    + by rewrite Hout, Hr.
    + by rewrite Hcnt, Hn.
    + done.
    + intros i. rewrite Hget. destruct (decide (i = i0)) as [->|Hne].
      * by destruct (decide (admitted mask i0)).
      * by apply Hother.
    + done.
    + by rewrite Hl.
Qed.

Lemma resid_emit_r mask i v st :
  rs_r (resid_emit mask i v st) =
    (if decide (admitted mask i) then rs_r st ++ [(i, v)] else rs_r st) ∧
  rs_rnz (resid_emit mask i v st) =
    (if decide (admitted mask i) then S (rs_rnz st) else rs_rnz st) ∧
  rs_beta (resid_emit mask i v st) = rs_beta st.
Proof.
  unfold resid_emit, admitted.
  destruct (Z.ltb_spec (mask !!! i) 0); destruct (decide _); try lia; done.
Qed.

Lemma resid_post_x mask alpha st ix xv x' y final :
  Forall (λ e : nat * float, ix < e.1) x' →
  Forall (λ e : nat * float, ix < e.1) y →
  resid_post mask alpha (resid_x mask st (ix, xv)) x' y final →
  resid_post mask alpha st ((ix, xv) :: x') y final.
Proof.
  intros Hx' Hy. unfold resid_x. simpl.
  destruct (resid_emit_r mask ix xv st) as (Hr & Hn & Hb).
  apply (resid_post_step mask alpha st _ _ x' y y ix (Some xv) None xv);
    try done.
  - intros i. simpl. destruct (decide (ix = i)), (decide (i = ix)); congruence.
  - intros i. destruct (decide (i = ix)) as [->|]; [|done].
    by eapply sp_get_above.
  - by rewrite Hb.
  - intros i _. by rewrite Hb.
  - by rewrite Hb.
Qed.

Lemma resid_post_y mask alpha st iy yv x y' final :
  Forall (λ e : nat * float, iy < e.1) x →
  Forall (λ e : nat * float, iy < e.1) y' →
  iy < length (rs_beta st) →
  resid_post mask alpha (resid_y mask alpha st (iy, yv)) x y' final →
  resid_post mask alpha st x ((iy, yv) :: y') final.
Proof.
  intros Hx Hy' Hlt. unfold resid_y.
  destruct (resid_emit_r mask iy (- alpha * yv)%float
              (resid_set_beta iy (yv * yv)%float st)) as (Hr & Hn & Hb).
  apply (resid_post_step mask alpha st _ x x _ y' iy None (Some yv)
           (- alpha * yv)%float); try done.
  - intros i. destruct (decide (i = iy)) as [->|]; [|done].
    by eapply sp_get_above.
  - intros i. simpl. destruct (decide (iy = i)), (decide (i = iy)); congruence.
  - rewrite Hb. simpl. by rewrite list_lookup_total_insert_eq.
  - intros i Hi. rewrite Hb. simpl. by rewrite list_lookup_total_insert_ne.
  - rewrite Hb. simpl. by rewrite length_insert.
Qed.

Lemma resid_post_xy mask alpha st i xv yv x' y' final :
  Forall (λ e : nat * float, i < e.1) x' →
  Forall (λ e : nat * float, i < e.1) y' →
  i < length (rs_beta st) →
  resid_post mask alpha (resid_xy mask alpha st i xv yv) x' y' final →
  resid_post mask alpha st ((i, xv) :: x') ((i, yv) :: y') final.
Proof.
  intros Hx' Hy' Hlt. unfold resid_xy.
  destruct (resid_emit_r mask i (xv - alpha * yv)%float
              (resid_set_beta i (rs_beta st !!! i + yv * yv)%float st))
    as (Hr & Hn & Hb).
  apply (resid_post_step mask alpha st _ _ x' _ y' i (Some xv) (Some yv)
           (xv - alpha * yv)%float); try done.
  - intros j. simpl. destruct (decide (i = j)), (decide (j = i)); congruence.
  - intros j. simpl. destruct (decide (i = j)), (decide (j = i)); congruence.
  - rewrite Hb. simpl. by rewrite list_lookup_total_insert_eq.
  - intros j Hj. rewrite Hb. simpl. by rewrite list_lookup_total_insert_ne.
  - rewrite Hb. simpl. by rewrite length_insert.
Qed.

Lemma resid_y_length mask alpha st e :
  length (rs_beta (resid_y mask alpha st e)) = length (rs_beta st).
Proof.
  destruct e as [iy yv]. unfold resid_y.
  destruct (resid_emit_r mask iy (- alpha * yv)%float
              (resid_set_beta iy (yv * yv)%float st)) as (_ & _ & ->).
  simpl. by rewrite length_insert.
Qed.

Lemma resid_x_beta mask st e : rs_beta (resid_x mask st e) = rs_beta st.
Proof. unfold resid_x. by destruct (resid_emit_r mask e.1 e.2 st) as (_ & _ & ->). Qed.

Lemma resid_xy_length mask alpha st i xv yv :
  length (rs_beta (resid_xy mask alpha st i xv yv)) = length (rs_beta st).
Proof.
  unfold resid_xy.
  destruct (resid_emit_r mask i (xv - alpha * yv)%float
              (resid_set_beta i (rs_beta st !!! i + yv * yv)%float st))
    as (_ & _ & ->).
  simpl. by rewrite length_insert.
Qed.

(** The closing loop over what is left of [x], lines 128-134. *)
Lemma resid_tail_x mask alpha x : ∀ st,
  StronglySorted lt x.*1 →
  resid_post mask alpha st x [] (foldl (resid_x mask) st x).
Proof.
  induction x as [|[ix xv] x IH]; intros st Hs; simpl.
  - apply resid_post_nil.
  - apply sorted_cons_above in Hs as [Hs Habove].
    apply resid_post_x; [done|done|]. by apply IH.
Qed.

(** The closing loop over what is left of [y], lines 135-142. *)
Lemma resid_tail_y mask alpha y : ∀ st,
  StronglySorted lt y.*1 →
  Forall (λ e, e.1 < length (rs_beta st)) y →
  resid_post mask alpha st [] y (foldl (resid_y mask alpha) st y).
Proof.
  induction y as [|[iy yv] y IH]; intros st Hs Hr; simpl.
  - apply resid_post_nil.
  - apply sorted_cons_above in Hs as [Hs Habove].
    apply Forall_cons in Hr as [Hr0 Hr].
    apply resid_post_y; [done|done|done|].
    apply IH; [done|].
    eapply Forall_impl; [exact Hr|].
    intros e He. cbv beta in *.
    by rewrite <- (resid_y_length mask alpha st (iy, yv)) in He.
Qed.

Lemma resid_merge_nil_l mask alpha y st :
  resid_merge mask alpha [] y st = ([], y, st).
Proof. by destruct y. Qed.

Lemma resid_merge_nil_r mask alpha x st :
  resid_merge mask alpha x [] st = (x, [], st).
Proof. by destruct x as [|[? ?] ?]. Qed.

Lemma resid_merge_cons mask alpha ix xv x' iy yv y' st :
  resid_merge mask alpha ((ix, xv) :: x') ((iy, yv) :: y') st =
    if decide (ix < iy) then
      resid_merge mask alpha x' ((iy, yv) :: y') (resid_x mask st (ix, xv))
    else if decide (iy < ix) then
      resid_merge mask alpha ((ix, xv) :: x') y'
        (resid_y mask alpha st (iy, yv))
    else resid_merge mask alpha x' y' (resid_xy mask alpha st iy xv yv).
Proof. reflexivity. Qed.

(** The merge and the two closing loops together. *)
Lemma resid_merge_post mask alpha x : ∀ y st,
  StronglySorted lt x.*1 → StronglySorted lt y.*1 →
  Forall (λ e, e.1 < length (rs_beta st)) y →
  resid_post mask alpha st x y
    (let '(x', y', st') := resid_merge mask alpha x y st in
     foldl (resid_y mask alpha) (foldl (resid_x mask) st' x') y').
Proof.
  induction x as [|[ix xv] x IHx]; intros y st Hsx Hsy Hr.
  - rewrite resid_merge_nil_l. simpl. by apply resid_tail_y.
  - revert st Hr. induction y as [|[iy yv] y IHy]; intros st Hr.
    + rewrite resid_merge_nil_r.
      change (resid_post mask alpha st ((ix, xv) :: x) []
                (foldl (resid_x mask) st ((ix, xv) :: x))).
      by apply resid_tail_x.
    + rewrite resid_merge_cons.
      pose proof (sorted_cons_above _ _ Hsx) as [Hsx' Hax].
      pose proof (sorted_cons_above _ _ Hsy) as [Hsy' Hay].
      apply Forall_cons in Hr as [Hr0 Hr]. simpl in *.
      destruct (decide (ix < iy)) as [Hlt|Hnlt].
      * apply resid_post_x; [done| |].
        { constructor; [done|]. eapply Forall_impl; [exact Hay|].
          simpl. intros. lia. }
        apply IHx; [done|done|].
        rewrite resid_x_beta. by constructor.
      * destruct (decide (iy < ix)) as [Hgt|Hngt].
        -- apply resid_post_y; [|done|done|].
           { constructor; [done|]. eapply Forall_impl; [exact Hax|].
             simpl. intros. lia. }
           apply IHy; [done|].
           eapply Forall_impl; [exact Hr|]. intros e He. cbv beta in *.
           by rewrite <- (resid_y_length mask alpha st (iy, yv)) in He.
        -- assert (ix = iy) as -> by lia.
           apply resid_post_xy; [done|done|done|].
           apply IHx; [done|done|].
           eapply Forall_impl; [exact Hr|]. intros e He. cbv beta in *.
           by rewrite <- (resid_xy_length mask alpha st iy xv yv) in He.
Qed.

(** What [resid_update] returns, for index-ascending [x] and [y] and
    indices of [y] inside [beta]. *)
Lemma resid_update_post beta x alpha y mask :
  StronglySorted lt x.*1 → StronglySorted lt y.*1 →
  Forall (λ e, e.1 < length beta) y →
  resid_post mask alpha {| rs_rnz := 0; rs_r := []; rs_beta := beta |} x y
    (resid_update beta x alpha y mask).
Proof.
  intros Hx Hy Hr. unfold resid_update.
  pose proof (resid_merge_post mask alpha x y
                {| rs_rnz := 0; rs_r := []; rs_beta := beta |} Hx Hy Hr) as H.
  by destruct (resid_merge _ _ _ _ _) as [[x' y'] st'].
Qed.

(** ** Order of IEEE doubles

    [<?] and [<=?] are the comparisons of IEEE 754: every comparison with a
    NaN is false. *)

Ltac cmp_cases :=
  repeat match goal with
  | H : context [Z.compare ?a ?b] |- _ =>
      destruct (Z.compare_spec a b); try subst
  | |- context [Z.compare ?a ?b] =>
      destruct (Z.compare_spec a b); try subst
  | H : context [Pos.compare_cont Eq ?a ?b] |- _ =>
      change (Pos.compare_cont Eq a b) with (Pos.compare a b) in H
  | |- context [Pos.compare_cont Eq ?a ?b] =>
      change (Pos.compare_cont Eq a b) with (Pos.compare a b)
  | H : context [Pos.compare ?a ?b] |- _ =>
      destruct (Pos.compare_spec a b); try subst
  | |- context [Pos.compare ?a ?b] =>
      destruct (Pos.compare_spec a b); try subst
  end.

Lemma SFcompare_lt_trans a b c o :
  SFcompare a b = Some Lt → SFcompare b c = Some o → o ≠ Gt →
  SFcompare a c = Some Lt.
Proof.
  destruct a as [[]|[]| |[] ma ea], b as [[]|[]| |[] mb eb],
           c as [[]|[]| |[] mc ec];
    simpl; intros H1 H2 Ho; try congruence;
    injection H1 as H1; injection H2 as H2; f_equal;
    cmp_cases; simpl in *; subst; try congruence; try lia.
Qed.

Lemma SFcompare_irrefl a : SFcompare a a ≠ Some Lt.
Proof.
  destruct a as [[]|[]| |[] ma ea]; simpl; try congruence;
    intros H; injection H as H; cmp_cases; simpl in *; try congruence; lia.
Qed.

Lemma SFcompare_le_not_gt a b o :
  SFcompare a b = Some o → o ≠ Gt → SFcompare b a ≠ Some Lt.
Proof.
  destruct a as [[]|[]| |[] ma ea], b as [[]|[]| |[] mb eb];
    simpl; intros H1 Ho; try congruence;
    injection H1 as H1; intros H2; injection H2 as H2;
    cmp_cases; simpl in *; subst; try congruence; try lia.
Qed.

Lemma ltb_Lt x y :
  (x <? y)%float = true ↔ SFcompare (Prim2SF x) (Prim2SF y) = Some Lt.
Proof.
  rewrite ltb_spec. unfold SFltb.
  destruct (SFcompare _ _) as [[]|]; split; congruence.
Qed.

Lemma leb_Le x y :
  (x <=? y)%float = true ↔
  ∃ o, SFcompare (Prim2SF x) (Prim2SF y) = Some o ∧ o ≠ Gt.
Proof.
  rewrite leb_spec. unfold SFleb.
  destruct (SFcompare _ _) as [[]|]; split;
    try congruence; try (intros (o & [= <-] & ?); congruence);
    try (intros (o & [=] & ?)); intros _; eexists; split; done.
Qed.

Lemma ltb_irrefl x : (x <? x)%float = false.
Proof.
  apply not_true_is_false. intros H%ltb_Lt.
  exact (SFcompare_irrefl _ H).
Qed.

Lemma ltb_trans x y z :
  (x <? y)%float = true → (y <? z)%float = true → (x <? z)%float = true.
Proof.
  rewrite !ltb_Lt. intros H1 H2. by eapply SFcompare_lt_trans.
Qed.

Lemma ltb_leb_trans x y z :
  (x <? y)%float = true → (y <=? z)%float = true → (x <? z)%float = true.
Proof.
  rewrite !ltb_Lt, leb_Le. intros H1 (o & H2 & Ho).
  by eapply SFcompare_lt_trans.
Qed.

Lemma leb_not_ltb x y : (x <=? y)%float = true → (y <? x)%float = false.
Proof.
  rewrite leb_Le. intros (o & H & Ho).
  apply not_true_is_false. intros H'%ltb_Lt.
  exact (SFcompare_le_not_gt _ _ _ H Ho H').
Qed.

Lemma sub_zero_r x : (x - 0)%float = x.
Proof.
  apply Prim2SF_inj. rewrite sub_spec.
  change (Prim2SF 0) with (S754_zero false).
  by destruct (Prim2SF x) as [[]|[]| |[] ? ?].
Qed.

(** ** The scans for the pivot and the stopping norm *)

Section Scans.
Variable STOP_TEST : nat.

Lemma pick_fold_snoc acc cands c :
  pick_fold STOP_TEST acc (cands ++ [c]) =
    pick STOP_TEST (pick_fold STOP_TEST acc cands) c.1.1 c.1.2 c.2.
Proof. unfold pick_fold. by rewrite foldl_app. Qed.

(** The scan returns a candidate that none exceeds and that no earlier one
    equals or exceeds, and the norm of all the terms. *)
Lemma pick_fold_spec c0 rest :
  let res := pick_fold STOP_TEST c0 rest in
  ∃ p tn,
    (c0 :: rest) !! p = Some (res.1.1, res.1.2, tn) ∧
    (∀ q c, (c0 :: rest) !! q = Some c →
            (abs res.1.2 <? abs c.1.2)%float = false) ∧
    (∀ q c, q < p → (c0 :: rest) !! q = Some c →
            (abs res.1.2 <=? abs c.1.2)%float = false) ∧
    res.2 = foldl (norm_update STOP_TEST) c0.2 rest.*2.
Proof.
  induction rest as [|c rest IH] using rev_ind; intros res; subst res.
  - exists 0, c0.2. destruct c0 as [[s0 w0] n0]. simpl. split_and!; try done.
    + intros [|q] c Hq; [|done]. injection Hq as <-. apply ltb_irrefl.
    + intros q c Hq. lia.
  - destruct IH as (p & tn & Hp & Hmax & Hfirst & Hnorm).
    rewrite pick_fold_snoc, fmap_app, foldl_app, <- Hnorm.
    destruct (pick_fold STOP_TEST c0 rest) as [[s w] norm]. simpl in *.
    assert (∀ q c', (c0 :: rest ++ [c]) !! q = Some c' →
              (c0 :: rest) !! q = Some c' ∨ (q = S (length rest) ∧ c' = c))
      as Hsplit.
    { intros q c' Hq. rewrite app_comm_cons in Hq.
      apply lookup_app_Some in Hq as [?|[Hge Hq]]; [by left|right].
      simpl in *. destruct (q - S (length rest)) eqn:E; [|done].
      injection Hq as <-. split; [lia|done]. }
    destruct (abs w <? abs c.1.2)%float eqn:Hlt.
    + exists (S (length rest)), c.2. split_and!.
      * rewrite app_comm_cons, lookup_app_r by (simpl; lia).
        simpl. rewrite Nat.sub_diag. by destruct c as [[? ?] ?].
      * intros q c' [Hq|[-> ->]]%Hsplit; [|apply ltb_irrefl].
        apply not_true_is_false. intros Hc.
        pose proof (ltb_trans _ _ _ Hlt Hc) as Habs.
        by rewrite (Hmax q c' Hq) in Habs.
      * intros q c' Hqp [Hq|[-> ->]]%Hsplit; [|lia].
        apply not_true_is_false. intros Hc.
        pose proof (ltb_leb_trans _ _ _ Hlt Hc) as Habs.
        by rewrite (Hmax q c' Hq) in Habs.
      * done.
    + exists p, tn. split_and!.
      * rewrite app_comm_cons. apply lookup_app_l_Some. done.
      * intros q c' [Hq|[-> ->]]%Hsplit; [by eapply Hmax|done].
      * intros q c' Hqp [Hq|[-> ->]]%Hsplit; [by eapply Hfirst|].
        apply lookup_lt_Some in Hp. simpl in Hp. lia.
      * done.
Qed.

Lemma init_scan_fold D beta rnz r :
  init_scan STOP_TEST D beta rnz r =
    (foldl (λ b e, <[e.1 := 0%float]> b) (<[(r !!! 0).1 := 0%float]> beta)
       (drop 1 (take rnz r)),
     pick_fold STOP_TEST (cand0 D (r !!! 0))
       (cand0 D <$> drop 1 (take rnz r))).
Proof.
  unfold init_scan, cand0. destruct (r !!! 0) as [s r0]. simpl.
  generalize (<[s:=0%float]> beta)
    (s, (r0 / sqrt (D !!! s))%float, abs (r0 / D !!! s)).
  generalize (drop 1 (take rnz r)) as cs.
  induction cs as [|[i ri] cs IH]; intros b acc; [done|].
  simpl. by rewrite IH.
Qed.

Lemma rescan_fold D beta rnz r s w :
  0 < rnz →
  rescan STOP_TEST D beta rnz r s w =
    pick_fold STOP_TEST (cand D beta (r !!! 0))
      (cand D beta <$> drop 1 (take rnz r)).
Proof.
  intros Hrnz. unfold rescan, cand.
  destruct (decide (0 < rnz)); [|lia].
  destruct (r !!! 0) as [s0 r0]. simpl.
  generalize (s0, (r0 / sqrt (D !!! s0 - beta !!! s0))%float,
              abs (r0 / (D !!! s0 - beta !!! s0))).
  generalize (drop 1 (take rnz r)) as cs.
  induction cs as [|[i ri] cs IH]; intros acc; [done|].
  simpl. by rewrite IH.
Qed.

End Scans.

(** ** Arrays, columns and buffers *)

Lemma length_write_at {T} (vals : list T) : ∀ off buf,
  length (write_at off vals buf) = length buf.
Proof.
  induction vals as [|v vals IH]; intros off buf; simpl; [done|].
  by rewrite IH, length_insert.
Qed.

Lemma write_at_prefix {T} (vals : list T) : ∀ pre buf,
  length vals ≤ length buf →
  write_at (length pre) vals (pre ++ buf) =
    pre ++ vals ++ drop (length vals) buf.
Proof.
  induction vals as [|v vals IH]; intros pre buf Hlen; simpl.
  - by rewrite drop_0.
  - destruct buf as [|b buf]; simpl in *; [lia|].
    rewrite insert_app_r_alt, Nat.sub_diag by lia. simpl.
    rewrite (cons_middle v pre buf), app_assoc.
    replace (S (length pre)) with (length (pre ++ [v]))
      by (rewrite length_app; simpl; lia).
    rewrite IH by lia. by rewrite <- app_assoc.
Qed.

Lemma take_write_at {T} (vals buf : list T) :
  length vals ≤ length buf →
  take (length vals) (write_at 0 vals buf) = vals.
Proof.
  intros Hlen. pose proof (write_at_prefix vals [] buf Hlen) as H.
  simpl in H. rewrite H. by rewrite take_app_length.
Qed.

Lemma bounded_nodup_length (l : list nat) n :
  NoDup l → Forall (λ i, i < n) l → length l ≤ n.
Proof.
  intros Hnd Hall.
  transitivity (length (seq 0 n)); [|by rewrite length_seq].
  apply submseteq_length, NoDup_submseteq; [done|].
  intros x Hx. apply elem_of_seq. rewrite Forall_forall in Hall.
  specialize (Hall x Hx). lia.
Qed.

Lemma StronglySorted_lt_NoDup (l : list nat) : StronglySorted lt l → NoDup l.
Proof.
  induction 1 as [|x l Hs IH Hx]; constructor; [|done].
  intros Hin. rewrite Forall_forall in Hx. specialize (Hx x Hin). lia.
Qed.

Lemma elem_of_col_slice {T} jc (arr : list T) j x :
  x ∈ col_slice jc arr j → x ∈ arr.
Proof.
  unfold col_slice. intros (i & Hi & _)%elem_of_take.
  rewrite lookup_drop in Hi. by eapply list_elem_of_lookup_2.
Qed.

Lemma column_rows M j n :
  Forall (λ i, i < n) (mat_ir M) → Forall (λ e, e.1 < n) (column M j).
Proof.
  intros Hall. apply Forall_forall. intros [i a] Hin. simpl.
  apply elem_of_zip_l, elem_of_col_slice in Hin.
  rewrite Forall_forall in Hall. by apply Hall.
Qed.

Lemma all_terms_rows M x n :
  Forall (λ i, i < n) (mat_ir M) → Forall (λ c, c.1 < n) (all_terms M x).
Proof.
  intros Hall. unfold all_terms. apply Forall_forall. intros c Hc.
  apply list_elem_of_bind in Hc as (e & Hc & _).
  destruct (abs e.2 =? 0)%float; [by apply elem_of_nil in Hc|].
  apply list_elem_of_fmap in Hc as (c' & -> & Hc'). simpl.
  pose proof (column_rows M e.1 n Hall) as Hcol.
  rewrite Forall_forall in Hcol. by apply Hcol.
Qed.

Lemma csc_wf_column M j :
  csc_wf M → j < mat_n M →
  length (column M j) = mat_jc M !!! (j + 1) - mat_jc M !!! j ∧
  StronglySorted lt (column M j).*1 ∧
  Forall (λ e, e.1 < mat_m M) (column M j).
Proof.
  intros (Hlen & Hrows & Hcols) Hj.
  rewrite Forall_seq in Hcols. destruct (Hcols j) as (H1 & H2 & H3); [lia|].
  assert (length (col_slice (mat_jc M) (mat_ir M) j) =
          mat_jc M !!! (j + 1) - mat_jc M !!! j) as Hl1.
  { unfold col_slice. rewrite length_take, length_drop. lia. }
  assert (length (col_slice (mat_jc M) (mat_pr M) j) =
          mat_jc M !!! (j + 1) - mat_jc M !!! j) as Hl2.
  { unfold col_slice. rewrite length_take, length_drop. lia. }
  unfold column. split_and!.
  - rewrite length_zip. lia.
  - rewrite fst_zip by lia. done.
  - by apply column_rows.
Qed.

Lemma head_tail_total {T} `{Inhabited T} (l : list T) :
  0 < length l → l !!! 0 :: drop 1 (take (length l) l) = l.
Proof. destruct l; simpl; [lia|]. intros _. by rewrite take_ge. Qed.

Section ScanIndex.
Variable STOP_TEST : nat.

(** The index a scan returns is an index of the vector scanned. *)
Lemma pick_fold_index (f : nat * float → nat * float * float)
    (r : list (nat * float)) :
  (∀ e, (f e).1.1 = e.1) → 0 < length r →
  (pick_fold STOP_TEST (f (r !!! 0)) (f <$> drop 1 (take (length r) r))).1.1
    ∈ r.*1.
Proof.
  intros Hf Hr.
  destruct (pick_fold_spec STOP_TEST (f (r !!! 0))
              (f <$> drop 1 (take (length r) r))) as (p & tn & Hp & _).
  rewrite <- fmap_cons, head_tail_total in Hp by done.
  apply list_lookup_fmap_Some in Hp as (e & Hfe & He).
  apply list_elem_of_fmap. exists e. split.
  - by rewrite <- (Hf e), <- Hfe.
  - by eapply list_elem_of_lookup_2.
Qed.

Lemma rescan_index D beta r s w :
  0 < length r →
  (rescan STOP_TEST D beta (length r) r s w).1.1 ∈ r.*1.
Proof.
  intros Hr. rewrite rescan_fold by done.
  by apply (pick_fold_index (cand D beta)).
Qed.

Lemma init_scan_index D beta r :
  0 < length r →
  (init_scan STOP_TEST D beta (length r) r).2.1.1 ∈ r.*1.
Proof.
  intros Hr. rewrite init_scan_fold. simpl.
  by apply (pick_fold_index (cand0 D)).
Qed.

Lemma init_scan_beta_length D beta rnz r :
  length (init_scan STOP_TEST D beta rnz r).1 = length beta.
Proof.
  rewrite init_scan_fold. simpl.
  assert (∀ (l : list (nat * float)) (b : list float),
    length (foldl (λ b e, <[e.1 := 0%float]> b) b l) = length b) as Hfold.
  { induction l as [|e l IH]; intros b; simpl; [done|].
    by rewrite IH, length_insert. }
  by rewrite Hfold, length_insert.
Qed.

End ScanIndex.

(** ** The expansion loop *)

Section Column.
Context {ops : triangular_ops}.
Variable STOP_TEST : nat.

Lemma zip_snapshot (r : list (nat * float)) (sp : list float) :
  length r ≤ length sp →
  zip (take (length r) r.*1)
      (take (length r) (write_at 0 (take (length r) r.*2) sp)) = r.
Proof.
  intros Hlen.
  rewrite (take_ge r.*1), (take_ge r.*2) by (rewrite length_fmap; lia).
  replace (length r) with (length r.*2) by apply length_fmap.
  rewrite take_write_at by (rewrite length_fmap; lia).
  apply zip_fst_snd.
Qed.

(** One iteration of the expansion loop, with the calls of [sp_mv] and
    [resid_update] replaced by what they return. *)
Lemma expand_shape A D u j nf tol st :
  Forall (λ i, i < nf) (mat_ir A) →
  col_inv nf tol st →
  ∃ xvec yi nzmax X_sum sp Q max_Q,
    let map_to_Qi := <[st_s st := Z.of_nat (st_k st)]> (st_map_to_Qi st) in
    let rs := resid_update (st_beta st) (st_r st) (st_w st)
                (zip yi (row_product A xvec <$> yi)) map_to_Qi in
    let res := rescan STOP_TEST D (rs_beta rs) (rs_rnz rs) (rs_r rs)
                 (st_s st) (st_w st) in
    expand STOP_TEST A D u j st =
      {| st_ir := st_ir st ++ [st_s st]; st_iri := S (st_iri st);
         st_nzmax := nzmax; st_jc := st_jc st; st_X_sum := X_sum;
         st_beta := rs_beta rs; st_sp := sp; st_flag := replicate nf 0%Z;
         st_map_to_Qi := map_to_Qi; st_Q := Q; st_max_Q := max_Q;
         st_Qi := st_Qi st; st_qk := st_qk st + (st_k st + 1);
         st_k := st_k st + 1; st_s := res.1.1; st_w := res.1.2;
         st_norm := res.2; st_rnz := rs_rnz rs; st_r := rs_r rs |} ∧
    StronglySorted lt yi ∧
    (∀ i, i ∈ yi → admitted map_to_Qi i ∧ i < nf) ∧
    length sp = nf.
Proof.
  intros HA (Hiri & HQi & Hk & Hnd & Hpiv & Hmap & Hin & Hout & Hflag &
             Hbeta & Hsp & Hrnz & Hsorted & Hr & Hs).
  unfold expand. cbv zeta.
  match goal with
  | |- context [sp_mv ?A' ?x ?sv ?fl ?mk] =>
      destruct (sp_mv_spec A' x sv fl mk nf)
        as (yi & sv' & Hmv & Hyi & Hmem & Hsv' & _);
        [by rewrite length_write_at|done|by apply all_terms_rows|];
      rewrite Hmv; exists x, yi
  end.
  assert (length (st_r st) ≤ nf) as Hrlen.
  { rewrite <- (length_fmap fst).
    apply bounded_nodup_length; [by apply StronglySorted_lt_NoDup|].
    apply Forall_fmap. eapply Forall_impl; [exact Hr|]. by intros e [? ?]. }
  rewrite Hrnz, zip_snapshot by lia.
  rewrite (take_ge (zip yi _))
    by (rewrite length_zip, length_fmap; lia).
  destruct (rescan _ _ _ _ _ _ _) as [[s' w'] norm'].
  do 5 eexists. simpl. split_and!.
  - reflexivity.
  - done.
  - intros i Hi. apply Hmem in Hi as [Ha Hi]. split; [done|].
    apply list_elem_of_fmap in Hi as (c & -> & Hc).
    match type of Hc with
    | _ ∈ all_terms _ ?x => pose proof (all_terms_rows A x nf HA) as Hall
    end.
    rewrite Forall_forall in Hall. by apply Hall.
  - by rewrite length_write_at.
Qed.

(** One iteration keeps the invariant of the loop and records [s] as the
    next pivot of the column. *)
Lemma expand_inv A D u j nf tol st :
  Forall (λ i, i < nf) (mat_ir A) →
  (tol <? 0)%float = false →
  col_inv nf tol st → (tol <? st_norm st)%float = true →
  col_inv nf tol (expand STOP_TEST A D u j st) ∧
  st_ir (expand STOP_TEST A D u j st) = st_ir st ++ [st_s st] ∧
  st_Qi (expand STOP_TEST A D u j st) = st_Qi st ∧
  st_jc (expand STOP_TEST A D u j st) = st_jc st ∧
  st_k (expand STOP_TEST A D u j st) = st_k st + 1.
Proof.
  intros HA Htol Hinv Hgo.
  destruct (expand_shape A D u j nf tol st HA Hinv)
    as (xvec & yi & nzmax & X_sum & sp & Q & max_Q & Heq & Hyi & Hyimem & Hsp').
  rewrite Heq. clear Heq.
  destruct Hinv as (Hiri & HQi & Hk & Hnd & Hpiv & Hmap & Hin & Hout & Hflag &
                    Hbeta & Hsp & Hrnz & Hsorted & Hr & Hs).
  set (map' := <[st_s st := Z.of_nat (st_k st)]> (st_map_to_Qi st)) in *.
  set (y := zip yi (row_product A xvec <$> yi)) in *.
  assert (y.*1 = yi) as Hy1
    by (unfold y; apply fst_zip; rewrite length_fmap; lia).
  destruct (resid_update_post (st_beta st) (st_r st) (st_w st) y map')
    as (out & Hrs & Hcnt & Hsorted' & Hget & _ & Hlen').
  { done. }
  { by rewrite Hy1. }
  { apply Forall_forall. intros e He. rewrite Hbeta.
    apply Hyimem. rewrite <- Hy1. apply list_elem_of_fmap. by exists e. }
  set (rs := resid_update _ _ _ _ _) in *. simpl in Hrs, Hcnt, Hlen'.
  pose proof (Hs Hgo) as Hsin.
  assert (st_s st < nf ∧ st_s st ∉ pivots st) as [Hslt Hsfresh].
  { apply list_elem_of_fmap in Hsin as (e & -> & He).
    rewrite Forall_forall in Hr. by apply Hr. }
  set (st' := {| st_ir := st_ir st ++ [st_s st] |}).
  assert (pivots st' = pivots st ++ [st_s st]) as Hpiv'.
  { unfold pivots, st'. simpl. by rewrite drop_app_le. }
  assert (∀ i, i ∈ pivots st' ↔ i ∈ pivots st ∨ i = st_s st) as Hmem'.
  { intros i. rewrite Hpiv', elem_of_app, list_elem_of_singleton. done. }
  assert (∀ i, i ∈ pivots st' → (0 ≤ map' !!! i)%Z) as Hin'.
  { intros i [Hi| ->]%Hmem'.
    - unfold map'. destruct (decide (i = st_s st)) as [->|Hne]; [done|].
      rewrite list_lookup_total_insert_ne by done. by apply Hin.
    - unfold map'. rewrite list_lookup_total_insert_eq by lia. lia. }
  split; [|done].
  unfold col_inv. rewrite Hpiv'. simpl. split_and!.
  - rewrite length_app. simpl. lia.
  - rewrite length_app. lia.
  - rewrite length_app. simpl. lia.
  - apply NoDup_app. split_and!; [done| |apply NoDup_singleton].
    intros x Hx ->%list_elem_of_singleton. done.
  - apply Forall_app. split; [done|]. by constructor.
  - unfold map'. by rewrite length_insert.
  - intros i Hi. apply Hin'. by rewrite Hpiv'.
  - intros i Hi Hlt. rewrite <- Hpiv' in Hi.
    assert (i ≠ st_s st) by (intros ->; apply Hi, Hmem'; by right).
    unfold map'. rewrite list_lookup_total_insert_ne by done.
    apply Hout; [|done]. intros ?. apply Hi, Hmem'. by left.
  - done.
  - by rewrite Hlen'.
  - done.
  - rewrite Hcnt, Hrs. done.
  - by rewrite Hrs.
  - rewrite Hrs. apply Forall_forall. intros e He.
    assert (is_Some (sp_get out e.1)) as Hsome.
    { apply sp_get_elem, list_elem_of_fmap. by exists e. }
    rewrite Hget in Hsome.
    destruct (decide (admitted map' e.1)) as [Ha|]; [|by destruct Hsome].
    split.
    + apply resid_value_is_Some in Hsome as [Hx|Hx]; apply sp_get_elem in Hx.
      * apply list_elem_of_fmap in Hx as (e' & -> & He').
        rewrite Forall_forall in Hr. by apply Hr.
      * apply Hyimem. by rewrite <- Hy1.
    + rewrite <- Hpiv'. intros Hp%Hin'. unfold admitted in Ha. lia.
  - intros Hgo'.
    assert (rs_rnz rs = length (rs_r rs)) as Hlen by (by rewrite Hcnt, Hrs).
    destruct (decide (0 < rs_rnz rs)) as [Hpos|Hzero].
    + rewrite Hlen. apply rescan_index. lia.
    + unfold rescan in Hgo'.
      destruct (decide (0 < rs_rnz rs)); [done|].
      simpl in Hgo'. congruence.
Qed.

(** The expansion loop terminates within [nf - k + 1] tests: every
    iteration records a fresh row below [nf] as pivot.  It keeps the
    invariant, extends [X_skel->ir], and stops with [norm ≤ tol]. *)
Lemma expand_loop_spec A D u j nf tol : ∀ fuel st,
  Forall (λ i, i < nf) (mat_ir A) →
  (tol <? 0)%float = false →
  col_inv nf tol st → nf - st_k st < fuel →
  ∃ st' more,
    expand_loop STOP_TEST fuel A D u tol j st = Some st' ∧
    col_inv nf tol st' ∧
    (tol <? st_norm st')%float = false ∧
    st_Qi st' = st_Qi st ∧ st_jc st' = st_jc st ∧
    st_ir st' = st_ir st ++ more ∧
    ((tol <? st_norm st)%float = true → ∃ more', more = st_s st :: more') ∧
    ((tol <? st_norm st)%float = false → st' = st).
Proof.
  induction fuel as [|fuel IH]; intros st HA Htol Hinv Hfuel; [lia|].
  simpl. destruct (tol <? st_norm st)%float eqn:Hgo.
  - destruct (expand_inv A D u j nf tol st HA Htol Hinv Hgo)
      as (Hinv' & Hir & HQi & Hjc & Hk).
    set (st1 := expand STOP_TEST A D u j st) in *.
    assert (st_k st1 ≤ nf) as Hbound.
    { destruct Hinv' as (_ & _ & Hlen & Hnd & Hpiv & _).
      rewrite <- Hlen. by apply bounded_nodup_length. }
    destruct (IH st1 HA Htol Hinv' ltac:(lia))
      as (st' & more & Hrun & Hinv'' & Hstop & HQi' & Hjc' & Hir' & _).
    exists st', (st_s st :: more). split_and!; try done.
    + by rewrite HQi'.
    + by rewrite Hjc'.
    + by rewrite Hir', Hir, <- app_assoc.
    + intros _. by eexists.
  - exists st, []. split_and!; try done. by rewrite app_nil_r.
Qed.

Lemma foldl_pointwise {T U} (f g : T → U → T) (l : list U) : ∀ acc,
  (∀ a b, f a b = g a b) → foldl f acc l = foldl g acc l.
Proof.
  induction l as [|x l IH]; intros acc Hfg; simpl; [done|].
  by rewrite Hfg, IH.
Qed.

Lemma foldl_offset_lookup {T} (g : T → nat → T) (l : list nat) :
  ∀ (pre : list nat) (acc : T),
  foldl (λ acc m, g acc ((pre ++ l) !!! (length pre + m))) acc
        (seq 0 (length l)) = foldl g acc l.
Proof.
  induction l as [|x l IH]; intros pre acc; [done|].
  simpl. rewrite <- fmap_S_seq, foldl_fmap.
  rewrite Nat.add_0_r, list_lookup_total_middle by done.
  rewrite <- (IH (pre ++ [x]) (g acc x)).
  apply foldl_pointwise. intros acc' m.
  rewrite <- app_assoc, length_app. simpl.
  by replace (length pre + 1 + m) with (length pre + S m) by lia.
Qed.

Lemma init_scan_pick D beta rnz r :
  (init_scan STOP_TEST D beta rnz r).2 = (init_scan STOP_TEST D [] rnz r).2.
Proof. by rewrite !init_scan_fold. Qed.

(** Lines 245-278: the state in which a non-empty column enters its
    loop. *)
Lemma load_column_inv B D j nf tol st :
  skel_inv nf st → csc_wf B → mat_m B = nf → j < mat_n B →
  ¬ st_rnz (begin_column B j st) < 1 →
  let ld := load_column STOP_TEST B D j (begin_column B j st) in
  col_inv nf tol ld ∧
  st_ir ld = st_ir st ∧
  st_Qi ld = length (st_ir st) ∧
  st_jc ld = st_jc st ++ [length (st_ir st)] ∧
  st_X_sum ld = st_X_sum st ∧
  (st_s ld, st_w ld, st_norm ld) = first_pick STOP_TEST D B j.
Proof.
  intros (Hiri & Hflag & Hmap & Hbeta & Hsp) Hwf Hm Hj Hrnz ld.
  destruct (csc_wf_column B j Hwf Hj) as (Hlen & Hsorted & Hrows).
  subst ld. unfold load_column, first_pick.
  pose proof (init_scan_pick D (st_beta (begin_column B j st))
                (st_rnz (begin_column B j st)) (column B j)) as Hpick.
  pose proof (init_scan_beta_length STOP_TEST D (st_beta (begin_column B j st))
                (st_rnz (begin_column B j st)) (column B j)) as Hbl.
  pose proof (init_scan_index STOP_TEST D (st_beta (begin_column B j st))
                (column B j)) as Hidx.
  simpl in *. rewrite Hlen in Hidx.
  destruct (init_scan _ _ _ _ _) as [beta [[s w] norm]].
  simpl in *. rewrite <- Hpick.
  split; [|by rewrite Hiri].
  unfold col_inv, pivots. simpl. rewrite Hiri, drop_all.
  split_and!; try done.
  - constructor.
  - by rewrite Hmap, length_replicate.
  - intros i Hi%elem_of_nil. done.
  - intros i _ Hi. by rewrite Hmap, lookup_total_replicate_2.
  - by rewrite Hbl.
  - apply Forall_forall. intros e He. split.
    + rewrite Forall_forall in Hrows. rewrite <- Hm. by apply Hrows.
    + by intros ?%elem_of_nil.
  - intros _. apply Hidx. lia.
Qed.

(** Lines 361-365: the pivots of the column leave sorted, and the inverse
    map leaves clear. *)
Lemma finish_column_spec nf tol st :
  col_inv nf tol st →
  ∃ col,
    st_ir (finish_column st) = take (st_Qi st) (st_ir st) ++ col ∧
    col ≡ₚ pivots st ∧
    StronglySorted lt col ∧
    skel_inv nf (finish_column st) ∧
    st_jc (finish_column st) = st_jc st ∧
    st_X_sum (finish_column st) = st_X_sum st.
Proof.
  intros (Hiri & HQi & Hk & Hnd & Hpiv & Hmap & Hin & Hout & Hflag &
          Hbeta & Hsp & _).
  destruct (heap_sort_spec (st_k st) (pivots st)) as (Hs & Hp & _ & Hl);
    [lia|].
  set (col := heap_sort (st_k st) (pivots st)) in *.
  rewrite (take_ge col), (take_ge (pivots st)) in * by lia.
  exists col. unfold finish_column. fold (pivots st). fold col. simpl.
  assert (length (take (st_Qi st) (st_ir st)) = st_Qi st) as Hpre
    by (rewrite length_take; lia).
  assert (length (st_ir st) = st_Qi st + st_k st) as Hlen.
  { rewrite <- Hk. unfold pivots. rewrite length_drop. lia. }
  split_and!; try done.
  - by apply StronglySorted_le_lt; [|rewrite Hp].
  - unfold skel_inv. simpl. split_and!; try done.
    + rewrite length_app, Hpre, Hl, Hk. lia.
    + set (pre := take (st_Qi st) (st_ir st)) in *.
      rewrite (foldl_pointwise _
        (λ mp m, <[(pre ++ col) !!! (length pre + m) := (-1)%Z]> mp))
        by (intros; unfold Qi_at; by rewrite Hpre).
      replace (st_k st) with (length col) by lia.
      rewrite (foldl_offset_lookup (λ mp i, <[i := (-1)%Z]> mp) col pre).
      apply all_eq_replicate; [by rewrite set_all_length|].
      intros i Hi. rewrite set_all_lookup by lia.
      destruct (decide (i ∈ col)) as [|Hn]; [done|].
      apply Hout; [|done]. by rewrite <- Hp.
Qed.

(** A column of the driver's loop: it terminates, appends a strictly
    ascending skeleton to [X_skel], and hands clean workspaces on. *)
Lemma solve_column_spec A B D u nf tol fuel st j :
  skel_inv nf st → csc_wf B → mat_m B = nf →
  Forall (λ i, i < nf) (mat_ir A) →
  (tol <? 0)%float = false → j < mat_n B → nf < fuel →
  ∃ st' col,
    solve_column STOP_TEST fuel A B D u tol st j = Some st' ∧
    skel_inv nf st' ∧
    st_ir st' = st_ir st ++ col ∧
    st_jc st' = st_jc st ++ [length (st_ir st)] ∧
    StronglySorted lt col ∧
    col_fact STOP_TEST D B tol j col ∧
    (col = [] → st_X_sum st' = st_X_sum st).
Proof.
  intros Hinv Hwf Hm HA Htol Hj Hfuel. unfold solve_column, col_fact.
  change (mat_jc B !!! (j + 1) - mat_jc B !!! j)
    with (st_rnz (begin_column B j st)).
  destruct (decide (st_rnz (begin_column B j st) < 1)) as [Hempty|Hne].
  - destruct Hinv as (Hiri & Hflag & Hmap & Hbeta & Hsp).
    exists (begin_column B j st), []. simpl.
    split_and!; try done; [by rewrite app_nil_r|by rewrite Hiri|constructor].
  - destruct (load_column_inv B D j nf tol st Hinv Hwf Hm Hj Hne)
      as (Hcol & Hir & HQi & Hjc & HX & Hpick).
    set (ld := load_column STOP_TEST B D j (begin_column B j st)) in *.
    destruct (expand_loop_spec A D u j nf tol fuel ld HA Htol Hcol ltac:(lia))
      as (st1 & more & Hrun & Hinv1 & Hstop & HQi1 & Hjc1 & Hir1 & Hgo & Hno).
    rewrite Hrun. cbn [mbind option_bind].
    destruct (finish_column_spec nf tol st1 Hinv1)
      as (col & Hfin & Hperm & Hsorted & Hskel & Hjc2 & HX2).
    assert (pivots st1 = more) as Hpiv.
    { unfold pivots. rewrite HQi1, HQi, Hir1, Hir. apply drop_app_length. }
    rewrite Hpiv in Hperm.
    exists (finish_column st1), col. rewrite <- Hpick.
    cbn [fst snd]. split_and!; try done.
    + rewrite Hfin, HQi1, HQi, Hir1, Hir. by rewrite take_app_length.
    + by rewrite Hjc2, Hjc1, Hjc.
    + destruct (tol <? st_norm ld)%float eqn:Hld.
      * destruct (Hgo eq_refl) as (more' & ->). rewrite Hperm. by left.
      * rewrite (Hno eq_refl) in Hir1.
        rewrite <- (app_nil_r (st_ir ld)) in Hir1 at 1.
        apply app_inv_head in Hir1. subst more.
        by apply Permutation_nil_r in Hperm.
    + intros ->. apply Permutation_nil_l in Hperm. subst more.
      destruct (tol <? st_norm ld)%float eqn:Hld.
      * by destruct (Hgo eq_refl) as (more' & ?).
      * rewrite HX2, (Hno eq_refl). done.
Qed.

Lemma solve_columns_spec A B D u nf tol fuel : ∀ js st,
  skel_inv nf st → csc_wf B → mat_m B = nf →
  Forall (λ i, i < nf) (mat_ir A) →
  (tol <? 0)%float = false → Forall (λ j, j < mat_n B) js → nf < fuel →
  ∃ st' cols,
    solve_columns STOP_TEST fuel A B D u tol st js = Some st' ∧
    skel_inv nf st' ∧
    st_ir st' = st_ir st ++ concat cols ∧
    st_jc st' = st_jc st ++ starts (length (st_ir st)) cols ∧
    Forall (StronglySorted lt) cols ∧
    Forall2 (col_fact STOP_TEST D B tol) js cols.
Proof.
  induction js as [|j js IH]; intros st Hinv Hwf Hm HA Htol Hjs Hfuel.
  - exists st, []. simpl. rewrite !app_nil_r. split_and!; try done.
  - apply Forall_cons in Hjs as [Hj Hjs].
    destruct (solve_column_spec A B D u nf tol fuel st j
                Hinv Hwf Hm HA Htol Hj Hfuel)
      as (st1 & col & Hrun & Hinv1 & Hir & Hjc & Hsorted & Hfact & _).
    destruct (IH st1 Hinv1 Hwf Hm HA Htol Hjs Hfuel)
      as (st' & cols & Hrun' & Hinv' & Hir' & Hjc' & Hsorted' & Hfacts).
    exists st', (col :: cols).
    cbn [solve_columns]. rewrite Hrun. cbn [mbind option_bind].
    split_and!; try done.
    + rewrite Hir', Hir. simpl. by rewrite <- app_assoc.
    + rewrite Hjc', Hjc, Hir, length_app. simpl. by rewrite <- app_assoc.
    + by constructor.
    + by constructor.
Qed.

Lemma skel_inv_init B X_sum : skel_inv (mat_m B) (init_state B X_sum).
Proof.
  unfold skel_inv, init_state. simpl.
  by rewrite !length_replicate.
Qed.

(** The column pointers [starts] delimit the columns they were laid out
    from. *)
Lemma col_slice_starts : ∀ cols off (pre : list nat) j,
  length pre = off → j < length cols →
  col_slice (starts off cols ++ [off + length (concat cols)])
            (pre ++ concat cols) j = cols !!! j.
Proof.
  induction cols as [|c cols IH]; intros off pre j Hpre Hj; simpl in *;
    [lia|].
  destruct j as [|j].
  - unfold col_slice. simpl.
    assert ((starts (off + length c) cols ++
               [off + length (c ++ concat cols)]) !!! 0 = off + length c)
      as ->.
    { destruct cols as [|c' cols]; simpl; [|done].
      by rewrite app_nil_r. }
    replace (off + length c - off) with (length c) by lia.
    rewrite <- Hpre, drop_app_length. by rewrite take_app_length.
  - unfold col_slice in *. simpl.
    rewrite length_app, Nat.add_assoc, app_assoc.
    rewrite <- (IH (off + length c) (pre ++ c) j);
      [done|rewrite length_app; lia|lia].
Qed.

Lemma starts_next : ∀ cols off j,
  j < length cols →
  (starts off cols ++ [off + length (concat cols)]) !!! (j + 1) =
    (starts off cols ++ [off + length (concat cols)]) !!! j
    + length (cols !!! j).
Proof.
  induction cols as [|c cols IH]; intros off j Hj; simpl in *; [lia|].
  rewrite length_app, Nat.add_assoc.
  destruct j as [|j]; simpl.
  - destruct cols as [|c' cols]; simpl; [|done]. lia.
  - apply IH. lia.
Qed.

(** The driver's loop over all columns: it terminates and leaves in
    [X_skel] one strictly ascending skeleton per column of [B]. *)
Lemma interp_skel_run_spec fuel X_sum A B D u tol :
  csc_wf B → Forall (λ i, i < mat_m B) (mat_ir A) →
  (adjust_tol STOP_TEST tol <? 0)%float = false → mat_m B < fuel →
  ∃ st cols,
    interp_skel_run STOP_TEST fuel X_sum A B D u tol = Some st ∧
    skel_inv (mat_m B) st ∧
    st_ir st = concat cols ∧
    st_jc st = starts 0 cols ∧
    length cols = mat_n B ∧
    Forall (StronglySorted lt) cols ∧
    Forall2 (col_fact STOP_TEST D B (adjust_tol STOP_TEST tol))
      (seq 0 (mat_n B)) cols.
Proof.
  intros Hwf HA Htol Hfuel. unfold interp_skel_run.
  destruct (solve_columns_spec A B D u (mat_m B) (adjust_tol STOP_TEST tol)
              fuel (seq 0 (mat_n B)) (init_state B X_sum))
    as (st & cols & Hrun & Hinv & Hir & Hjc & Hsorted & Hfacts); try done.
  { apply skel_inv_init. }
  { apply Forall_seq. intros j Hj. lia. }
  exists st, cols. split_and!; try done.
  apply Forall2_length in Hfacts. by rewrite length_seq in Hfacts.
Qed.

(** [interp_skel] returns, and its [X_skel] is made of the columns
    [cols]. *)
Lemma interp_skel_spec fuel X_sum A B D u tol :
  csc_wf B → Forall (λ i, i < mat_m B) (mat_ir A) →
  (adjust_tol STOP_TEST tol <? 0)%float = false → mat_m B < fuel →
  ∃ X Xs cols,
    interp_skel STOP_TEST fuel X_sum A B D u tol = Some (X, Xs) ∧
    log_ir X = concat cols ∧
    log_jc X = starts 0 cols ++ [0 + length (concat cols)] ∧
    length cols = mat_n B ∧
    Forall (StronglySorted lt) cols ∧
    Forall2 (col_fact STOP_TEST D B (adjust_tol STOP_TEST tol))
      (seq 0 (mat_n B)) cols.
Proof.
  intros Hwf HA Htol Hfuel.
  destruct (interp_skel_run_spec fuel X_sum A B D u tol Hwf HA Htol Hfuel)
    as (st & cols & Hrun & Hinv & Hir & Hjc & Hlen & Hsorted & Hfacts).
  unfold interp_skel. rewrite Hrun. cbn [mbind option_bind].
  destruct Hinv as (Hiri & _).
  eexists _, _, cols. split; [reflexivity|]. simpl.
  split_and!; try done. by rewrite Hjc, Hiri, Hir.
Qed.

End Column.

(** ** The emitted skeleton, column by column *)

Section Skeleton.
Context {ops : triangular_ops}.
Variable STOP_TEST : nat.

(** [interp_skel] returns for well-formed inputs and a tolerance that is
    not negative; column [j] of the [X_skel] returned is strictly
    ascending, is what the initial scan of column [j] of [B] calls for, and
    lies between [col_ptr[j]] and [col_ptr[j+1]]. *)
Lemma interp_skel_columns fuel X_sum A B D u tol :
  csc_wf A → csc_wf B → mat_m A = mat_m B →
  (adjust_tol STOP_TEST tol <? 0)%float = false → mat_m B < fuel →
  ∃ X Xs,
    interp_skel STOP_TEST fuel X_sum A B D u tol = Some (X, Xs) ∧
    ∀ j, j < mat_n B →
      StronglySorted lt (col_slice (log_jc X) (log_ir X) j) ∧
      col_fact STOP_TEST D B (adjust_tol STOP_TEST tol) j
        (col_slice (log_jc X) (log_ir X) j) ∧
      log_jc X !!! (j + 1) =
        log_jc X !!! j + length (col_slice (log_jc X) (log_ir X) j).
Proof.
  intros (_ & HA & _) Hwf Hm Htol Hfuel. rewrite Hm in HA.
  destruct (interp_skel_spec STOP_TEST fuel X_sum A B D u tol
              Hwf HA Htol Hfuel)
    as (X & Xs & cols & Hrun & Hir & Hjc & Hlen & Hsorted & Hfacts).
  exists X, Xs. split; [done|]. intros j Hj.
  assert (col_slice (log_jc X) (log_ir X) j = cols !!! j) as ->.
  { rewrite Hir, Hjc. apply (col_slice_starts cols 0 []); [done|lia]. }
  split_and!.
  - apply Forall_lookup_total_1; [done|lia].
  - assert (seq 0 (mat_n B) !! j = Some j) as Hsj
      by (by apply lookup_seq_lt).
    destruct (Forall2_lookup_l _ _ _ _ _ Hfacts Hsj) as (col & Hcol & Hfact).
    by rewrite (list_lookup_total_correct _ _ _ Hcol).
  - rewrite Hjc. apply starts_next. lia.
Qed.

End Skeleton.

(** * The claims of the specification *)

(** C8. [heap_sort] rearranges the first [un] entries of its array into a
    permutation of them sorted in ascending order, leaves the rest of the
    array alone, and leaves the whole array unchanged when [un ≤ 1].
    Together with the distinctness of the pivots of a column, every column
    of the [X_skel] that [interp_skel] returns has strictly ascending row
    indices. *)
Theorem heap_sort_sorts_skeleton `{ops : triangular_ops} (STOP_TEST : nat)
    (un : nat) (uv : list nat) (fuel : nat) (X_sum : list float)
    (A B : sp_mat_c) (D u : list float) (tol : float) :
  un ≤ length uv →
  csc_wf A → csc_wf B → mat_m A = mat_m B →
  (adjust_tol STOP_TEST tol <? 0)%float = false → mat_m B < fuel →
  (StronglySorted le (take un (heap_sort un uv)) ∧
   take un (heap_sort un uv) ≡ₚ take un uv ∧
   drop un (heap_sort un uv) = drop un uv ∧
   (un ≤ 1 → heap_sort un uv = uv)) ∧
  (∃ X Xs,
     interp_skel STOP_TEST fuel X_sum A B D u tol = Some (X, Xs) ∧
     ∀ j, j < mat_n B →
       StronglySorted lt (col_slice (log_jc X) (log_ir X) j)).
Proof.
  intros Hun HA HB Hm Htol Hfuel. split.
  - destruct (heap_sort_spec un uv Hun) as (Hs & Hp & Hd & _).
    split_and!; try done. apply heap_sort_small.
  - destruct (interp_skel_columns STOP_TEST fuel X_sum A B D u tol
                HA HB Hm Htol Hfuel) as (X & Xs & Hrun & Hcols).
    exists X, Xs. split; [done|]. intros j Hj. by apply Hcols.
Qed.

Lemma heap_sort_sorts_skeleton_witness :
  3 ≤ length [5; 3; 9] ∧ csc_wf diag49 ∧ csc_wf col11 ∧
  mat_m diag49 = mat_m col11 ∧
  (@adjust_tol 2 0x1p-10 <? 0)%float = false ∧ mat_m col11 < 3 ∧
  (StronglySorted le (take 3 (heap_sort 3 [5; 3; 9])) ∧
   take 3 (heap_sort 3 [5; 3; 9]) ≡ₚ take 3 [5; 3; 9] ∧
   drop 3 (heap_sort 3 [5; 3; 9]) = drop 3 [5; 3; 9] ∧
   (3 ≤ 1 → heap_sort 3 [5; 3; 9] = [5; 3; 9])) ∧
  (∃ X Xs,
     @interp_skel spec_ops 2 3 [0; 0]%float diag49 col11 [4; 9]%float
       [1]%float 0x1p-10%float = Some (X, Xs) ∧
     ∀ j, j < mat_n col11 →
       StronglySorted lt (col_slice (log_jc X) (log_ir X) j)).
Proof.
  assert (csc_wf diag49) as HA
    by (apply (bool_decide_unpack _); vm_compute; exact I).
  assert (csc_wf col11) as HB
    by (apply (bool_decide_unpack _); vm_compute; exact I).
  assert (3 ≤ length [5; 3; 9]) as Hun by (simpl; lia).
  assert (mat_m col11 < 3) as Hfuel by (simpl; lia).
  assert ((@adjust_tol 2 0x1p-10 <? 0)%float = false) as Htol
    by (vm_compute; reflexivity).
  refine (conj Hun (conj HA (conj HB (conj eq_refl (conj Htol
            (conj Hfuel _)))))).
  exact (@heap_sort_sorts_skeleton spec_ops 2 3 [5; 3; 9] 3
           [0; 0]%float diag49 col11 [4; 9]%float [1]%float
           0x1p-10%float Hun HA HB eq_refl Htol Hfuel).
Defined.

Lemma all_terms_skip_zero A x :
  all_terms A (filter (λ e, (abs e.2 =? 0)%float = false) x) = all_terms A x.
Proof.
  unfold all_terms. induction x as [|e x IH]; [done|].
  rewrite filter_cons.
  destruct (decide ((abs e.2 =? 0)%float = false)) as [Hnz|Hz].
  - by rewrite !bind_cons, IH.
  - apply not_false_is_true in Hz. by rewrite bind_cons, Hz, IH.
Qed.

(** C3. [sp_mv] computes [y := A·x] for a sparse [x] in any index order:
    the index list returned is strictly ascending, without duplicates, and
    holds exactly the admitted rows ([mask[i] < 0]) that a non-zero
    component of [x] reaches; the value of a row is the sum of the products
    [a_ij * x_j] in scan order; exact zeros of [x] contribute nothing; the
    first component returned is the number of entries of [y]; and [sv] is
    written at admitted rows only.  The rows of [A] must lie inside the
    workspaces; the order of the rows inside a column of [A] plays no
    part. *)
Theorem sp_mv_correct (A : sp_mat_c) (x : list (nat * float))
    (sv : list float) (flag mask : list Z) (nf : nat) :
  length sv = nf → flag = replicate nf 0%Z →
  Forall (λ i, i < nf) (mat_ir A) →
  ∃ yi sv',
    sp_mv A x sv flag mask =
      (length yi, yi, row_product A x <$> yi, sv', replicate nf 0%Z) ∧
    length (row_product A x <$> yi) = length yi ∧
    StronglySorted lt yi ∧ NoDup yi ∧
    (∀ i, i ∈ yi ↔ admitted mask i ∧ i ∈ (all_terms A x).*1) ∧
    (∀ i, (0 ≤ mask !!! i)%Z → i ∉ yi) ∧
    all_terms A x =
      all_terms A (filter (λ e, (abs e.2 =? 0)%float = false) x) ∧
    (∀ i, ¬ admitted mask i → sv' !!! i = sv !!! i).
Proof.
  intros Hsv Hflag HA.
  destruct (sp_mv_spec A x sv flag mask nf Hsv Hflag
              (all_terms_rows A x nf HA))
    as (yi & sv' & Heq & Hsorted & Hmem & _ & Hsv').
  exists yi, sv'. split_and!; try done.
  - by rewrite length_fmap.
  - by apply StronglySorted_lt_NoDup.
  - intros i Hi [Ha _]%Hmem. unfold admitted in Ha. lia.
  - by rewrite all_terms_skip_zero.
Qed.

Lemma sp_mv_correct_witness :
  length [7; 7; 7]%float = 3 ∧ replicate 3 0%Z = replicate 3 0%Z ∧
  Forall (λ i, i < 3) (mat_ir tridiag3) ∧
  ∃ yi sv',
    sp_mv tridiag3 [(2, 1%float); (0, 2%float)] [7; 7; 7]%float
      (replicate 3 0%Z) [-1; 0; -1]%Z =
      (length yi, yi,
       row_product tridiag3 [(2, 1%float); (0, 2%float)] <$> yi, sv',
       replicate 3 0%Z) ∧
    length (row_product tridiag3 [(2, 1%float); (0, 2%float)] <$> yi) =
      length yi ∧
    StronglySorted lt yi ∧ NoDup yi ∧
    (∀ i, i ∈ yi ↔
          admitted [-1; 0; -1]%Z i ∧
          i ∈ (all_terms tridiag3 [(2, 1%float); (0, 2%float)]).*1) ∧
    (∀ i, (0 ≤ [-1; 0; -1]%Z !!! i)%Z → i ∉ yi) ∧
    all_terms tridiag3 [(2, 1%float); (0, 2%float)] =
      all_terms tridiag3
        (filter (λ e, (abs e.2 =? 0)%float = false)
           [(2, 1%float); (0, 2%float)]) ∧
    (∀ i, ¬ admitted [-1; 0; -1]%Z i → sv' !!! i = [7; 7; 7]%float !!! i).
Proof.
  assert (Forall (λ i, i < 3) (mat_ir tridiag3)) as HA
    by (apply (bool_decide_unpack _); vm_compute; exact I).
  refine (conj eq_refl (conj eq_refl (conj HA _))).
  exact (sp_mv_correct tridiag3 [(2, 1%float); (0, 2%float)] [7; 7; 7]%float
           (replicate 3 0%Z) [-1; 0; -1]%Z 3 eq_refl eq_refl HA).
Defined.

(** C2. [resid_update], on two index-ascending sparse vectors [x] and [y]
    (the indices of [y] inside [beta]), returns [r] and [beta] with: at an
    admitted index of both supports [r_i = x_i - alpha*y_i]; at an admitted
    index of [x] only [r_i = x_i]; at an admitted index of [y] only
    [r_i = -alpha*y_i]; no entry of [r] at an index that is not admitted or
    lies in neither support; [beta_i] increased by [y_i²] where both are
    present, set to [y_i²] where only [y] is, untouched where [y] is
    absent, whatever the mask says; the indices of [r] strictly ascending;
    and the value returned equal to the number of entries of [r]. *)
Theorem resid_update_correct (beta : list float) (x : list (nat * float))
    (alpha : float) (y : list (nat * float)) (mask : list Z) :
  StronglySorted lt x.*1 → StronglySorted lt y.*1 →
  Forall (λ e, e.1 < length beta) y →
  let rs := resid_update beta x alpha y mask in
  rs_rnz rs = length (rs_r rs) ∧
  StronglySorted lt (rs_r rs).*1 ∧
  (∀ i, sp_get (rs_r rs) i =
        if decide (admitted mask i)
        then resid_value alpha (sp_get x i) (sp_get y i) else None) ∧
  (∀ i, rs_beta rs !!! i =
        resid_beta (beta !!! i) (sp_get x i) (sp_get y i)) ∧
  length (rs_beta rs) = length beta.
Proof.
  intros Hx Hy Hr rs.
  destruct (resid_update_post beta x alpha y mask Hx Hy Hr)
    as (out & Hout & Hcnt & Hsorted & Hget & Hbeta & Hlen).
  fold rs in Hout, Hcnt, Hbeta, Hlen. simpl in *. subst out.
  by split_and!.
Qed.

Lemma resid_update_correct_witness :
  StronglySorted lt [(0, 1%float); (2, 2%float)].*1 ∧
  StronglySorted lt [(1, 5%float); (2, 1%float); (3, 1%float)].*1 ∧
  Forall (λ e : nat * float, e.1 < length [0; 0; 0; 0]%float)
    [(1, 5%float); (2, 1%float); (3, 1%float)] ∧
  let rs := resid_update [0; 0; 0; 0]%float [(0, 1%float); (2, 2%float)]
              3%float [(1, 5%float); (2, 1%float); (3, 1%float)]
              [-1; -1; -1; 0]%Z in
  rs_rnz rs = length (rs_r rs) ∧
  StronglySorted lt (rs_r rs).*1 ∧
  (∀ i, sp_get (rs_r rs) i =
        if decide (admitted [-1; -1; -1; 0]%Z i)
        then resid_value 3%float (sp_get [(0, 1%float); (2, 2%float)] i)
               (sp_get [(1, 5%float); (2, 1%float); (3, 1%float)] i)
        else None) ∧
  (∀ i, rs_beta rs !!! i =
        resid_beta ([0; 0; 0; 0]%float !!! i)
          (sp_get [(0, 1%float); (2, 2%float)] i)
          (sp_get [(1, 5%float); (2, 1%float); (3, 1%float)] i)) ∧
  length (rs_beta rs) = length [0; 0; 0; 0]%float.
Proof.
  assert (StronglySorted lt [(0, 1%float); (2, 2%float)].*1) as Hx
    by (apply (bool_decide_unpack _); vm_compute; exact I).
  assert (StronglySorted lt [(1, 5%float); (2, 1%float); (3, 1%float)].*1)
    as Hy by (apply (bool_decide_unpack _); vm_compute; exact I).
  assert (Forall (λ e : nat * float, e.1 < length [0; 0; 0; 0]%float)
            [(1, 5%float); (2, 1%float); (3, 1%float)]) as Hr
    by (apply (bool_decide_unpack _); vm_compute; exact I).
  refine (conj Hx (conj Hy (conj Hr _))).
  exact (resid_update_correct [0; 0; 0; 0]%float [(0, 1%float); (2, 2%float)]
           3%float [(1, 5%float); (2, 1%float); (3, 1%float)]
           [-1; -1; -1; 0]%Z Hx Hy Hr).
Defined.

(** C6. Workspace cleanliness.  The state in which [interp_skel] enters
    its first column has [map_to_Qi[i] = -1] and [flag[i] = 0] for every
    row [i]; from such a state the solve of a column finishes and leaves
    such a state again; and a call of [sp_mv] that finds [flag] all zero
    leaves it all zero.  ([nf] is the number of rows; [skel_inv] says that
    the two arrays are clean.) *)
Theorem workspaces_stay_clean `{ops : triangular_ops} (STOP_TEST : nat)
    (fuel : nat) (X_sum : list float) (A B : sp_mat_c) (D u : list float)
    (tol : float) (st : state) (j : nat) (x : list (nat * float))
    (sv : list float) (mask : list Z) :
  csc_wf A → csc_wf B → mat_m A = mat_m B →
  (tol <? 0)%float = false → mat_m B < fuel →
  skel_inv (mat_m B) st → j < mat_n B →
  length sv = mat_m B →
  skel_inv (mat_m B) (init_state B X_sum) ∧
  (∃ st',
     solve_column STOP_TEST fuel A B D u tol st j = Some st' ∧
     st_map_to_Qi st' = replicate (mat_m B) (-1)%Z ∧
     st_flag st' = replicate (mat_m B) 0%Z ∧
     skel_inv (mat_m B) st') ∧
  (sp_mv A x sv (replicate (mat_m B) 0%Z) mask).2 = replicate (mat_m B) 0%Z.
Proof.
  intros (_ & HA & _) HB Hm Htol Hfuel Hinv Hj Hsv. rewrite Hm in HA.
  split_and!.
  - apply skel_inv_init.
  - destruct (solve_column_spec STOP_TEST A B D u (mat_m B) tol fuel st j
                Hinv HB eq_refl HA Htol Hj Hfuel)
      as (st' & col & Hrun & Hinv' & _).
    exists st'. split_and!; try done; by destruct Hinv' as (_ & ? & ? & _).
  - destruct (sp_mv_spec A x sv (replicate (mat_m B) 0%Z) mask (mat_m B)
                Hsv eq_refl (all_terms_rows A x _ HA))
      as (yi & sv' & -> & _).
    done.
Qed.

Lemma workspaces_stay_clean_witness :
  csc_wf diag49 ∧ csc_wf col11 ∧ mat_m diag49 = mat_m col11 ∧
  (0x1p-11 <? 0)%float = false ∧ mat_m col11 < 3 ∧
  skel_inv (mat_m col11) (@init_state col11 [0; 0]%float) ∧
  0 < mat_n col11 ∧ length [0; 0]%float = mat_m col11 ∧
  skel_inv (mat_m col11) (init_state col11 [5; 5]%float) ∧
  (∃ st',
     @solve_column spec_ops 2 3 diag49 col11 [4; 9]%float [1]%float
       0x1p-11%float (init_state col11 [0; 0]%float) 0 = Some st' ∧
     st_map_to_Qi st' = replicate (mat_m col11) (-1)%Z ∧
     st_flag st' = replicate (mat_m col11) 0%Z ∧
     skel_inv (mat_m col11) st') ∧
  (sp_mv diag49 [(0, 1%float)] [0; 0]%float (replicate (mat_m col11) 0%Z)
     [-1; -1]%Z).2 = replicate (mat_m col11) 0%Z.
Proof.
  assert (csc_wf diag49) as HA
    by (apply (bool_decide_unpack _); vm_compute; exact I).
  assert (csc_wf col11) as HB
    by (apply (bool_decide_unpack _); vm_compute; exact I).
  assert ((0x1p-11 <? 0)%float = false) as Htol by (vm_compute; reflexivity).
  assert (mat_m col11 < 3) as Hfuel by (simpl; lia).
  assert (skel_inv (mat_m col11) (init_state col11 [0; 0]%float)) as Hinv
    by (vm_compute; repeat split).
  assert (0 < mat_n col11) as Hj by (simpl; lia).
  refine (conj HA (conj HB (conj eq_refl (conj Htol (conj Hfuel
            (conj Hinv (conj Hj (conj eq_refl _)))))))).
  exact (@workspaces_stay_clean spec_ops 2 3 [5; 5]%float diag49 col11
           [4; 9]%float [1]%float 0x1p-11%float
           (init_state col11 [0; 0]%float) 0 [(0, 1%float)]
           [0; 0]%float [-1; -1]%Z HA HB eq_refl Htol Hfuel Hinv Hj
           eq_refl).
Defined.

(** C10. For inputs [A], [B], [D], [u], [tol] that violate one of the five
    preconditions on shapes and types, [mexFunction] emits a diagnostic and
    returns with the output array [plhs] as it found it: neither [X_skel]
    nor [X_sum] is created. *)
Theorem invalid_inputs_rejected `{ops : triangular_ops} (STOP_TEST : nat)
    (fuel nlhs : nat) (plhs : list mxArray) (A B D u tol : mxArray) :
  ¬ preconditions A B D u tol →
  ∃ msg,
    mexFunction STOP_TEST fuel nlhs plhs [A; B; D; u; tol] =
      Some (Warned msg plhs).
Proof.
  intros Hviol. unfold mexFunction. cbn [length].
  change ([A; B; D; u; tol] !!! 0) with A.
  change ([A; B; D; u; tol] !!! 1) with B.
  change ([A; B; D; u; tol] !!! 2) with D.
  change ([A; B; D; u; tol] !!! 3) with u.
  change ([A; B; D; u; tol] !!! 4) with tol.
  cbv zeta.
  repeat match goal with
         | |- ∃ msg, Some (Warned _ _) = _ => by eexists
         | |- context [if decide ?P then _ else _] => destruct (decide P)
         | |- context [if ?b then _ else _] => destruct b eqn:?
         end.
  exfalso. apply Hviol.
  repeat match goal with
         | H : _ || _ = false |- _ => apply orb_false_elim in H as [? ?]
         | H : negb _ = false |- _ => apply negb_false_iff in H
         | H : (_ =? _) = true |- _ => apply Nat.eqb_eq in H
         end.
  unfold preconditions, real_double_scalar, sp_mat_of in *. simpl in *.
  split_and!; try done; lia.
Qed.

Lemma invalid_inputs_rejected_witness :
  ¬ preconditions (mx_sparse_double col11) (mx_sparse_double col11)
      (mx_double_column 2 [4; 9]%float) (mx_double_column 1 [1]%float)
      (mx_double_column 1 [1]%float) ∧
  ∃ msg,
    @mexFunction spec_ops 2 5 2 []
      [mx_sparse_double col11; mx_sparse_double col11;
       mx_double_column 2 [4; 9]%float; mx_double_column 1 [1]%float;
       mx_double_column 1 [1]%float] = Some (Warned msg []).
Proof.
  assert (¬ preconditions (mx_sparse_double col11) (mx_sparse_double col11)
            (mx_double_column 2 [4; 9]%float) (mx_double_column 1 [1]%float)
            (mx_double_column 1 [1]%float)) as Hviol.
  { intros (Hsq & _). vm_compute in Hsq. lia. }
  refine (conj Hviol _).
  exact (@invalid_inputs_rejected spec_ops 2 5 2 [] _ _ _ _ _ Hviol).
Defined.

(** ** The stopping norm *)

Lemma zeroed_lookup (l : list (nat * float)) : ∀ (b : list float) i,
  i < length b → i ∈ l.*1 ∨ b !!! i = 0%float →
  foldl (λ b e, <[e.1 := 0%float]> b) b l !!! i = 0%float.
Proof.
  induction l as [|e l IH]; intros b i Hi Hor; simpl.
  - destruct Hor as [H%elem_of_nil|]; done.
  - apply IH; [by rewrite length_insert|].
    destruct (decide (i = e.1)) as [->|Hne].
    + right. by rewrite list_lookup_total_insert_eq.
    + rewrite list_lookup_total_insert_ne by done.
      destruct Hor as [[?|?]%elem_of_cons|?]; [done|by left|by right].
Qed.

Lemma init_scan_beta_zero STOP_TEST D beta r e :
  e ∈ r → e.1 < length beta →
  (init_scan STOP_TEST D beta (length r) r).1 !!! e.1 = 0%float.
Proof.
  intros He Hlt. rewrite init_scan_fold. simpl.
  destruct r as [|r0 r]; [by apply elem_of_nil in He|].
  simpl. rewrite take_ge by done.
  apply zeroed_lookup; [by rewrite length_insert|].
  apply elem_of_cons in He as [->|He].
  - right. by rewrite list_lookup_total_insert_eq.
  - left. apply list_elem_of_fmap. by exists e.
Qed.

(** The norm a scan returns is the fold of [norm_update] over the terms of
    all its candidates. *)
Lemma scan_norm STOP_TEST (f : nat * float → nat * float * float)
    (r : list (nat * float)) (g : float → float → float) :
  (∀ a b, norm_update STOP_TEST a b = g a b) → 0 < length r →
  (pick_fold STOP_TEST (f (r !!! 0)) (f <$> drop 1 (take (length r) r))).2 =
    match (λ e, (f e).2) <$> r with
    | [] => 0%float
    | t :: ts => foldl g t ts
    end.
Proof.
  intros Hg Hr.
  destruct (pick_fold_spec STOP_TEST (f (r !!! 0))
              (f <$> drop 1 (take (length r) r))) as (_ & _ & _ & _ & _ & ->).
  destruct r as [|r0 r]; simpl in *; [lia|].
  rewrite take_ge by done.
  rewrite <- list_fmap_compose. by apply foldl_pointwise.
Qed.

(** C7. If column [j] of [B] is empty ([B.jc[j+1] = B.jc[j]]), the solve
    of column [j] only records the start of the column: [X_skel->ir], [iri]
    and [X_sum] are as before, so that the column emitted is empty
    ([col_ptr[j+1] = col_ptr[j]] in the [X_skel] returned), and the loop
    goes on with the next column. *)
Theorem empty_column_skipped `{ops : triangular_ops} (STOP_TEST : nat)
    (fuel : nat) (X_sum : list float) (A B : sp_mat_c) (D u : list float)
    (tol : float) (st : state) (j : nat) (js : list nat) :
  mat_jc B !!! (j + 1) = mat_jc B !!! j →
  csc_wf A → csc_wf B → mat_m A = mat_m B →
  (adjust_tol STOP_TEST tol <? 0)%float = false → mat_m B < fuel →
  j < mat_n B →
  (∀ tol' fuel',
     solve_column STOP_TEST fuel' A B D u tol' st j =
       Some (begin_column B j st)) ∧
  st_ir (begin_column B j st) = st_ir st ∧
  st_iri (begin_column B j st) = st_iri st ∧
  st_X_sum (begin_column B j st) = st_X_sum st ∧
  st_jc (begin_column B j st) = st_jc st ++ [st_iri st] ∧
  (∀ tol' fuel',
     solve_columns STOP_TEST fuel' A B D u tol' st (j :: js) =
       solve_columns STOP_TEST fuel' A B D u tol' (begin_column B j st) js) ∧
  ∃ X Xs,
    interp_skel STOP_TEST fuel X_sum A B D u tol = Some (X, Xs) ∧
    col_slice (log_jc X) (log_ir X) j = [] ∧
    log_jc X !!! (j + 1) = log_jc X !!! j.
Proof.
  intros Hempty HA HB Hm Htol Hfuel Hj.
  assert (∀ tol' fuel',
    solve_column STOP_TEST fuel' A B D u tol' st j =
      Some (begin_column B j st)) as Hstep.
  { intros tol' fuel'. unfold solve_column.
    destruct (decide (st_rnz (begin_column B j st) < 1)) as [|Hn]; [done|].
    simpl in Hn. lia. }
  split_and!; try done.
  - intros tol' fuel'. cbn [solve_columns]. by rewrite Hstep.
  - destruct (interp_skel_columns STOP_TEST fuel X_sum A B D u tol
                HA HB Hm Htol Hfuel) as (X & Xs & Hrun & Hcols).
    destruct (Hcols j Hj) as (_ & Hfact & Hptr).
    unfold col_fact in Hfact.
    destruct (decide (_ < 1)) as [|Hn]; [|lia].
    exists X, Xs. split_and!; [done|done|]. rewrite Hptr, Hfact. simpl. lia.
Qed.

Lemma empty_column_skipped_witness :
  mat_jc col_empty_then_e0 !!! (0 + 1) = mat_jc col_empty_then_e0 !!! 0 ∧
  csc_wf diag49 ∧ csc_wf col_empty_then_e0 ∧
  mat_m diag49 = mat_m col_empty_then_e0 ∧
  (@adjust_tol 2 0x1p-10 <? 0)%float = false ∧
  mat_m col_empty_then_e0 < 3 ∧ 0 < mat_n col_empty_then_e0 ∧
  ∃ X Xs,
    @interp_skel spec_ops 2 3 [0; 0]%float diag49 col_empty_then_e0
      [4; 9]%float [1; 1]%float 0x1p-10%float = Some (X, Xs) ∧
    col_slice (log_jc X) (log_ir X) 0 = [] ∧
    log_jc X !!! (0 + 1) = log_jc X !!! 0.
Proof.
  assert (csc_wf diag49) as HA
    by (apply (bool_decide_unpack _); vm_compute; exact I).
  assert (csc_wf col_empty_then_e0) as HB
    by (apply (bool_decide_unpack _); vm_compute; exact I).
  assert ((@adjust_tol 2 0x1p-10 <? 0)%float = false) as Htol
    by (vm_compute; reflexivity).
  assert (mat_m col_empty_then_e0 < 3) as Hfuel by (simpl; lia).
  assert (0 < mat_n col_empty_then_e0) as Hj by (simpl; lia).
  refine (conj eq_refl (conj HA (conj HB (conj eq_refl (conj Htol
            (conj Hfuel (conj Hj _))))))).
  exact (proj2 (proj2 (proj2 (proj2 (proj2 (proj2
    (@empty_column_skipped spec_ops 2 3 [0; 0]%float diag49
       col_empty_then_e0 [4; 9]%float [1; 1]%float 0x1p-10%float
       (init_state col_empty_then_e0 [0; 0]%float) 0 [1]
       eq_refl HA HB eq_refl Htol Hfuel Hj))))))).
Defined.

Lemma load_column_fields `{ops : triangular_ops} STOP_TEST B D j st :
  let ld := load_column STOP_TEST B D j (begin_column B j st) in
  (st_s ld, st_w ld, st_norm ld) = first_pick STOP_TEST D B j ∧
  st_ir ld = st_ir st ∧ st_iri ld = st_iri st ∧
  st_X_sum ld = st_X_sum st ∧ st_map_to_Qi ld = st_map_to_Qi st ∧
  st_jc ld = st_jc st ++ [st_iri st] ∧ st_k ld = 0 ∧ st_Qi ld = st_iri st.
Proof.
  intros ld. subst ld. unfold load_column, first_pick.
  pose proof (init_scan_pick STOP_TEST D (st_beta (begin_column B j st))
                (st_rnz (begin_column B j st)) (column B j)) as Hpick.
  simpl in *. destruct (init_scan _ _ _ _ _) as [beta [[s w] norm]].
  simpl in *. by rewrite <- Hpick.
Qed.

(** C5. For a column [j] of [B] with at least one entry whose initial
    stopping norm is at most the rescaled tolerance, the body of the
    expansion loop never runs: the solve of the column leaves
    [X_skel->ir], [iri], [X_sum] and [map_to_Qi] as it found them, and the
    column emitted is empty ([col_ptr[j+1] = col_ptr[j]] in the [X_skel]
    returned). *)
Theorem early_stop_column `{ops : triangular_ops} (STOP_TEST : nat)
    (fuel : nat) (X_sum : list float) (A B : sp_mat_c) (D u : list float)
    (tol : float) (st : state) (j : nat) :
  1 ≤ mat_jc B !!! (j + 1) - mat_jc B !!! j →
  ((first_pick STOP_TEST D B j).2 <=? adjust_tol STOP_TEST tol)%float
    = true →
  csc_wf A → csc_wf B → mat_m A = mat_m B →
  (adjust_tol STOP_TEST tol <? 0)%float = false → mat_m B < fuel →
  j < mat_n B →
  let ld := load_column STOP_TEST B D j (begin_column B j st) in
  expand_loop STOP_TEST fuel A D u (adjust_tol STOP_TEST tol) j ld
    = Some ld ∧
  (∃ st',
     solve_column STOP_TEST fuel A B D u (adjust_tol STOP_TEST tol) st j
       = Some st' ∧
     st_ir st' = st_ir st ∧ st_iri st' = st_iri st ∧
     st_X_sum st' = st_X_sum st ∧
     st_map_to_Qi st' = st_map_to_Qi st ∧
     st_jc st' = st_jc st ++ [st_iri st]) ∧
  ∃ X Xs,
    interp_skel STOP_TEST fuel X_sum A B D u tol = Some (X, Xs) ∧
    col_slice (log_jc X) (log_ir X) j = [] ∧
    log_jc X !!! (j + 1) = log_jc X !!! j.
Proof.
  intros Hrnz Hle HA HB Hm Htol Hfuel Hj ld.
  apply leb_not_ltb in Hle.
  destruct (load_column_fields STOP_TEST B D j st)
    as (Hpick & Hir & Hiri & HX & Hmap & Hjc & Hk & HQi).
  fold ld in Hpick, Hir, Hiri, HX, Hmap, Hjc, Hk, HQi.
  assert (st_norm ld = (first_pick STOP_TEST D B j).2) as Hnorm
    by (by rewrite <- Hpick).
  assert (expand_loop STOP_TEST fuel A D u (adjust_tol STOP_TEST tol) j ld
            = Some ld) as Hloop.
  { destruct fuel as [|fuel]; [lia|]. simpl. by rewrite Hnorm, Hle. }
  split_and!; [done| |].
  - exists (finish_column ld). unfold solve_column.
    destruct (decide (st_rnz (begin_column B j st) < 1)) as [Hn|_];
      [simpl in Hn; lia|].
    fold ld. rewrite Hloop. cbn [mbind option_bind].
    unfold finish_column. rewrite Hk. cbn [seq foldl].
    cbn [st_ir st_iri st_X_sum st_map_to_Qi st_jc].
    rewrite heap_sort_small, take_drop by lia. done.
  - destruct (interp_skel_columns STOP_TEST fuel X_sum A B D u tol
                HA HB Hm Htol Hfuel) as (X & Xs & Hrun & Hcols).
    destruct (Hcols j Hj) as (_ & Hfact & Hptr).
    unfold col_fact in Hfact.
    destruct (decide (_ < 1)) as [|_]; [lia|]. rewrite Hle in Hfact.
    exists X, Xs. split_and!; [done|done|]. rewrite Hptr, Hfact. simpl. lia.
Qed.

Lemma early_stop_column_witness :
  1 ≤ mat_jc col_tiny !!! (0 + 1) - mat_jc col_tiny !!! 0 ∧
  ((first_pick 2 [4; 9]%float col_tiny 0).2 <=? @adjust_tol 2 1)%float
    = true ∧
  csc_wf diag49 ∧ csc_wf col_tiny ∧ mat_m diag49 = mat_m col_tiny ∧
  (@adjust_tol 2 1 <? 0)%float = false ∧ mat_m col_tiny < 3 ∧
  0 < mat_n col_tiny ∧
  ∃ X Xs,
    @interp_skel spec_ops 2 3 [0; 0]%float diag49 col_tiny [4; 9]%float
      [1]%float 1%float = Some (X, Xs) ∧
    col_slice (log_jc X) (log_ir X) 0 = [] ∧
    log_jc X !!! (0 + 1) = log_jc X !!! 0.
Proof.
  assert (csc_wf diag49) as HA
    by (apply (bool_decide_unpack _); vm_compute; exact I).
  assert (csc_wf col_tiny) as HB
    by (apply (bool_decide_unpack _); vm_compute; exact I).
  assert ((@adjust_tol 2 1 <? 0)%float = false) as Htol
    by (vm_compute; reflexivity).
  assert (((first_pick 2 [4; 9]%float col_tiny 0).2 <=? @adjust_tol 2 1)%float
            = true) as Hle by (vm_compute; reflexivity).
  assert (1 ≤ mat_jc col_tiny !!! (0 + 1) - mat_jc col_tiny !!! 0) as Hrnz
    by (vm_compute; lia).
  assert (mat_m col_tiny < 3) as Hfuel by (simpl; lia).
  assert (0 < mat_n col_tiny) as Hj by (simpl; lia).
  refine (conj Hrnz (conj Hle (conj HA (conj HB (conj eq_refl (conj Htol
            (conj Hfuel (conj Hj _)))))))).
  exact (proj2 (proj2
    (@early_stop_column spec_ops 2 3 [0; 0]%float diag49 col_tiny
       [4; 9]%float [1]%float 1%float (init_state col_tiny [0; 0]%float) 0
       Hrnz Hle HA HB eq_refl Htol Hfuel Hj))).
Defined.

(** ** The first pivot *)

(** The initial scan of a non-empty column [r] of [B] picks an entry that
    no entry exceeds in [|b_i / sqrt(D_i)|] and that no earlier entry
    equals or exceeds. *)
Lemma first_pick_best STOP_TEST D (r : list (nat * float)) :
  0 < length r →
  let res := (init_scan STOP_TEST D [] (length r) r).2 in
  ∃ p b0,
    r !! p = Some (res.1.1, b0) ∧
    res.1.2 = (b0 / sqrt (D !!! res.1.1))%float ∧
    (∀ q e, r !! q = Some e →
       (abs res.1.2 <? abs (e.2 / sqrt (D !!! e.1)))%float = false) ∧
    (∀ q e, q < p → r !! q = Some e →
       (abs res.1.2 <=? abs (e.2 / sqrt (D !!! e.1)))%float = false).
Proof.
  intros Hr res. subst res. rewrite init_scan_fold. cbn [snd].
  destruct (pick_fold_spec STOP_TEST (cand0 D (r !!! 0))
              (cand0 D <$> drop 1 (take (length r) r)))
    as (p & tn & Hp & Hmax & Hfirst & _).
  set (res := pick_fold _ _ _) in *.
  rewrite <- fmap_cons, head_tail_total in Hp, Hmax, Hfirst by done.
  apply list_lookup_fmap_Some in Hp as (e & Hfe & He).
  destruct e as [i b0]. unfold cand0 in Hfe. simpl in Hfe.
  injection Hfe as Hs Hw _.
  exists p, b0. rewrite Hs, Hw. split_and!; try done.
  - intros q e' Hq. rewrite <- Hw.
    apply (Hmax q (cand0 D e')). by rewrite list_lookup_fmap, Hq.
  - intros q e' Hqp Hq. rewrite <- Hw.
    apply (Hfirst q (cand0 D e')); [done|]. by rewrite list_lookup_fmap, Hq.
Qed.

(** Line 297: an iteration of the expansion loop records [s]. *)
Lemma expand_records_pivot `{ops : triangular_ops} STOP_TEST A D u j st :
  st_ir (expand STOP_TEST A D u j st) = st_ir st ++ [st_s st].
Proof.
  unfold expand. cbv zeta.
  destruct (sp_mv _ _ _ _ _) as [[[[? ?] ?] ?] ?].
  by destruct (rescan _ _ _ _ _ _ _) as [[? ?] ?].
Qed.

(** C1, as the claim states it, fails: column 0 of [col_tiny] has one
    entry, [2^-40] at row 0, and with [A = diag(4,9)] and [tol = 1] the
    skeleton column emitted for it is empty, because the initial norm
    [2^-40 / 4] does not exceed [tol / 2].  The expansion loop is not
    entered, so the routines of the header play no part. *)
Lemma first_pivot_counterexample :
  1 ≤ mat_jc col_tiny !!! (0 + 1) - mat_jc col_tiny !!! 0 ∧
  ∀ ops : triangular_ops,
  ∃ X Xs,
    @interp_skel ops 2 3 [0; 0]%float diag49 col_tiny [4; 9]%float
      [1]%float 1%float = Some (X, Xs) ∧
    col_slice (log_jc X) (log_ir X) 0 = [].
Proof.
  split; [vm_compute; lia|].
  intros ops. eexists _, _. split; vm_compute; reflexivity.
Qed.

(** C1, amended.  For every column [j] of [B] with at least one entry, the
    pivot [s0] that the initial scan finds is an index of the column; no
    entry of the column has a larger score [|b_i / sqrt(D_i)|], and no
    entry earlier in the row-index array of [B] has an equal or larger
    one.  An iteration of the expansion loop records [s0] first.  The
    skeleton column emitted for [j] contains [s0], and so is not empty,
    when the initial stopping norm exceeds the rescaled tolerance; it is
    empty when the norm does not. *)
Theorem first_pivot_is_best `{ops : triangular_ops} (STOP_TEST : nat)
    (fuel : nat) (X_sum : list float) (A B : sp_mat_c) (D u : list float)
    (tol : float) (st : state) (j : nat) :
  1 ≤ mat_jc B !!! (j + 1) - mat_jc B !!! j →
  csc_wf A → csc_wf B → mat_m A = mat_m B →
  (adjust_tol STOP_TEST tol <? 0)%float = false → mat_m B < fuel →
  j < mat_n B →
  let s0 := (first_pick STOP_TEST D B j).1.1 in
  let w0 := (first_pick STOP_TEST D B j).1.2 in
  let norm0 := (first_pick STOP_TEST D B j).2 in
  let ld := load_column STOP_TEST B D j (begin_column B j st) in
  (∃ p b0,
     column B j !! p = Some (s0, b0) ∧
     w0 = (b0 / sqrt (D !!! s0))%float ∧
     (∀ q e, column B j !! q = Some e →
        (abs w0 <? abs (e.2 / sqrt (D !!! e.1)))%float = false) ∧
     (∀ q e, q < p → column B j !! q = Some e →
        (abs w0 <=? abs (e.2 / sqrt (D !!! e.1)))%float = false)) ∧
  s0 ∈ (column B j).*1 ∧
  st_ir (expand STOP_TEST A D u j ld) = st_ir ld ++ [s0] ∧
  ∃ X Xs,
    interp_skel STOP_TEST fuel X_sum A B D u tol = Some (X, Xs) ∧
    if (adjust_tol STOP_TEST tol <? norm0)%float
    then s0 ∈ col_slice (log_jc X) (log_ir X) j ∧
         col_slice (log_jc X) (log_ir X) j ≠ []
    else col_slice (log_jc X) (log_ir X) j = [].
Proof.
  intros Hrnz HA HB Hm Htol Hfuel Hj s0 w0 norm0 ld.
  destruct (csc_wf_column B j HB Hj) as (Hlen & _).
  assert (0 < length (column B j)) as Hpos by lia.
  pose proof (first_pick_best STOP_TEST D (column B j) Hpos) as Hbest.
  rewrite Hlen in Hbest. fold (first_pick STOP_TEST D B j) in Hbest.
  cbv zeta in Hbest. fold s0 w0 in Hbest.
  split_and!.
  - exact Hbest.
  - destruct Hbest as (p & b0 & Hp & _).
    apply list_elem_of_fmap. exists (s0, b0). split; [done|].
    by eapply list_elem_of_lookup_2.
  - rewrite expand_records_pivot. f_equal. f_equal.
    destruct (load_column_fields STOP_TEST B D j st) as (Hpick & _).
    fold ld in Hpick. unfold s0. by rewrite <- Hpick.
  - destruct (interp_skel_columns STOP_TEST fuel X_sum A B D u tol
                HA HB Hm Htol Hfuel) as (X & Xs & Hrun & Hcols).
    destruct (Hcols j Hj) as (_ & Hfact & _).
    unfold col_fact in Hfact.
    destruct (decide (_ < 1)) as [|_]; [lia|].
    exists X, Xs. split; [done|]. fold norm0 s0 in Hfact.
    destruct (adjust_tol STOP_TEST tol <? norm0)%float; [|done].
    split; [done|]. intros Hnil. rewrite Hnil in Hfact.
    by apply elem_of_nil in Hfact.
Qed.

Lemma first_pivot_is_best_witness :
  1 ≤ mat_jc col11 !!! (0 + 1) - mat_jc col11 !!! 0 ∧
  csc_wf diag49 ∧ csc_wf col11 ∧ mat_m diag49 = mat_m col11 ∧
  (@adjust_tol 2 0x1p-10 <? 0)%float = false ∧ mat_m col11 < 3 ∧
  0 < mat_n col11 ∧
  (first_pick 2 [4; 9]%float col11 0).1.1 ∈ (column col11 0).*1 ∧
  ∃ X Xs,
    @interp_skel spec_ops 2 3 [0; 0]%float diag49 col11 [4; 9]%float
      [1]%float 0x1p-10%float = Some (X, Xs) ∧
    if (@adjust_tol 2 0x1p-10 <? (first_pick 2 [4; 9]%float col11 0).2)%float
    then (first_pick 2 [4; 9]%float col11 0).1.1
           ∈ col_slice (log_jc X) (log_ir X) 0 ∧
         col_slice (log_jc X) (log_ir X) 0 ≠ []
    else col_slice (log_jc X) (log_ir X) 0 = [].
Proof.
  assert (csc_wf diag49) as HA
    by (apply (bool_decide_unpack _); vm_compute; exact I).
  assert (csc_wf col11) as HB
    by (apply (bool_decide_unpack _); vm_compute; exact I).
  assert ((@adjust_tol 2 0x1p-10 <? 0)%float = false) as Htol
    by (vm_compute; reflexivity).
  assert (1 ≤ mat_jc col11 !!! (0 + 1) - mat_jc col11 !!! 0) as Hrnz
    by (vm_compute; lia).
  assert (mat_m col11 < 3) as Hfuel by (simpl; lia).
  assert (0 < mat_n col11) as Hj by (simpl; lia).
  pose proof (@first_pivot_is_best spec_ops 2 3 [0; 0]%float diag49 col11
                [4; 9]%float [1]%float 0x1p-10%float
                (init_state col11 [0; 0]%float) 0
                Hrnz HA HB eq_refl Htol Hfuel Hj) as H.
  cbv zeta in H. destruct H as (_ & Hin & _ & Hrun).
  refine (conj Hrnz (conj HA (conj HB (conj eq_refl (conj Htol (conj Hfuel
            (conj Hj (conj Hin Hrun)))))))).
Defined.

(** ** The first pivot of a column does not depend on the header's
    routines *)

Lemma take1_insert0 {T} (l : list T) (v : T) :
  0 < length l → take 1 (<[0 := v]> l) = [v].
Proof. destruct l; simpl; [lia|done]. Qed.

(** At [k = 0] what the three routines store in [qk] and [sp] is
    overwritten before it is read: the first iteration of a column gives
    the same state, up to the content of [Q], whatever they compute. *)
Lemma expand_first_any (ops1 ops2 : triangular_ops) STOP_TEST A D u j
    (st st' : state) :
  same_but_Q st st' → st_k st = 0 → st_qk st = 0 →
  same_but_Q (@expand ops1 STOP_TEST A D u j st)
             (@expand ops2 STOP_TEST A D u j st').
Proof.
  intros (Heq & Hlen & Hpos & Hmax) Hk Hqk.
  rewrite Heq. unfold expand. cbv zeta.
  cbn [with_Q st_ir st_iri st_nzmax st_jc st_X_sum st_beta st_sp st_flag
       st_map_to_Qi st_Q st_max_Q st_Qi st_qk st_k st_s st_w st_norm
       st_rnz st_r].
  rewrite Hk, Hqk.
  destruct (decide (st_max_Q st < 0 + 1)) as [|_]; [lia|].
  cbn [seq foldl Nat.add take]. rewrite !(take_0 (A:=float)).
  cbn [write_at].
  set (v := (- (-1 / sqrt (D !!! st_s st - st_beta st !!! st_s st)))%float).
  set (Q1 := write_at 0 _ (write_at 0 _ (st_Q st))).
  set (Q2 := write_at 0 _ (write_at 0 _ (st_Q st'))).
  assert (length Q1 = length (st_Q st)) as HQ1
    by (unfold Q1; by rewrite !length_write_at).
  assert (length Q2 = length (st_Q st')) as HQ2
    by (unfold Q2; by rewrite !length_write_at).
  unfold qk_at. cbn [Nat.add].
  rewrite !list_lookup_total_insert_eq by lia.
  rewrite !drop_0, !take1_insert0 by lia.
  destruct (sp_mv _ _ _ _ _) as [[[[Aqk_nz Aqk_i] Aqk_p] sp] flag].
  destruct (rescan _ _ _ _ _ _ _) as [[s' w'] norm'].
  unfold same_but_Q, with_Q. simpl.
  rewrite !length_insert. split_and!; [done|lia|lia|lia].
Qed.

Lemma same_but_Q_fields st st' :
  same_but_Q st st' →
  st_norm st' = st_norm st ∧ st_rnz st' = st_rnz st ∧
  st_X_sum st' = st_X_sum st ∧ st_ir st' = st_ir st ∧
  st_jc st' = st_jc st ∧ st_iri st' = st_iri st ∧
  st_nzmax st' = st_nzmax st.
Proof. intros (Heq & _). rewrite Heq. by split_and!. Qed.

Lemma begin_column_any B j st st' :
  same_but_Q st st' →
  same_but_Q (begin_column B j st) (begin_column B j st').
Proof.
  intros (Heq & Hlen & Hpos & Hmax). rewrite Heq.
  unfold same_but_Q, begin_column, with_Q. simpl. by split_and!.
Qed.

Lemma load_column_any STOP_TEST B D j st st' :
  same_but_Q st st' →
  same_but_Q (load_column STOP_TEST B D j st)
             (load_column STOP_TEST B D j st').
Proof.
  intros (Heq & Hlen & Hpos & Hmax). rewrite Heq.
  unfold load_column. cbn [with_Q st_beta st_rnz].
  destruct (init_scan _ _ _ _ _) as [beta [[s w] norm]].
  unfold same_but_Q, with_Q. simpl. by split_and!.
Qed.

Lemma finish_column_any st st' :
  same_but_Q st st' → same_but_Q (finish_column st) (finish_column st').
Proof.
  intros (Heq & Hlen & Hpos & Hmax). rewrite Heq.
  unfold same_but_Q, finish_column, with_Q. simpl. by split_and!.
Qed.

Lemma load_begin_k STOP_TEST B D j st :
  st_k (load_column STOP_TEST B D j (begin_column B j st)) = 0 ∧
  st_qk (load_column STOP_TEST B D j (begin_column B j st)) = 0.
Proof.
  unfold load_column.
  destruct (init_scan _ _ _ _ _) as [beta [[s w] norm]]. by simpl.
Qed.

(** Columns that take at most one pivot each are solved alike, up to the
    content of [Q], whatever the routines of the header compute. *)
Lemma solve_columns_any (ops : triangular_ops) STOP_TEST A B D u tol fuel :
  2 ≤ fuel → ∀ js st st',
  same_but_Q st st' →
  at_most_one_pivot STOP_TEST A B D u tol st' js = true →
  ∃ st1 st1',
    @solve_columns ops STOP_TEST fuel A B D u tol st js = Some st1 ∧
    @solve_columns spec_ops STOP_TEST fuel A B D u tol st' js = Some st1' ∧
    same_but_Q st1 st1'.
Proof.
  intros Hfuel. destruct fuel as [|[|fuel]]; [lia..|].
  induction js as [|j js IH]; intros st st' Hsim Hrun.
  { exists st, st'. by split_and!. }
  cbn [at_most_one_pivot] in Hrun. cbv zeta in Hrun.
  cbn [solve_columns]. unfold solve_column. cbv zeta.
  pose proof (begin_column_any B j _ _ Hsim) as H0.
  pose proof (same_but_Q_fields _ _ H0) as (_ & Hrnz & _).
  rewrite Hrnz in Hrun.
  destruct (decide (st_rnz (begin_column B j st) < 1)) as [Hlt|Hge].
  { rewrite Hrnz. destruct (decide _) as [_|]; [|done].
    cbn [mbind option_bind]. by apply IH. }
  rewrite Hrnz. destruct (decide _) as [|_]; [done|].
  pose proof (load_column_any STOP_TEST B D j _ _ H0) as Hld.
  pose proof (same_but_Q_fields _ _ Hld) as (Hnorm & _).
  destruct (load_begin_k STOP_TEST B D j st) as (Hk & Hqk).
  set (ld := load_column STOP_TEST B D j (begin_column B j st)) in *.
  set (ld' := load_column STOP_TEST B D j (begin_column B j st')) in *.
  apply andb_true_iff in Hrun as (Hstop & Hrun).
  apply negb_true_iff in Hstop.
  cbn [expand_loop]. rewrite Hnorm. rewrite Hnorm in Hstop, Hrun.
  destruct (tol <? st_norm ld)%float eqn:Hgo.
  - pose proof (expand_first_any ops spec_ops STOP_TEST A D u j _ _ Hld Hk Hqk)
      as Hex.
    pose proof (same_but_Q_fields _ _ Hex) as (Hnorm1 & _).
    rewrite Hstop. rewrite Hnorm1 in Hstop. rewrite Hstop.
    cbn [mbind option_bind].
    apply IH; [by apply finish_column_any|done].
  - cbn [mbind option_bind].
    apply IH; [by apply finish_column_any|done].
Qed.

(** A run whose columns take at most one pivot each returns the same
    [X_skel] and [X_sum] whatever the routines of the header compute. *)
Lemma interp_skel_any (ops : triangular_ops) STOP_TEST fuel X_sum A B D u tol
    res :
  2 ≤ fuel →
  at_most_one_pivot STOP_TEST A B D u (adjust_tol STOP_TEST tol)
    (init_state B X_sum) (seq 0 (mat_n B)) = true →
  @interp_skel spec_ops STOP_TEST fuel X_sum A B D u tol = Some res →
  @interp_skel ops STOP_TEST fuel X_sum A B D u tol = Some res.
Proof.
  intros Hfuel Hrun. unfold interp_skel, interp_skel_run.
  assert (same_but_Q (init_state B X_sum) (init_state B X_sum)) as Hsim.
  { unfold same_but_Q, with_Q, init_state.
    cbn [st_ir st_iri st_nzmax st_jc st_X_sum st_beta st_sp st_flag
         st_map_to_Qi st_Q st_max_Q st_Qi st_qk st_k st_s st_w st_norm
         st_rnz st_r].
    rewrite length_replicate. split_and!; [done|done|apply Nat.ltb_lt; by vm_compute|lia]. }
  destruct (solve_columns_any ops STOP_TEST A B D u
              (adjust_tol STOP_TEST tol) fuel Hfuel _ _ _ Hsim Hrun)
    as (st1 & st1' & -> & -> & Hs).
  cbn [mbind option_bind].
  destruct (same_but_Q_fields _ _ Hs)
    as (_ & _ & -> & -> & -> & -> & ->). done.
Qed.

(** The same through the gateway. *)
Lemma mexFunction_any (ops : triangular_ops) STOP_TEST fuel nlhs plhs prhs
    res :
  2 ≤ fuel →
  (let A := sp_mat_of (prhs !!! 0) in
   let B := sp_mat_of (prhs !!! 1) in
   at_most_one_pivot STOP_TEST A B (mxGetPr (prhs !!! 2))
     (mxGetPr (prhs !!! 3))
     (adjust_tol STOP_TEST (mxGetPr (prhs !!! 4) !!! 0))
     (init_state B (replicate (mat_m B) 0%float)) (seq 0 (mat_n B)) = true) →
  @mexFunction spec_ops STOP_TEST fuel nlhs plhs prhs = Some res →
  @mexFunction ops STOP_TEST fuel nlhs plhs prhs = Some res.
Proof.
  intros Hfuel Hrun. cbv zeta in Hrun. unfold mexFunction. cbv zeta.
  repeat match goal with
         | |- context [if ?c then Some (Warned _ _) else _] =>
             destruct c; [done|]
         end.
  destruct (@interp_skel spec_ops _ _ _ _ _ _ _ _) as [r|] eqn:E; [|done].
  by rewrite (interp_skel_any ops _ _ _ _ _ _ _ _ r Hfuel Hrun E).
Qed.

(** C9. On [A = B = I_4], [D = u = (1,1,1,1)] and the double nearest to
    [10^-6] as [tol], [interp_skel] returns [X_skel = I_4] (column pointers
    [0,1,2,3,4], row indices [0,1,2,3]) and [X_sum = (1,1,1,1)], the
    doubles [1.0] themselves: no rounding occurs.  This holds under both
    stopping policies and through [mexFunction], and whatever the routines
    of the missing header compute: each column takes one pivot, and what
    they write at [k = 0] is overwritten before it is read. *)
Theorem identity_scenario :
  let tol := 0x1.0c6f7a0b5ed8dp-20%float in
  ∀ ops : triangular_ops,
  @interp_skel ops 2 5 [0; 0; 0; 0]%float I4 I4 ones4 ones4 tol =
    Some ({| log_m := 4; log_n := 4; log_nzmax := 8;
             log_jc := [0; 1; 2; 3; 4]; log_ir := [0; 1; 2; 3] |},
          [1; 1; 1; 1]%float) ∧
  @interp_skel ops 1 5 [0; 0; 0; 0]%float I4 I4 ones4 ones4 tol =
    Some ({| log_m := 4; log_n := 4; log_nzmax := 8;
             log_jc := [0; 1; 2; 3; 4]; log_ir := [0; 1; 2; 3] |},
          [1; 1; 1; 1]%float) ∧
  ∀ out0 out1,
    @mexFunction ops 2 5 2 [out0; out1]
      [mx_sparse_double I4; mx_sparse_double I4; mx_double_column 4 ones4;
       mx_double_column 4 ones4; mx_double_column 1 [tol]] =
      Some (Returned
              [mx_sparse_logical 4 4 [0; 1; 2; 3; 4] [0; 1; 2; 3] 4;
               mx_double_column 4 [1; 1; 1; 1]%float]).
Proof.
  intros tol ops. split_and!.
  - apply interp_skel_any; [lia|by vm_compute..].
  - apply interp_skel_any; [lia|by vm_compute..].
  - intros out0 out1. apply mexFunction_any; [lia|by vm_compute..].
Qed.

(** * Further properties of the code *)

(** ** Signs of doubles *)

Lemma ltb_zero_sf x : (x <? 0)%float = sf_negative (Prim2SF x).
Proof.
  rewrite ltb_spec. change (Prim2SF 0) with (S754_zero false).
  by destruct (Prim2SF x) as [[]|[]| |[] ? ?].
Qed.

Lemma binary_round_aux_signed s m e l :
  sf_signed s (binary_round_aux prec emax s m e l).
Proof.
  unfold binary_round_aux.
  destruct (shr_fexp _ _ _ _ _) as [mrs' e'].
  destruct (shr_fexp _ _ _ _ _) as [mrs'' e''].
  destruct (shr_m mrs''); simpl; [done| |done].
  by destruct (_ <=? _)%Z.
Qed.

Lemma SFmul_signed x y s1 s2 :
  sf_signed s1 x → sf_signed s2 y →
  sf_signed (xorb s1 s2) (SFmul prec emax x y).
Proof.
  destruct x as [sx|sx| |sx mx ex], y as [sy|sy| |sy my ey]; simpl;
    try done; try (by intros -> ->).
  intros -> ->. apply binary_round_aux_signed.
Qed.

Lemma signed_false_not_negative x :
  sf_signed false x → sf_negative x = false.
Proof. by destruct x as [[]|[]| |[] ? ?]. Qed.

Lemma sf_signed_self x : ∃ s, sf_signed s x.
Proof. destruct x as [s|s| |s ? ?]; [by exists s|by exists s|by exists false|by exists s]. Qed.

Lemma mul_half_self_not_negative t : (t * (0.5 * t) <? 0)%float = false.
Proof.
  rewrite ltb_zero_sf, !mul_spec.
  destruct (sf_signed_self (Prim2SF t)) as (s & Hs).
  apply signed_false_not_negative.
  assert (sf_signed false (Prim2SF 0.5)) as Hh by (by vm_compute).
  pose proof (SFmul_signed _ _ s (xorb false s) Hs
                (SFmul_signed (Prim2SF 0.5) _ false s Hh Hs)) as H.
  by destruct s.
Qed.

Lemma not_negative_signed x :
  sf_negative x = false → sf_signed false x ∨ x = S754_zero true.
Proof. destruct x as [[]|[]| |[] ? ?]; simpl; intros; try done; auto. Qed.

Lemma mul_half_not_negative t :
  (t <? 0)%float = false → (t * 0.5 <? 0)%float = false.
Proof.
  rewrite !ltb_zero_sf, mul_spec. intros [H| ->]%not_negative_signed.
  - apply signed_false_not_negative.
    change false with (xorb false false).
    apply SFmul_signed; [done|by vm_compute].
  - by vm_compute.
Qed.

Lemma binary_round_aux_opp s m e l :
  binary_round_aux prec emax (negb s) m e l =
    SFopp (binary_round_aux prec emax s m e l).
Proof.
  unfold binary_round_aux.
  destruct (shr_fexp _ _ _ _ _) as [mrs' e'].
  destruct (shr_fexp _ _ _ _ _) as [mrs'' e''].
  destruct (shr_m mrs''); simpl; [done| |done].
  by destruct (_ <=? _)%Z.
Qed.

Lemma SFmul_opp_l x y :
  SFmul prec emax (SFopp x) y = SFopp (SFmul prec emax x y).
Proof.
  destruct x as [sx|sx| |sx mx ex], y as [sy|sy| |sy my ey]; simpl;
    try done; try (by destruct sx, sy).
  rewrite <- binary_round_aux_opp. by destruct sx, sy.
Qed.

Lemma SFmul_opp_r x y :
  SFmul prec emax x (SFopp y) = SFopp (SFmul prec emax x y).
Proof.
  destruct x as [sx|sx| |sx mx ex], y as [sy|sy| |sy my ey]; simpl;
    try done; try (by destruct sx, sy).
  rewrite <- binary_round_aux_opp. by destruct sx, sy.
Qed.

Lemma SFopp_involutive x : SFopp (SFopp x) = x.
Proof. by destruct x as [[]|[]| |[] ? ?]. Qed.

Lemma mul_half_self_even t :
  (- t * (0.5 * - t))%float = (t * (0.5 * t))%float.
Proof.
  apply Prim2SF_inj. rewrite !mul_spec, opp_spec.
  by rewrite SFmul_opp_l, SFmul_opp_r, SFmul_opp_r, SFopp_involutive.
Qed.

(** Comparisons with NaN and infinity. *)
Lemma ltb_nan_l x : (nan <? x)%float = false.
Proof. rewrite ltb_spec. by destruct (Prim2SF x). Qed.

Lemma ltb_infinity_l x : (infinity <? x)%float = false.
Proof.
  rewrite ltb_spec. change (Prim2SF infinity) with (S754_infinity false).
  by destruct (Prim2SF x) as [[]|[]| |[] ? ?].
Qed.

(** Sums and absolute values. *)
Lemma abs_not_negative x : (abs x <? 0)%float = false.
Proof.
  rewrite ltb_zero_sf, abs_spec. by destruct (Prim2SF x) as [[]|[]| |[] ? ?].
Qed.

Lemma binary_round_signed s m e :
  sf_signed s (binary_round prec emax s m e).
Proof.
  unfold binary_round. destruct (shl_align _ _ _) as [mz ez].
  apply binary_round_aux_signed.
Qed.

Lemma SFadd_not_negative x y :
  sf_negative x = false → sf_negative y = false →
  sf_negative (SFadd prec emax x y) = false.
Proof.
  destruct x as [[]|[]| |[] mx ex], y as [[]|[]| |[] my ey]; simpl;
    try done.
  intros _ _. apply signed_false_not_negative.
  unfold binary_normalize.
  destruct (shl_align mx ex (Z.min ex ey)) as [mx' ex'].
  destruct (shl_align my ey (Z.min ex ey)) as [my' ey']. simpl.
  apply binary_round_signed.
Qed.

Lemma add_not_negative x y :
  (x <? 0)%float = false → (y <? 0)%float = false →
  (x + y <? 0)%float = false.
Proof. rewrite !ltb_zero_sf, add_spec. apply SFadd_not_negative. Qed.

Lemma negative_below_not_negative tol x :
  (tol <? 0)%float = true → (x <? 0)%float = false →
  (tol <? x)%float = false → x = nan.
Proof.
  rewrite !ltb_zero_sf. rewrite ltb_spec. intros Ht Hx Hc.
  apply Prim2SF_inj. change (Prim2SF nan) with S754_nan.
  destruct (Prim2SF tol) as [[]|[]| |[] mt et],
           (Prim2SF x) as [[]|[]| |[] mx ex]; simpl in *; done.
Qed.

(** ** [sp_mv]: edge cases, workspaces and the order of [x] *)






Lemma sorted_lt_unique (l1 l2 : list nat) :
  StronglySorted lt l1 → StronglySorted lt l2 →
  (∀ i, i ∈ l1 ↔ i ∈ l2) → l1 = l2.
Proof.
  intros H1. revert l2.
  induction H1 as [|a l1 Hs1 IH Ha]; intros l2 H2 Hmem.
  - destruct l2 as [|b l2]; [done|].
    exfalso. apply (not_elem_of_nil b), Hmem. by left.
  - destruct H2 as [|b l2 Hs2 Hb].
    { exfalso. apply (not_elem_of_nil a), Hmem. by left. }
    rewrite Forall_forall in Ha, Hb.
    assert (a = b) as <-.
    { assert (a ∈ b :: l2) as [?|Hin1]%elem_of_cons by (apply Hmem; by left);
        [done|].
      assert (b ∈ a :: l1) as [?|Hin2]%elem_of_cons by (apply Hmem; by left);
        [done|].
      specialize (Ha b Hin2). specialize (Hb a Hin1). lia. }
    f_equal. apply IH; [done|]. intros i. split; intros Hi.
    + assert (i ∈ a :: l2) as [->|?]%elem_of_cons by (apply Hmem; by right);
        [|done].
      specialize (Ha a Hi). lia.
    + assert (i ∈ a :: l1) as [->|?]%elem_of_cons by (apply Hmem; by right);
        [|done].
      specialize (Hb a Hi). lia.
Qed.

Lemma all_terms_perm A x x' : x ≡ₚ x' → all_terms A x ≡ₚ all_terms A x'.
Proof. intros Hp. unfold all_terms. by rewrite Hp. Qed.

(** X3. The index list that [sp_mv] returns, and its length, do not depend
    on the order of the entries of [x], nor on the content of the scratch
    vector: two calls on permutations of one [x] return the same sorted
    indices.  (The values are the sums of the same products, taken in the
    order of the scan.) *)
Theorem sp_mv_support_order (A : sp_mat_c) (x x' : list (nat * float))
    (sv sv0 : list float) (flag mask : list Z) (nf : nat) :
  length sv = nf → length sv0 = nf → flag = replicate nf 0%Z →
  Forall (λ i, i < nf) (mat_ir A) →
  x ≡ₚ x' →
  ∃ yi sv1 sv2,
    sp_mv A x sv flag mask =
      (length yi, yi, row_product A x <$> yi, sv1, replicate nf 0%Z) ∧
    sp_mv A x' sv0 flag mask =
      (length yi, yi, row_product A x' <$> yi, sv2, replicate nf 0%Z).
Proof.
  intros Hsv Hsv0 Hflag HA Hp.
  destruct (sp_mv_spec A x sv flag mask nf Hsv Hflag
              (all_terms_rows A x nf HA))
    as (yi & sv1 & Heq & Hs & Hmem & _).
  destruct (sp_mv_spec A x' sv0 flag mask nf Hsv0 Hflag
              (all_terms_rows A x' nf HA))
    as (yi' & sv2 & Heq' & Hs' & Hmem' & _).
  assert (yi = yi') as <-.
  { apply sorted_lt_unique; [done|done|].
    intros i. rewrite Hmem, Hmem'.
    by rewrite (all_terms_perm A x x' Hp). }
  by exists yi, sv1, sv2.
Qed.

Lemma sp_mv_support_order_witness :
  length [7; 7; 7]%float = 3 ∧ length [1; 2; 3]%float = 3 ∧
  replicate 3 0%Z = replicate 3 0%Z ∧
  Forall (λ i, i < 3) (mat_ir tridiag3) ∧
  [(2, 1%float); (0, 2%float)] ≡ₚ [(0, 2%float); (2, 1%float)] ∧
  ∃ yi sv1 sv2,
    sp_mv tridiag3 [(2, 1%float); (0, 2%float)] [7; 7; 7]%float
      (replicate 3 0%Z) [-1; -1; -1]%Z =
      (length yi, yi,
       row_product tridiag3 [(2, 1%float); (0, 2%float)] <$> yi, sv1,
       replicate 3 0%Z) ∧
    sp_mv tridiag3 [(0, 2%float); (2, 1%float)] [1; 2; 3]%float
      (replicate 3 0%Z) [-1; -1; -1]%Z =
      (length yi, yi,
       row_product tridiag3 [(0, 2%float); (2, 1%float)] <$> yi, sv2,
       replicate 3 0%Z).
Proof.
  assert (Forall (λ i, i < 3) (mat_ir tridiag3)) as HA
    by (apply (bool_decide_unpack _); vm_compute; exact I).
  assert ([(2, 1%float); (0, 2%float)] ≡ₚ [(0, 2%float); (2, 1%float)])
    as Hp by apply perm_swap.
  refine (conj eq_refl (conj eq_refl (conj eq_refl (conj HA (conj Hp _))))).
  exact (sp_mv_support_order tridiag3 [(2, 1%float); (0, 2%float)]
           [(0, 2%float); (2, 1%float)] [7; 7; 7]%float [1; 2; 3]%float
           (replicate 3 0%Z) [-1; -1; -1]%Z 3 eq_refl eq_refl eq_refl HA Hp).
Defined.

(** ** [resid_update]: one-sided merges and bounds *)

Lemma foldl_resid_x mask x : ∀ st,
  foldl (resid_x mask) st x =
    {| rs_rnz := rs_rnz st + length (filter (λ e, admitted mask e.1) x);
       rs_r := rs_r st ++ filter (λ e, admitted mask e.1) x;
       rs_beta := rs_beta st |}.
Proof.
  induction x as [|e x IH]; intros st; simpl.
  - rewrite app_nil_r, Nat.add_0_r. by destruct st.
  - rewrite IH. unfold resid_x.
    destruct (resid_emit_r mask e.1 e.2 st) as (-> & -> & ->).
    rewrite filter_cons. destruct (decide (admitted mask e.1)); simpl.
    + rewrite <- app_assoc. simpl. destruct e. simpl.
      f_equal. lia.
    + done.
Qed.

Lemma foldl_resid_y mask alpha y : ∀ st,
  foldl (resid_y mask alpha) st y =
    {| rs_rnz := rs_rnz st + length (filter (λ e, admitted mask e.1) y);
       rs_r := rs_r st ++
               ((λ e, (e.1, (- alpha * e.2)%float))
                  <$> filter (λ e, admitted mask e.1) y);
       rs_beta := foldl (λ b e, <[e.1 := (e.2 * e.2)%float]> b)
                    (rs_beta st) y |}.
Proof.
  induction y as [|[iy yv] y IH]; intros st; simpl.
  - rewrite app_nil_r, Nat.add_0_r. by destruct st.
  - rewrite IH. unfold resid_y.
    destruct (resid_emit_r mask iy (- alpha * yv)%float
                (resid_set_beta iy (yv * yv)%float st)) as (-> & -> & ->).
    rewrite filter_cons. simpl. destruct (decide (admitted mask iy)); simpl.
    + rewrite <- app_assoc. simpl. f_equal. lia.
    + done.
Qed.

(** X4. The merge with an empty operand, whatever the order of the
    indices of the other.  With [y] empty, [r] is [x] restricted to the
    admitted indices and [beta] is not touched; with [x] empty, [r] is
    [-alpha*y] restricted to the admitted indices and [beta[i]] is set to
    [y_i*y_i] at every index of [y], admitted or not. *)
Theorem resid_update_one_sided (beta : list float) (v : list (nat * float))
    (alpha : float) (mask : list Z) :
  resid_update beta v alpha [] mask =
    {| rs_rnz := length (filter (λ e, admitted mask e.1) v);
       rs_r := filter (λ e, admitted mask e.1) v;
       rs_beta := beta |} ∧
  resid_update beta [] alpha v mask =
    {| rs_rnz := length (filter (λ e, admitted mask e.1) v);
       rs_r := (λ e, (e.1, (- alpha * e.2)%float))
                 <$> filter (λ e, admitted mask e.1) v;
       rs_beta := foldl (λ b e, <[e.1 := (e.2 * e.2)%float]> b) beta v |}.
Proof.
  unfold resid_update. split.
  - rewrite resid_merge_nil_r. cbn [foldl]. by rewrite foldl_resid_x.
  - rewrite resid_merge_nil_l. cbn [foldl]. by rewrite foldl_resid_y.
Qed.

Lemma resid_bound_step mask st st1 e1 x y x' y' final :
  rs_r st1 = rs_r st ++ e1 → rs_rnz st1 = rs_rnz st + length e1 →
  length e1 + length x' + length y' ≤ length x + length y →
  Forall (λ e, admitted mask e.1 ∧ (e.1 ∈ x.*1 ∨ e.1 ∈ y.*1)) e1 →
  x'.*1 ⊆ x.*1 → y'.*1 ⊆ y.*1 →
  length (rs_beta st1) = length (rs_beta st) →
  (∀ i, i ∉ y.*1 → rs_beta st1 !!! i = rs_beta st !!! i) →
  resid_bound mask st1 x' y' final → resid_bound mask st x y final.
Proof.
  intros Hr Hn Hlen He1 Hx Hy Hbl Hb (out & Hr' & Hn' & Hlen' & Hout & Hbl' & Hb').
  exists (e1 ++ out). split_and!.
  - by rewrite Hr', Hr, <- app_assoc.
  - rewrite Hn', Hn, length_app. lia.
  - rewrite length_app. lia.
  - apply Forall_app. split; [done|].
    eapply Forall_impl; [exact Hout|]. intros e [Ha [Hi|Hi]]; auto.
  - by rewrite Hbl', Hbl.
  - intros i Hi. rewrite Hb' by (intros ?; apply Hi; auto). by apply Hb.
Qed.

Lemma resid_bound_nil mask st : resid_bound mask st [] [] st.
Proof.
  exists []. rewrite app_nil_r, Nat.add_0_r. by split_and!.
Qed.

Lemma resid_emit_bound mask i v st :
  ∃ e1,
    rs_r (resid_emit mask i v st) = rs_r st ++ e1 ∧
    rs_rnz (resid_emit mask i v st) = rs_rnz st + length e1 ∧
    length e1 ≤ 1 ∧
    Forall (λ e : nat * float, admitted mask e.1 ∧ e.1 = i) e1 ∧
    rs_beta (resid_emit mask i v st) = rs_beta st.
Proof.
  destruct (resid_emit_r mask i v st) as (-> & -> & ->).
  destruct (decide (admitted mask i)).
  - exists [(i, v)]. simpl. split_and!; try done; try lia.
    by repeat constructor.
  - exists []. rewrite app_nil_r. simpl. split_and!; try done; lia.
Qed.

Lemma resid_run_bound mask alpha : ∀ n x y st,
  length x + length y ≤ n →
  resid_bound mask st x y (resid_run mask alpha x y st).
Proof.
  induction n as [|n IH]; intros x y st Hn.
  { destruct x, y; simpl in Hn; try lia. apply resid_bound_nil. }
  destruct x as [|[ix xv] x'].
  { destruct y as [|[iy yv] y']; [apply resid_bound_nil|].
    unfold resid_run. rewrite resid_merge_nil_l. cbn [foldl].
    assert (foldl (resid_y mask alpha) (resid_y mask alpha st (iy, yv)) y' =
            resid_run mask alpha [] y' (resid_y mask alpha st (iy, yv))) as ->.
    { unfold resid_run. by rewrite resid_merge_nil_l. }
    unfold resid_y.
    destruct (resid_emit_bound mask iy (- alpha * yv)%float
                (resid_set_beta iy (yv * yv)%float st))
      as (e1 & Hr & Hc & Hl & He & Hb).
    eapply (resid_bound_step mask st _ e1 [] ((iy, yv) :: y') [] y');
      try done.
    - simpl. lia.
    - eapply Forall_impl; [exact He|]. intros [i' v'] [Ha Hi']; simpl in Ha, Hi'; subst i'. split; [done|].
      right. simpl. by left.
    - simpl. intros i Hi. by right.
    - rewrite Hb. simpl. by rewrite length_insert.
    - intros i Hi. rewrite Hb. simpl.
      apply list_lookup_total_insert_ne. intros ->. apply Hi. simpl. by left.
    - apply IH. simpl in *. lia. }
  destruct y as [|[iy yv] y'].
  { unfold resid_run. rewrite resid_merge_nil_r. cbn [foldl].
    pose proof (resid_merge_nil_r mask alpha x' (resid_x mask st (ix, xv)))
      as Hm.
    assert (foldl (resid_x mask) (resid_x mask st (ix, xv)) x' =
            resid_run mask alpha x' [] (resid_x mask st (ix, xv))) as ->.
    { unfold resid_run. by rewrite Hm. }
    unfold resid_x.
    destruct (resid_emit_bound mask ix xv st)
      as (e1 & Hr & Hc & Hl & He & Hb).
    eapply (resid_bound_step mask st _ e1 ((ix, xv) :: x') [] x' []);
      try done.
    - simpl in *. lia.
    - eapply Forall_impl; [exact He|]. intros [i' v'] [Ha Hi']; simpl in Ha, Hi'; subst i'. split; [done|].
      left. simpl. by left.
    - simpl. intros i Hi. by right.
    - by rewrite Hb.
    - intros i _. by rewrite Hb.
    - apply IH. simpl in *. lia. }
  unfold resid_run. rewrite resid_merge_cons.
  destruct (decide (ix < iy)) as [Hlt|Hge];
    [|destruct (decide (iy < ix)) as [Hgt|Heq]].
  - fold (resid_run mask alpha x' ((iy, yv) :: y') (resid_x mask st (ix, xv))).
    unfold resid_x.
    destruct (resid_emit_bound mask ix xv st)
      as (e1 & Hr & Hc & Hl & He & Hb).
    eapply (resid_bound_step mask st _ e1 _ _ x' ((iy, yv) :: y'));
      try done.
    + simpl in *. lia.
    + eapply Forall_impl; [exact He|]. intros [i' v'] [Ha Hi']; simpl in Ha, Hi'; subst i'. split; [done|].
      left. simpl. by left.
    + simpl. intros i Hi. by right.
    + by rewrite Hb.
    + intros i _. by rewrite Hb.
    + apply IH. simpl in *. lia.
  - fold (resid_run mask alpha ((ix, xv) :: x') y'
            (resid_y mask alpha st (iy, yv))).
    unfold resid_y.
    destruct (resid_emit_bound mask iy (- alpha * yv)%float
                (resid_set_beta iy (yv * yv)%float st))
      as (e1 & Hr & Hc & Hl & He & Hb).
    eapply (resid_bound_step mask st _ e1 _ _ ((ix, xv) :: x') y');
      try done.
    + simpl in *. lia.
    + eapply Forall_impl; [exact He|]. intros [i' v'] [Ha Hi']; simpl in Ha, Hi'; subst i'. split; [done|].
      right. simpl. by left.
    + simpl. intros i Hi. by right.
    + rewrite Hb. simpl. by rewrite length_insert.
    + intros i Hi. rewrite Hb. simpl.
      apply list_lookup_total_insert_ne. intros ->. apply Hi. simpl. by left.
    + apply IH. simpl in *. lia.
  - fold (resid_run mask alpha x' y' (resid_xy mask alpha st iy xv yv)).
    unfold resid_xy.
    destruct (resid_emit_bound mask iy (xv - alpha * yv)%float
                (resid_set_beta iy (rs_beta st !!! iy + yv * yv)%float st))
      as (e1 & Hr & Hc & Hl & He & Hb).
    eapply (resid_bound_step mask st _ e1 _ _ x' y'); try done.
    + simpl in *. lia.
    + eapply Forall_impl; [exact He|]. intros [i' v'] [Ha Hi']; simpl in Ha, Hi'; subst i'. split; [done|].
      right. simpl. by left.
    + simpl. intros i Hi. by right.
    + simpl. intros i Hi. by right.
    + rewrite Hb. simpl. by rewrite length_insert.
    + intros i Hi. rewrite Hb. simpl.
      apply list_lookup_total_insert_ne. intros ->. apply Hi. simpl. by left.
    + apply IH. simpl in *. lia.
Qed.

Lemma resid_update_bound beta x alpha y mask :
  resid_bound mask {| rs_rnz := 0; rs_r := []; rs_beta := beta |} x y
    (resid_update beta x alpha y mask).
Proof.
  apply (resid_run_bound mask alpha (length x + length y) x y
           {| rs_rnz := 0; rs_r := []; rs_beta := beta |}). lia.
Qed.

(** X5. Whatever the order of the indices of [x] and [y]: the value
    returned by [resid_update] is the number of entries it wrote; it
    writes at most [xn + yn] of them; every index written is admitted and
    is an index of [x] or of [y]; [beta] keeps its length, and its entries
    at indices that are not in [y]. *)
Theorem resid_update_bounds (beta : list float) (x : list (nat * float))
    (alpha : float) (y : list (nat * float)) (mask : list Z) :
  let rs := resid_update beta x alpha y mask in
  rs_rnz rs = length (rs_r rs) ∧
  length (rs_r rs) ≤ length x + length y ∧
  Forall (λ e, admitted mask e.1 ∧ (e.1 ∈ x.*1 ∨ e.1 ∈ y.*1)) (rs_r rs) ∧
  length (rs_beta rs) = length beta ∧
  (∀ i, i ∉ y.*1 → rs_beta rs !!! i = beta !!! i).
Proof.
  intros rs.
  destruct (resid_update_bound beta x alpha y mask)
    as (out & Hr & Hn & Hlen & Hout & Hbl & Hb).
  fold rs in Hr, Hn, Hbl, Hb. simpl in *. subst out. by split_and!.
Qed.

(** ** The stopping policy *)

(** [while(norm>tol)] returns after [n] runs of its body, where [n] is the
    first count at which [norm > tol] fails. *)
Lemma expand_loop_iter `{ops : triangular_ops} STOP_TEST A D u tol j :
  ∀ fuel st st',
  expand_loop STOP_TEST fuel A D u tol j st = Some st' ↔
  ∃ n, n < fuel ∧
       st' = Nat.iter n (expand STOP_TEST A D u j) st ∧
       (tol <? st_norm st')%float = false ∧
       ∀ m, m < n →
         (tol <? st_norm (Nat.iter m (expand STOP_TEST A D u j) st))%float
           = true.
Proof.
  induction fuel as [|fuel IH]; intros st st'.
  { simpl. split; [done|]. intros (n & Hn & _). lia. }
  cbn [expand_loop].
  destruct (tol <? st_norm st)%float eqn:Hgo.
  - rewrite IH. split.
    + intros (n & Hn & -> & Hstop & Hrun). exists (S n).
      rewrite Nat.iter_succ_r. split_and!; [lia|done|done|].
      intros [|m] Hm; [done|]. rewrite Nat.iter_succ_r. apply Hrun. lia.
    + intros (n & Hn & -> & Hstop & Hrun). destruct n as [|n].
      { simpl in Hstop. congruence. }
      exists n. rewrite Nat.iter_succ_r in Hstop |- *.
      split_and!; [lia|done|done|].
      intros m Hm. specialize (Hrun (S m)). rewrite Nat.iter_succ_r in Hrun.
      apply Hrun. lia.
  - split.
    + intros [= <-]. exists 0. split_and!; [lia|done|done|]. intros m Hm. lia.
    + intros (n & Hn & -> & Hstop & Hrun). destruct n as [|n]; [done|].
      specialize (Hrun 0 ltac:(lia)). simpl in Hrun. congruence.
Qed.

(** The norm that an iteration leaves is the norm of the residual and of
    the [beta] that it leaves. *)
Lemma expand_norm `{ops : triangular_ops} STOP_TEST A D u j st
    (g : float → float → float) :
  (∀ a b, norm_update STOP_TEST a b = g a b) →
  let st' := expand STOP_TEST A D u j st in
  st_norm st' =
    match norm_terms D (st_beta st') (st_r st') with
    | [] => 0%float
    | t :: ts => foldl g t ts
    end.
Proof.
  intros Hg. unfold expand. cbv zeta.
  destruct (sp_mv _ _ _ _ _) as [[[[Aqk_nz Aqk_i] Aqk_p] sp] flag].
  match goal with
  | |- context [rescan _ _ (rs_beta ?rs0) _ _ _ _] => set (rs := rs0)
  end.
  destruct (resid_update_bound (st_beta st)
              (zip (take (st_rnz st) (st_r st).*1)
                 (take (st_rnz st)
                    (write_at 0 (take (st_rnz st) (st_r st).*2) sp)))
              (st_w st) (take Aqk_nz (zip Aqk_i Aqk_p))
              (<[st_s st := Z.of_nat (st_k st)]> (st_map_to_Qi st)))
    as (out & Hr & Hn & _).
  fold rs in Hr, Hn. simpl in Hr, Hn. subst out.
  destruct (rescan STOP_TEST D (rs_beta rs) (rs_rnz rs) (rs_r rs)
              (st_s st) (st_w st)) as [[s' w'] norm'] eqn:Hres.
  cbn [st_norm st_beta st_r].
  assert (norm' = (rescan STOP_TEST D (rs_beta rs) (rs_rnz rs) (rs_r rs)
                     (st_s st) (st_w st)).2) as -> by by rewrite Hres.
  destruct (decide (0 < rs_rnz rs)) as [Hpos|Hzero].
  - rewrite rescan_fold by done. rewrite Hn.
    by rewrite (scan_norm STOP_TEST (cand D (rs_beta rs)) (rs_r rs) g)
      by (done || lia).
  - unfold rescan. destruct (decide (0 < rs_rnz rs)); [done|].
    destruct (rs_r rs); [done|simpl in Hn; lia].
Qed.

(** The loaded column: [r] is column [j] of [B], [beta] is zero on its
    rows, and [norm] folds the terms [|r_i/D_i|]. *)
Lemma load_column_norm `{ops : triangular_ops} STOP_TEST B D j nf st0
    (g : float → float → float) :
  (∀ a b, norm_update STOP_TEST a b = g a b) →
  skel_inv nf st0 → csc_wf B → mat_m B = nf → j < mat_n B →
  1 ≤ mat_jc B !!! (j + 1) - mat_jc B !!! j →
  let ld := load_column STOP_TEST B D j (begin_column B j st0) in
  st_r ld = column B j ∧
  (∀ e, e ∈ st_r ld → st_beta ld !!! e.1 = 0%float) ∧
  st_norm ld =
    match norm_terms D (st_beta ld) (st_r ld) with
    | [] => 0%float
    | t :: ts => foldl g t ts
    end.
Proof.
  intros Hg (_ & _ & _ & Hbeta & _) Hwf Hm Hj Hrnz ld.
  destruct (csc_wf_column B j Hwf Hj) as (Hlen & _ & Hrows).
  subst ld. unfold load_column. cbn [begin_column st_beta st_rnz].
  rewrite <- Hlen in *.
  pose proof (λ e, init_scan_beta_zero STOP_TEST D (st_beta st0)
                     (column B j) e) as Hzero.
  pose proof (init_scan_fold STOP_TEST D (st_beta st0)
                (length (column B j)) (column B j)) as Hfold.
  destruct (init_scan STOP_TEST D (st_beta st0) (length (column B j))
              (column B j)) as [beta [[s w] norm]].
  cbn [st_r st_beta st_norm]. simpl in Hzero.
  assert (∀ e, e ∈ column B j → beta !!! e.1 = 0%float) as Hz.
  { intros e He. apply Hzero; [done|].
    rewrite Forall_forall in Hrows. rewrite Hbeta, <- Hm. by apply Hrows. }
  split_and!; [done|done|].
  apply (f_equal (λ p, p.2.2)) in Hfold. cbn [snd] in Hfold. subst norm.
  rewrite (scan_norm STOP_TEST (cand0 D) (column B j) g) by (done || lia).
  unfold norm_terms.
  replace ((λ e : nat * float, (cand0 D e).2) <$> column B j)
    with ((λ e : nat * float, abs (e.2 / (D !!! e.1 - beta !!! e.1)))
            <$> column B j); [done|].
  apply list_fmap_ext. intros k e Hk. simpl.
  rewrite Hz by by eapply list_elem_of_lookup_2. by rewrite sub_zero_r.
Qed.

(** The loop over the columns solves them one after the other with one
    tolerance. *)
Lemma solve_columns_fold `{ops : triangular_ops} STOP_TEST fuel A B D u tol :
  ∀ js st,
  solve_columns STOP_TEST fuel A B D u tol st js =
    foldl (λ acc j, acc ≫= λ st, solve_column STOP_TEST fuel A B D u tol st j)
      (Some st) js.
Proof.
  induction js as [|j js IH]; intros st; [done|].
  cbn [solve_columns foldl mbind option_bind].
  destruct (solve_column STOP_TEST fuel A B D u tol st j) as [st1|];
    [by apply IH|].
  cbn [mbind option_bind]. clear IH.
  induction js as [|j' js IH]; [done|]. by cbn [foldl mbind option_bind].
Qed.

(** C4. The driver rescales the tolerance once, on entry: under policy 1
    [tol] becomes [tol * (0.5 * tol)], that is tol²/2, under policy 2 (the
    default) [tol * 0.5], and every column of the run is solved with the
    rescaled value [t].  For a column [j] of [B] that is not empty, the
    solver enters its loop with the residual [r = B e_j], with [beta]
    zero on the rows of [r], and with the norm of that state; every
    iteration leaves the norm of the state it leaves, where the norm of a
    state is the maximum under policy 1, and the sum under policy 2, of
    the terms [|r_i / (D_i - beta_i)|] of its residual.  The loop runs its
    body exactly while [norm > t]: the solve of the column returns after
    [n] iterations if and only if the norm then does not exceed [t] and
    the norm before each of the [n] iterations did. *)
Theorem stopping_policy `{ops : triangular_ops} (STOP_TEST fuel : nat)
    (X_sum : list float) (A B : sp_mat_c) (D u : list float) (tol : float)
    (j nf : nat) (st0 : state) :
  skel_inv nf st0 → csc_wf B → mat_m B = nf → j < mat_n B →
  1 ≤ mat_jc B !!! (j + 1) - mat_jc B !!! j →
  let t := adjust_tol STOP_TEST tol in
  let ld := load_column STOP_TEST B D j (begin_column B j st0) in
  let body := expand STOP_TEST A D u j in
  (STOP_TEST = 1 → t = (tol * (0.5 * tol))%float) ∧
  (STOP_TEST = 2 → t = (tol * 0.5)%float) ∧
  interp_skel_run STOP_TEST fuel X_sum A B D u tol =
    foldl (λ acc j, acc ≫= λ st, solve_column STOP_TEST fuel A B D u t st j)
      (Some (init_state B X_sum)) (seq 0 (mat_n B)) ∧
  st_r ld = column B j ∧
  (∀ e, e ∈ st_r ld → st_beta ld !!! e.1 = 0%float) ∧
  (STOP_TEST = 1 →
     st_norm ld = max_norm (norm_terms D (st_beta ld) (st_r ld)) ∧
     ∀ st, st_norm (body st) =
             max_norm (norm_terms D (st_beta (body st)) (st_r (body st)))) ∧
  (STOP_TEST = 2 →
     st_norm ld = sum_norm (norm_terms D (st_beta ld) (st_r ld)) ∧
     ∀ st, st_norm (body st) =
             sum_norm (norm_terms D (st_beta (body st)) (st_r (body st)))) ∧
  (∀ fuel' st',
     solve_column STOP_TEST fuel' A B D u t st0 j = Some st' ↔
     ∃ n, n < fuel' ∧
          st' = finish_column (Nat.iter n body ld) ∧
          (t <? st_norm (Nat.iter n body ld))%float = false ∧
          ∀ m, m < n → (t <? st_norm (Nat.iter m body ld))%float = true).
Proof.
  intros Hskel Hwf Hm Hj Hrnz t ld body.
  assert (∀ g, (∀ a b, norm_update STOP_TEST a b = g a b) →
            st_r ld = column B j ∧
            (∀ e, e ∈ st_r ld → st_beta ld !!! e.1 = 0%float) ∧
            st_norm ld =
              match norm_terms D (st_beta ld) (st_r ld) with
              | [] => 0%float
              | t :: ts => foldl g t ts
              end) as Hload.
  { intros g Hg. by apply (load_column_norm STOP_TEST B D j nf st0 g). }
  split; [|split; [|split; [|split; [|split; [|split; [|split]]]]]].
  - intros ->. done.
  - intros ->. done.
  - apply solve_columns_fold.
  - by destruct (Hload (norm_update STOP_TEST)).
  - by destruct (Hload (norm_update STOP_TEST)) as (_ & ? & _).
  - intros H1.
    assert (∀ a b, norm_update STOP_TEST a b = fmax a b) as Hg
      by (intros a b; by rewrite H1).
    split; [by destruct (Hload fmax Hg) as (_ & _ & ?)|].
    intros st. by apply (expand_norm STOP_TEST A D u j st fmax).
  - intros H2.
    assert (∀ a b, norm_update STOP_TEST a b = (a + b)%float) as Hg
      by (intros a b; by rewrite H2).
    split; [by destruct (Hload _ Hg) as (_ & _ & ?)|].
    intros st. by apply (expand_norm STOP_TEST A D u j st _ Hg).
  - intros fuel' st'. unfold solve_column.
    destruct (decide (st_rnz (begin_column B j st0) < 1)) as [Hn|_];
      [simpl in Hn; lia|].
    fold ld. split.
    + destruct (expand_loop STOP_TEST fuel' A D u t j ld) as [st1|] eqn:Hrun;
        [|done].
      intros [= <-].
      apply expand_loop_iter in Hrun as (n & Hn & -> & Hstop & Hgo).
      by exists n.
    + intros (n & Hn & -> & Hstop & Hgo).
      assert (expand_loop STOP_TEST fuel' A D u t j ld =
                Some (Nat.iter n body ld)) as ->; [|done].
      apply expand_loop_iter. by exists n.
Qed.

Lemma stopping_policy_witness :
  let st0 := init_state col11 [0; 0]%float in
  let ld := load_column 2 col11 [4; 9]%float 0 (begin_column col11 0 st0) in
  skel_inv 2 st0 ∧ csc_wf col11 ∧ mat_m col11 = 2 ∧ 0 < mat_n col11 ∧
  1 ≤ mat_jc col11 !!! (0 + 1) - mat_jc col11 !!! 0 ∧
  adjust_tol 2 0x1p-10 = (0x1p-10 * 0.5)%float ∧
  st_norm ld = sum_norm (norm_terms [4; 9]%float (st_beta ld) (st_r ld)) ∧
  @solve_column spec_ops 2 3 diag49 col11 [4; 9]%float [1]%float
    (adjust_tol 2 0x1p-10) st0 0 =
    Some (finish_column
            (Nat.iter 2 (@expand spec_ops 2 diag49 [4; 9]%float [1]%float 0)
               ld)).
Proof.
  intros st0 ld.
  assert (skel_inv 2 st0) as Hskel by apply (skel_inv_init col11).
  assert (csc_wf col11) as HB
    by (apply (bool_decide_unpack _); vm_compute; exact I).
  assert (0 < mat_n col11) as Hj by (simpl; lia).
  assert (1 ≤ mat_jc col11 !!! (0 + 1) - mat_jc col11 !!! 0) as Hrnz
    by (vm_compute; lia).
  refine (conj Hskel (conj HB (conj eq_refl (conj Hj (conj Hrnz _))))).
  destruct (@stopping_policy spec_ops 2 3 [0; 0]%float diag49 col11
              [4; 9]%float [1]%float 0x1p-10%float 0 2 st0 Hskel HB eq_refl
              Hj Hrnz) as (_ & Ht & _ & _ & _ & _ & Hsum & Hloop).
  split; [exact (Ht eq_refl)|].
  split; [exact (proj1 (Hsum eq_refl))|].
  apply Hloop. exists 2.
  split; [lia|]. split; [reflexivity|].
  split; [vm_compute; reflexivity|].
  intros [|[|m]] Hm; [vm_compute; reflexivity|vm_compute; reflexivity|lia].
Defined.

(** ** [heap_sort] as a canonical form; the rescan *)

Lemma sorted_le_unique (l1 l2 : list nat) :
  StronglySorted le l1 → StronglySorted le l2 → l1 ≡ₚ l2 → l1 = l2.
Proof.
  apply StronglySorted_unique_strong. intros x1 x2 _ _ H1 H2. lia.
Qed.

Lemma heap_sort_rebuild un uv :
  un ≤ length uv →
  heap_sort un uv = take un (heap_sort un uv) ++ drop un uv.
Proof.
  intros Hun. destruct (heap_sort_spec un uv Hun) as (_ & _ & Hd & _).
  by rewrite <- Hd, take_drop.
Qed.

(** X6. [heap_sort] is a canonical form of the first [un] entries: two
    arrays whose first [un] entries are permutations of one another sort
    to the same [un] entries; sorting twice is sorting once; an array
    whose first [un] entries ascend is left as it is; and the length is
    kept. *)
Theorem heap_sort_canonical (un : nat) (uv uv' : list nat) :
  un ≤ length uv → un ≤ length uv' → take un uv ≡ₚ take un uv' →
  take un (heap_sort un uv) = take un (heap_sort un uv') ∧
  heap_sort un (heap_sort un uv) = heap_sort un uv ∧
  (StronglySorted le (take un uv) → heap_sort un uv = uv) ∧
  length (heap_sort un uv) = length uv.
Proof.
  intros Hun Hun' Hperm.
  destruct (heap_sort_spec un uv Hun) as (Hs & Hp & Hd & Hl).
  destruct (heap_sort_spec un uv' Hun') as (Hs' & Hp' & _ & _).
  assert (∀ w, un ≤ length w → StronglySorted le (take un w) →
            heap_sort un w = w) as Hfix.
  { intros w Hw Hsw.
    destruct (heap_sort_spec un w Hw) as (Hs1 & Hp1 & Hd1 & _).
    rewrite heap_sort_rebuild by done.
    rewrite (sorted_le_unique _ _ Hs1 Hsw Hp1). apply take_drop. }
  split_and!.
  - apply sorted_le_unique; [done|done|]. by rewrite Hp, Hp'.
  - apply Hfix; [lia|done].
  - by apply Hfix.
  - done.
Qed.

Lemma heap_sort_canonical_witness :
  3 ≤ length [5; 3; 9; 1] ∧ 3 ≤ length [9; 5; 3] ∧
  take 3 [5; 3; 9; 1] ≡ₚ take 3 [9; 5; 3] ∧
  take 3 (heap_sort 3 [5; 3; 9; 1]) = take 3 (heap_sort 3 [9; 5; 3]) ∧
  heap_sort 3 (heap_sort 3 [5; 3; 9; 1]) = heap_sort 3 [5; 3; 9; 1] ∧
  (StronglySorted le (take 3 [5; 3; 9; 1]) →
   heap_sort 3 [5; 3; 9; 1] = [5; 3; 9; 1]) ∧
  length (heap_sort 3 [5; 3; 9; 1]) = length [5; 3; 9; 1].
Proof.
  assert (3 ≤ length [5; 3; 9; 1]) as H1 by (simpl; lia).
  assert (3 ≤ length [9; 5; 3]) as H2 by (simpl; lia).
  assert (take 3 [5; 3; 9; 1] ≡ₚ take 3 [9; 5; 3]) as Hp.
  { simpl. apply (bool_decide_unpack _). vm_compute. exact I. }
  refine (conj H1 (conj H2 (conj Hp _))).
  exact (heap_sort_canonical 3 [5; 3; 9; 1] [9; 5; 3] H1 H2 Hp).
Defined.

Lemma rescan_best STOP_TEST D beta (r : list (nat * float)) s w :
  0 < length r →
  let res := rescan STOP_TEST D beta (length r) r s w in
  ∃ p e,
    r !! p = Some e ∧ res.1.1 = e.1 ∧ res.1.2 = score D beta e ∧
    (∀ q e', r !! q = Some e' →
       (abs res.1.2 <? abs (score D beta e'))%float = false) ∧
    (∀ q e', q < p → r !! q = Some e' →
       (abs res.1.2 <=? abs (score D beta e'))%float = false).
Proof.
  intros Hr res. subst res. rewrite rescan_fold by done.
  destruct (pick_fold_spec STOP_TEST (cand D beta (r !!! 0))
              (cand D beta <$> drop 1 (take (length r) r)))
    as (p & tn & Hp & Hmax & Hfirst & _).
  rewrite <- fmap_cons, head_tail_total in Hp, Hmax, Hfirst by done.
  apply list_lookup_fmap_Some in Hp as (e & Hfe & He).
  exists p, e. unfold cand in Hfe. injection Hfe as Hs Hw _.
  split_and!; [done|done|done| |].
  - intros q e' Hq.
    apply (Hmax q (cand D beta e')). by rewrite list_lookup_fmap, Hq.
  - intros q e' Hqp Hq.
    apply (Hfirst q (cand D beta e') Hqp). by rewrite list_lookup_fmap, Hq.
Qed.

Lemma expand_rescan `{ops : triangular_ops} STOP_TEST A D u j st :
  let st' := expand STOP_TEST A D u j st in
  st_rnz st' = length (st_r st') ∧
  (st_s st', st_w st', st_norm st') =
    rescan STOP_TEST D (st_beta st') (st_rnz st') (st_r st')
      (st_s st) (st_w st).
Proof.
  unfold expand. cbv zeta.
  destruct (sp_mv _ _ _ _ _) as [[[[Aqk_nz Aqk_i] Aqk_p] sp] flag].
  match goal with
  | |- context [resid_update ?b ?x ?a ?y ?m] =>
      destruct (resid_update_bound b x a y m) as (out & Hr & Hrnz & _);
      set (rs := resid_update b x a y m) in *;
      simpl in Hr, Hrnz; subst out
  end.
  destruct (rescan _ _ _ _ _ _ _) as [[s' w'] norm'] eqn:Hres.
  simpl. split; [done|]. by rewrite Hres.
Qed.

(** X7. After every iteration of the expansion loop (lines 345-358): if
    the updated residual is not empty, the next pivot [s] is one of its
    indices and [w] is the weight [r_s / sqrt(D_s - beta_s)] of that entry,
    with the updated [beta]; no entry of the residual has a weight of
    larger magnitude, and no earlier entry one of equal or larger
    magnitude.  If the residual is empty, [s] and [w] stay as they were and
    the norm is [0.0]. *)
Theorem later_pivots_are_best `{ops : triangular_ops} (STOP_TEST : nat)
    (A : sp_mat_c) (D u : list float) (j : nat) (st : state) :
  let st' := expand STOP_TEST A D u j st in
  (0 < st_rnz st' →
   ∃ p e,
     st_r st' !! p = Some e ∧ st_s st' = e.1 ∧
     st_w st' = score D (st_beta st') e ∧
     (∀ q e', st_r st' !! q = Some e' →
        (abs (st_w st') <? abs (score D (st_beta st') e'))%float = false) ∧
     (∀ q e', q < p → st_r st' !! q = Some e' →
        (abs (st_w st') <=? abs (score D (st_beta st') e'))%float = false)) ∧
  (st_rnz st' = 0 →
   st_s st' = st_s st ∧ st_w st' = st_w st ∧ st_norm st' = 0%float).
Proof.
  intros st'. destruct (expand_rescan STOP_TEST A D u j st) as (Hrnz & Hres).
  fold st' in Hrnz, Hres. split.
  - intros Hpos. rewrite Hrnz in Hres, Hpos.
    destruct (rescan_best STOP_TEST D (st_beta st') (st_r st')
                (st_s st) (st_w st) Hpos)
      as (p & e & Hp & Hs & Hw & Hmax & Hfirst).
    rewrite <- Hres in Hs, Hw, Hmax, Hfirst. simpl in *.
    by exists p, e.
  - intros Hzero. rewrite Hzero in Hres. unfold rescan in Hres.
    destruct (decide (0 < 0)); [lia|]. by injection Hres as -> -> ->.
Qed.

Lemma later_pivots_are_best_witness :
  let st' := @expand spec_ops 2 diag49 [4; 9]%float [1]%float 0
               (load_column 2 col11 [4; 9]%float 0
                  (begin_column col11 0 (init_state col11 [0; 0]%float))) in
  0 < st_rnz st' ∧
  ∃ p e,
    st_r st' !! p = Some e ∧ st_s st' = e.1 ∧
    st_w st' = score [4; 9]%float (st_beta st') e ∧
    (∀ q e', st_r st' !! q = Some e' →
       (abs (st_w st') <? abs (score [4; 9]%float (st_beta st') e'))%float
         = false) ∧
    (∀ q e', q < p → st_r st' !! q = Some e' →
       (abs (st_w st') <=? abs (score [4; 9]%float (st_beta st') e'))%float
         = false).
Proof.
  intros st'.
  assert (0 < st_rnz st') as Hpos by (vm_compute; lia).
  refine (conj Hpos _).
  exact (proj1 (@later_pivots_are_best spec_ops 2 diag49 [4; 9]%float
                  [1]%float 0
                  (load_column 2 col11 [4; 9]%float 0
                     (begin_column col11 0 (init_state col11 [0; 0]%float))))
           Hpos).
Defined.

(** ** Invariants of the loop over the columns *)

Section Keeps.
Context {ops : triangular_ops}.
Variable STOP_TEST : nat.
Variables (A B : sp_mat_c) (D u : list float) (nf : nat) (tol : float).
Variable P : state → Prop.
Hypothesis HA : Forall (λ i, i < nf) (mat_ir A).
Hypothesis Htol : (tol <? 0)%float = false.
Hypothesis HB : csc_wf B.
Hypothesis Hm : mat_m B = nf.
Hypothesis Pbegin : ∀ j st, skel_inv nf st → P st → P (begin_column B j st).
Hypothesis Pload : ∀ j st, P st → P (load_column STOP_TEST B D j st).
Hypothesis Pexpand : ∀ j st,
  j < mat_n B → 1 ≤ mat_jc B !!! (j + 1) - mat_jc B !!! j →
  col_inv nf tol st → (tol <? st_norm st)%float = true →
  P st → P (expand STOP_TEST A D u j st).
Hypothesis Pfinish : ∀ st, col_inv nf tol st → P st → P (finish_column st).

Lemma expand_loop_keeps j : ∀ fuel st,
  j < mat_n B → 1 ≤ mat_jc B !!! (j + 1) - mat_jc B !!! j →
  col_inv nf tol st → P st → nf - st_k st < fuel →
  ∃ st',
    expand_loop STOP_TEST fuel A D u tol j st = Some st' ∧
    col_inv nf tol st' ∧ P st'.
Proof.
  induction fuel as [|fuel IH]; intros st Hj Hrnz Hinv HP Hfuel; [lia|].
  simpl. destruct (tol <? st_norm st)%float eqn:Hgo; [|by exists st].
  destruct (expand_inv STOP_TEST A D u j nf tol st HA Htol Hinv Hgo)
    as (Hinv' & _ & _ & _ & Hk).
  assert (st_k (expand STOP_TEST A D u j st) ≤ nf) as Hbound.
  { destruct Hinv' as (_ & _ & Hlen & Hnd & Hpiv & _).
    rewrite <- Hlen. by apply bounded_nodup_length. }
  apply IH; [done|done|done|by apply Pexpand|lia].
Qed.

Lemma solve_column_keeps fuel st j :
  skel_inv nf st → P st → j < mat_n B → nf < fuel →
  ∃ st',
    solve_column STOP_TEST fuel A B D u tol st j = Some st' ∧
    skel_inv nf st' ∧ P st'.
Proof.
  intros Hinv HP Hj Hfuel. unfold solve_column.
  destruct (decide (st_rnz (begin_column B j st) < 1)) as [Hempty|Hne].
  - exists (begin_column B j st). split_and!; [done| |by apply Pbegin].
    by destruct Hinv as (? & ? & ? & ? & ?).
  - destruct (load_column_inv STOP_TEST B D j nf tol st Hinv HB Hm Hj Hne)
      as (Hcol & _).
    destruct (expand_loop_keeps j fuel _ Hj ltac:(simpl in Hne; lia) Hcol
                (Pload j _ (Pbegin j st Hinv HP)) ltac:(lia))
      as (st1 & -> & Hinv1 & HP1).
    cbn [mbind option_bind]. eexists. split; [done|].
    split; [|by apply Pfinish].
    by destruct (finish_column_spec nf tol st1 Hinv1) as (? & _ & _ & _ & ? & _).
Qed.

Lemma solve_columns_keeps fuel : ∀ js st,
  skel_inv nf st → P st → Forall (λ j, j < mat_n B) js → nf < fuel →
  ∃ st',
    solve_columns STOP_TEST fuel A B D u tol st js = Some st' ∧
    skel_inv nf st' ∧ P st'.
Proof.
  induction js as [|j js IH]; intros st Hinv HP Hjs Hfuel.
  - by exists st.
  - apply Forall_cons in Hjs as [Hj Hjs].
    destruct (solve_column_keeps fuel st j Hinv HP Hj Hfuel)
      as (st1 & Hrun & Hinv1 & HP1).
    cbn [solve_columns]. rewrite Hrun. cbn [mbind option_bind].
    by apply IH.
Qed.

End Keeps.

Lemma expand_fields `{ops : triangular_ops} STOP_TEST A D u j st :
  let st' := expand STOP_TEST A D u j st in
  st_ir st' = st_ir st ++ [st_s st] ∧
  st_iri st' = S (st_iri st) ∧
  st_nzmax st' = (if decide (st_iri st = st_nzmax st) then st_nzmax st * 2
                  else st_nzmax st) ∧
  st_jc st' = st_jc st ∧
  st_Qi st' = st_Qi st ∧
  st_k st' = st_k st + 1 ∧
  st_qk st' = st_qk st + (st_k st + 1) ∧
  st_max_Q st' = (if decide (st_max_Q st < st_k st + 1) then st_max_Q st * 2
                  else st_max_Q st) ∧
  ∃ Q : list float,
    st_X_sum st' =
      foldl (λ X m, <[Qi_at (st_ir st ++ [st_s st]) (st_Qi st) m :=
                        (X !!! Qi_at (st_ir st ++ [st_s st]) (st_Qi st) m
                         + u !!! j * st_w st * qk_at Q (st_qk st) m)%float]> X)
        (st_X_sum st) (seq 0 (st_k st + 1)).
Proof.
  unfold expand. cbv zeta.
  destruct (sp_mv _ _ _ _ _) as [[[[? ?] ?] ?] ?].
  destruct (rescan _ _ _ _ _ _ _) as [[? ?] ?]. simpl.
  split_and!; try done. by eexists.
Qed.

Lemma load_column_keeps_fields `{ops : triangular_ops} STOP_TEST B D j st :
  let ld := load_column STOP_TEST B D j st in
  st_ir ld = st_ir st ∧ st_iri ld = st_iri st ∧ st_nzmax ld = st_nzmax st ∧
  st_X_sum ld = st_X_sum st ∧ st_Q ld = st_Q st ∧ st_max_Q ld = st_max_Q st ∧
  st_k ld = st_k st ∧ st_qk ld = st_qk st ∧ st_jc ld = st_jc st.
Proof.
  unfold load_column.
  by destruct (init_scan _ _ _ _ _) as [beta [[s w] norm]].
Qed.

Lemma col_inv_pivot nf tol st :
  col_inv nf tol st → (tol <? st_norm st)%float = true →
  st_s st < nf ∧ st_s st ∉ pivots st.
Proof.
  intros (_ & _ & _ & _ & _ & _ & _ & _ & _ & _ & _ & _ & _ & Hr & Hs) Hgo.
  specialize (Hs Hgo). apply list_elem_of_fmap in Hs as (e & -> & He).
  rewrite Forall_forall in Hr. by apply Hr.
Qed.

Lemma col_inv_length nf tol st :
  col_inv nf tol st → length (st_ir st) = st_Qi st + st_k st.
Proof.
  intros (_ & HQi & Hk & _). unfold pivots in Hk.
  rewrite length_drop in Hk. lia.
Qed.

Lemma finish_column_ir nf tol st :
  col_inv nf tol st → st_ir (finish_column st) ≡ₚ st_ir st.
Proof.
  intros Hinv.
  destruct (finish_column_spec nf tol st Hinv) as (col & -> & Hp & _).
  rewrite Hp. unfold pivots. by rewrite take_drop.
Qed.

Section Rows.
Context {ops : triangular_ops}.
Variable STOP_TEST : nat.

Lemma rows_expand A D u j nf tol st :
  col_inv nf tol st → (tol <? st_norm st)%float = true →
  Forall (λ i, i < nf) (st_ir st) →
  Forall (λ i, i < nf) (st_ir (expand STOP_TEST A D u j st)).
Proof.
  intros Hinv Hgo Hrows.
  destruct (expand_fields STOP_TEST A D u j st) as (-> & _).
  apply Forall_app. split; [done|].
  constructor; [|constructor]. by apply (col_inv_pivot nf tol).
Qed.

Lemma rows_finish nf tol st :
  col_inv nf tol st →
  Forall (λ i, i < nf) (st_ir st) →
  Forall (λ i, i < nf) (st_ir (finish_column st)).
Proof. intros Hinv Hrows. by rewrite (finish_column_ir nf tol st Hinv). Qed.

Lemma rows_run fuel X_sum A B D u tol :
  csc_wf B → Forall (λ i, i < mat_m B) (mat_ir A) →
  (adjust_tol STOP_TEST tol <? 0)%float = false → mat_m B < fuel →
  ∃ st,
    interp_skel_run STOP_TEST fuel X_sum A B D u tol = Some st ∧
    Forall (λ i, i < mat_m B) (st_ir st).
Proof.
  intros HB HA Htol Hfuel. unfold interp_skel_run.
  destruct (solve_columns_keeps STOP_TEST A B D u (mat_m B)
              (adjust_tol STOP_TEST tol)
              (λ st, Forall (λ i, i < mat_m B) (st_ir st))
              HA Htol HB eq_refl) with (fuel := fuel)
              (js := seq 0 (mat_n B)) (st := init_state B X_sum)
    as (st & Hrun & _ & HP).
  - by intros j st _ HP.
  - intros j st HP.
    by destruct (load_column_keeps_fields STOP_TEST B D j st) as (-> & _).
  - intros j st _ _. apply rows_expand.
  - apply rows_finish.
  - apply skel_inv_init.
  - constructor.
  - apply Forall_seq. intros j Hj. lia.
  - done.
  - by exists st.
Qed.

End Rows.

Lemma csc_wf_jc_mono B : csc_wf B → ∀ n j,
  j + n ≤ mat_n B → mat_jc B !!! j ≤ mat_jc B !!! (j + n).
Proof.
  intros (_ & _ & Hcols). rewrite Forall_seq in Hcols.
  induction n as [|n IH]; intros j Hj.
  - by rewrite Nat.add_0_r.
  - destruct (Hcols (j + n)) as (H1 & _); [lia|].
    specialize (IH j ltac:(lia)).
    replace (j + S n) with (j + n + 1) by lia. lia.
Qed.

Lemma csc_wf_nnz_pos B j :
  csc_wf B → j < mat_n B → 1 ≤ mat_jc B !!! (j + 1) - mat_jc B !!! j →
  1 ≤ mat_jc B !!! mat_n B.
Proof.
  intros HB Hj Hrnz.
  pose proof (csc_wf_jc_mono B HB (mat_n B - (j + 1)) (j + 1) ltac:(lia)) as H.
  replace (j + 1 + (mat_n B - (j + 1))) with (mat_n B) in H by lia. lia.
Qed.

Section Capacity.
Context {ops : triangular_ops}.
Variable STOP_TEST : nat.

(** Lines 284-297: the slot that receives the pivot lies inside the
    buffer, doubled if it was full. *)
Lemma ir_fits_expand A B D u j st :
  1 ≤ mat_jc B !!! mat_n B → ir_fits B st →
  st_iri st < st_nzmax (expand STOP_TEST A D u j st) ∧
  ir_fits B (expand STOP_TEST A D u j st).
Proof.
  intros Hnnz (Hle & Hmin). unfold ir_fits.
  destruct (expand_fields STOP_TEST A D u j st) as (_ & -> & -> & _).
  destruct (decide (st_iri st = st_nzmax st)); lia.
Qed.

Lemma ir_fits_run fuel X_sum A B D u tol :
  csc_wf B → Forall (λ i, i < mat_m B) (mat_ir A) →
  (adjust_tol STOP_TEST tol <? 0)%float = false → mat_m B < fuel →
  ∃ st,
    interp_skel_run STOP_TEST fuel X_sum A B D u tol = Some st ∧
    ir_fits B st.
Proof.
  intros HB HA Htol Hfuel. unfold interp_skel_run.
  destruct (solve_columns_keeps STOP_TEST A B D u (mat_m B)
              (adjust_tol STOP_TEST tol) (ir_fits B)
              HA Htol HB eq_refl) with (fuel := fuel)
              (js := seq 0 (mat_n B)) (st := init_state B X_sum)
    as (st & Hrun & _ & HP).
  - by intros j st _ HP.
  - intros j st HP. unfold ir_fits.
    by destruct (load_column_keeps_fields STOP_TEST B D j st)
      as (_ & -> & -> & _).
  - intros j st Hj Hrnz _ _ HP.
    apply ir_fits_expand; [|done]. by apply (csc_wf_nnz_pos B j).
  - by intros st _ HP.
  - apply skel_inv_init.
  - unfold ir_fits, init_state. simpl. lia.
  - apply Forall_seq. intros j Hj. lia.
  - done.
  - by exists st.
Qed.

End Capacity.

Lemma length_foldl_insert {T} (f : list T → nat → T) (idx : nat → nat)
    (l : list nat) : ∀ X : list T,
  length (foldl (λ X m, <[idx m := f X m]> X) X l) = length X.
Proof.
  induction l as [|m l IH]; intros X; simpl; [done|].
  by rewrite IH, length_insert.
Qed.

Lemma foldl_insert_other {T} `{Inhabited T} (f : list T → nat → T)
    (idx : nat → nat) (l : list nat) i : ∀ X : list T,
  (∀ m, m ∈ l → idx m ≠ i) →
  foldl (λ X m, <[idx m := f X m]> X) X l !!! i = X !!! i.
Proof.
  induction l as [|m l IH]; intros X Hne; simpl; [done|].
  rewrite IH by (intros m' Hm'; apply Hne; by right).
  apply list_lookup_total_insert_ne. apply Hne. by left.
Qed.

Lemma fill_lookup {T} `{Inhabited T} (v : T) (l : list nat) i :
  ∀ X : list T, i < length X → i ∈ l →
  foldl (λ X j, <[j := v]> X) X l !!! i = v.
Proof.
  induction l as [|j l IH]; intros X Hi Hin; simpl.
  - by apply elem_of_nil in Hin.
  - destruct (decide (i ∈ l)) as [Hl|Hl].
    + apply IH; [by rewrite length_insert|done].
    + apply elem_of_cons in Hin as [->|?]; [|done].
      pose proof (foldl_insert_other (λ _ _, v) id l j (<[j := v]> X)) as Ho.
      cbv beta delta [id] in Ho. rewrite Ho by (intros m Hm ->; done).
      by apply list_lookup_total_insert_eq.
Qed.

Section Sum.
Context {ops : triangular_ops}.
Variable STOP_TEST : nat.

(** Lines 321-323 touch [X_sum] at the pivots of the column only. *)
Lemma expand_X_sum A D u j nf tol st i :
  col_inv nf tol st → i ∉ st_ir st ++ [st_s st] →
  st_X_sum (expand STOP_TEST A D u j st) !!! i = st_X_sum st !!! i.
Proof.
  intros Hinv Hi.
  destruct (expand_fields STOP_TEST A D u j st)
    as (_ & _ & _ & _ & _ & _ & _ & _ & Q & ->).
  apply (foldl_insert_other
           (λ X m, (X !!! Qi_at (st_ir st ++ [st_s st]) (st_Qi st) m
                    + u !!! j * st_w st * qk_at Q (st_qk st) m)%float)
           (λ m, Qi_at (st_ir st ++ [st_s st]) (st_Qi st) m)).
  intros m Hm%elem_of_seq Heq. apply Hi. rewrite <- Heq. unfold Qi_at.
  apply list_elem_of_lookup_total_2.
  rewrite length_app, (col_inv_length nf tol st Hinv). simpl. lia.
Qed.

Lemma expand_X_sum_length A D u j st :
  length (st_X_sum (expand STOP_TEST A D u j st)) = length (st_X_sum st).
Proof.
  destruct (expand_fields STOP_TEST A D u j st)
    as (_ & _ & _ & _ & _ & _ & _ & _ & Q & ->).
  apply (length_foldl_insert
           (λ X m, (X !!! Qi_at (st_ir st ++ [st_s st]) (st_Qi st) m
                    + u !!! j * st_w st * qk_at Q (st_qk st) m)%float)
           (λ m, Qi_at (st_ir st ++ [st_s st]) (st_Qi st) m)).
Qed.

Lemma init_X_sum B X_sum :
  length X_sum = mat_m B →
  st_X_sum (init_state B X_sum) = replicate (mat_m B) 0%float.
Proof.
  intros HX. unfold init_state. simpl.
  apply list_eq_same_length with (mat_m B).
  - by rewrite length_replicate.
  - pose proof (length_foldl_insert (λ _ _, 0%float) id (seq 0 (mat_m B))
                  X_sum) as Hl.
    cbv beta delta [id] in Hl. by rewrite Hl.
  - intros i x y Hi Hx Hy.
    apply lookup_replicate in Hy as [-> _].
    apply list_lookup_total_correct in Hx. rewrite <- Hx.
    apply fill_lookup; [lia|]. apply elem_of_seq. lia.
Qed.

Lemma sum_on_skeleton_run fuel X_sum A B D u tol :
  csc_wf B → Forall (λ i, i < mat_m B) (mat_ir A) →
  (adjust_tol STOP_TEST tol <? 0)%float = false → mat_m B < fuel →
  length X_sum = mat_m B →
  ∃ st,
    interp_skel_run STOP_TEST fuel X_sum A B D u tol = Some st ∧
    sum_on_skeleton (mat_m B) st.
Proof.
  intros HB HA Htol Hfuel HX. unfold interp_skel_run.
  destruct (solve_columns_keeps STOP_TEST A B D u (mat_m B)
              (adjust_tol STOP_TEST tol) (sum_on_skeleton (mat_m B))
              HA Htol HB eq_refl) with (fuel := fuel)
              (js := seq 0 (mat_n B)) (st := init_state B X_sum)
    as (st & Hrun & _ & HP).
  - by intros j st _ HP.
  - intros j st HP. unfold sum_on_skeleton.
    by destruct (load_column_keeps_fields STOP_TEST B D j st)
      as (-> & _ & _ & -> & _).
  - intros j st _ _ Hinv Hgo (Hlen & Hz). split.
    + by rewrite expand_X_sum_length.
    + intros i Hlt Hi.
      destruct (expand_fields STOP_TEST A D u j st) as (Hir & _).
      rewrite Hir in Hi.
      rewrite (expand_X_sum A D u j _ _ st i Hinv Hi).
      apply Hz; [done|]. intros Hin. apply Hi. apply elem_of_app. by left.
  - intros st Hinv (Hlen & Hz).
    destruct (finish_column_spec _ _ st Hinv)
      as (col & _ & _ & _ & _ & _ & HX').
    split; [by rewrite HX'|].
    intros i Hlt Hi. rewrite HX'. apply Hz; [done|].
    by rewrite <- (finish_column_ir _ _ st Hinv).
  - apply skel_inv_init.
  - split; rewrite init_X_sum by done.
    + by rewrite length_replicate.
    + intros i Hi _. by apply lookup_total_replicate_2.
  - apply Forall_seq. intros j Hj. lia.
  - done.
  - by exists st.
Qed.

End Sum.

Lemma triangle_double n : 2 * (n * (n + 1) / 2) = n * (n + 1).
Proof.
  assert (n * (n + 1) mod 2 = 0) as Hev.
  { induction n as [|n IH]; [done|].
    replace (S n * (S n + 1)) with (n * (n + 1) + (n + 1) * 2) by lia.
    by rewrite Nat.Div0.mod_add. }
  pose proof (Nat.div_mod_eq (n * (n + 1)) 2). lia.
Qed.

Lemma expand_Q_length `{ops : triangular_ops} STOP_TEST A D u j st :
  length (st_Q (expand STOP_TEST A D u j st)) =
    if decide (st_max_Q st < st_k st + 1)
    then st_max_Q st * 2 * (st_max_Q st * 2 + 1) / 2
    else length (st_Q st).
Proof.
  unfold expand. cbv zeta.
  destruct (sp_mv _ _ _ _ _) as [[[[? ?] ?] ?] ?].
  destruct (rescan _ _ _ _ _ _ _) as [[? ?] ?]. simpl.
  rewrite length_insert.
  match goal with
  | |- context [foldl ?g ?Q0 (seq 0 (st_k st))] =>
      assert (length (foldl g Q0 (seq 0 (st_k st))) = length Q0) as ->
  end.
  { apply (length_foldl_insert
             (λ Q m, (qk_at Q (st_qk st) m
                      * (-1 / sqrt (D !!! st_s st - st_beta st !!! st_s st)))%float)
             (λ m, st_qk st + m)). }
  rewrite !length_write_at.
  destruct (decide (st_max_Q st < st_k st + 1)); [|done].
  by rewrite length_resize.
Qed.

(** Lines 291-316 and 359: the entries [qk[0..k]] written by an iteration
    lie inside [Q], reallocated if [k+1 > max_Q], and [qk] moves on to the
    next packed column. *)
Lemma Q_fits_expand `{ops : triangular_ops} STOP_TEST A D u j st :
  Q_fits st →
  (st_max_Q st < st_k st + 1 → Q_size_exact (st_max_Q st * 2)) →
  st_qk st + st_k st < length (st_Q (expand STOP_TEST A D u j st)) ∧
  Q_fits (expand STOP_TEST A D u j st).
Proof.
  intros (Hlen & Hqk & Hk & Hmax & Hsize) Hnew. unfold Q_fits.
  rewrite expand_Q_length.
  destruct (expand_fields STOP_TEST A D u j st)
    as (_ & _ & _ & _ & _ & -> & -> & -> & _).
  pose proof (triangle_double (st_max_Q st)) as H1.
  pose proof (triangle_double (st_max_Q st * 2)) as H2.
  destruct (decide (st_max_Q st < st_k st + 1));
    split_and!; try done; try by apply Hnew.
  all: try lia; nia.
Qed.

(** ** The tolerance and the returned skeleton *)

Lemma adjust_tol_not_negative STOP_TEST tol :
  STOP_TEST = 1 ∨ (tol <? 0)%float = false →
  (adjust_tol STOP_TEST tol <? 0)%float = false.
Proof.
  intros Hor. unfold adjust_tol.
  destruct (decide (STOP_TEST = 1)) as [|H1];
    [apply mul_half_self_not_negative|].
  destruct Hor as [|Hor]; [done|].
  destruct (decide (STOP_TEST = 2)); [by apply mul_half_not_negative|done].
Qed.

Lemma starts_length cols : ∀ off, length (starts off cols) = length cols.
Proof. induction cols as [|c cols IH]; intros off; simpl; [done|]. by rewrite IH. Qed.

Lemma starts_head cols off :
  (starts off cols ++ [off + length (concat cols)]) !!! 0 = off.
Proof.
  destruct cols as [|c cols]; simpl; [|done]. by rewrite Nat.add_0_r.
Qed.

Lemma starts_last cols : ∀ off,
  (starts off cols ++ [off + length (concat cols)]) !!! length cols =
    off + length (concat cols).
Proof.
  intros off. rewrite <- (starts_length cols off).
  by rewrite list_lookup_total_middle.
Qed.

(** X8. Under policy 1 the tolerance that the loop tests against,
    [tol*(0.5*tol)], is never negative, whatever double [tol] is, and it
    does not depend on the sign of [tol]: [interp_skel] returns the same
    for [-tol] as for [tol]. *)
Theorem policy_1_tolerance `{ops : triangular_ops} (fuel : nat)
    (X_sum : list float) (A B : sp_mat_c) (D u : list float) (tol : float) :
  (adjust_tol 1 tol <? 0)%float = false ∧
  adjust_tol 1 (- tol) = adjust_tol 1 tol ∧
  interp_skel 1 fuel X_sum A B D u (- tol) =
    interp_skel 1 fuel X_sum A B D u tol.
Proof.
  assert (adjust_tol 1 (- tol) = adjust_tol 1 tol) as Heven
    by apply mul_half_self_even.
  split_and!; [apply mul_half_self_not_negative|done|].
  unfold interp_skel, interp_skel_run. by rewrite Heven.
Qed.

(** X9. For well-formed [A] and [B] with as many rows, and a tolerance
    that is not negative (any tolerance under policy 1), [interp_skel]
    returns, and the [X_skel] it returns is a well-formed compressed-column
    pattern of the shape of [B]: [n+1] column pointers from 0 to the number
    of entries, ascending; rows below [m]; columns strictly ascending; no
    column has more than [m] entries. *)
Theorem skeleton_well_formed `{ops : triangular_ops} (STOP_TEST : nat)
    (fuel : nat) (X_sum : list float) (A B : sp_mat_c) (D u : list float)
    (tol : float) :
  csc_wf A → csc_wf B → mat_m A = mat_m B →
  STOP_TEST = 1 ∨ (tol <? 0)%float = false → mat_m B < fuel →
  ∃ X Xs,
    interp_skel STOP_TEST fuel X_sum A B D u tol = Some (X, Xs) ∧
    log_m X = mat_m B ∧ log_n X = mat_n B ∧
    log_wf X ∧
    ∀ j, j < mat_n B →
      length (col_slice (log_jc X) (log_ir X) j) ≤ mat_m B.
Proof.
  intros (_ & HA & _) HB Hm Htol%(adjust_tol_not_negative STOP_TEST) Hfuel.
  rewrite Hm in HA.
  destruct (interp_skel_run_spec STOP_TEST fuel X_sum A B D u tol
              HB HA Htol Hfuel)
    as (st & cols & Hrun & (Hiri & _) & Hir & Hjc & Hlen & Hsorted & _).
  destruct (rows_run STOP_TEST fuel X_sum A B D u tol HB HA Htol Hfuel)
    as (st1 & Hrun1 & Hrows).
  destruct (ir_fits_run STOP_TEST fuel X_sum A B D u tol HB HA Htol Hfuel)
    as (st2 & Hrun2 & Hfit & _).
  rewrite Hrun in Hrun1, Hrun2.
  injection Hrun1 as <-. injection Hrun2 as <-.
  unfold interp_skel. rewrite Hrun. cbn [mbind option_bind].
  eexists _, _. split; [reflexivity|]. unfold log_wf. simpl.
  rewrite Hjc, Hiri, Hir. rewrite Hir in Hrows. rewrite Hiri, Hir in Hfit.
  assert (∀ j, j < mat_n B →
            col_slice (starts 0 cols ++ [length (concat cols)]) (concat cols) j
            = cols !!! j) as Hcol.
  { intros j Hj. apply (col_slice_starts cols 0 []); [done|lia]. }
  split_and!; try done.
  - rewrite length_app, starts_length. simpl. lia.
  - apply (starts_head cols 0).
  - rewrite <- Hlen. apply (starts_last cols 0).
  - apply Forall_seq. intros j Hj. split.
    + pose proof (starts_next cols 0 j ltac:(lia)) as Hn. simpl in Hn. lia.
    + rewrite Hcol by lia. apply Forall_lookup_total_1; [done|lia].
  - intros j Hj. rewrite Hcol by done.
    assert (cols !!! j ∈ cols) as Hin
      by (apply list_elem_of_lookup_total_2; lia).
    apply bounded_nodup_length.
    + apply StronglySorted_lt_NoDup. rewrite Forall_forall in Hsorted.
      by apply Hsorted.
    + apply Forall_forall. intros i Hi. rewrite Forall_forall in Hrows.
      apply Hrows. apply list_elem_of_In, in_concat. exists (cols !!! j). split; by apply list_elem_of_In.
Qed.

Lemma skeleton_well_formed_witness :
  csc_wf diag49 ∧ csc_wf col11 ∧ mat_m diag49 = mat_m col11 ∧
  (2 = 1 ∨ (0x1p-10 <? 0)%float = false) ∧ mat_m col11 < 3 ∧
  ∃ X Xs,
    @interp_skel spec_ops 2 3 [0; 0]%float diag49 col11 [4; 9]%float
      [1]%float 0x1p-10%float = Some (X, Xs) ∧
    log_m X = mat_m col11 ∧ log_n X = mat_n col11 ∧
    log_wf X ∧
    ∀ j, j < mat_n col11 →
      length (col_slice (log_jc X) (log_ir X) j) ≤ mat_m col11.
Proof.
  assert (csc_wf diag49) as HA
    by (apply (bool_decide_unpack _); vm_compute; exact I).
  assert (csc_wf col11) as HB
    by (apply (bool_decide_unpack _); vm_compute; exact I).
  assert (2 = 1 ∨ (0x1p-10 <? 0)%float = false) as Htol
    by (right; vm_compute; reflexivity).
  assert (mat_m col11 < 3) as Hfuel by (simpl; lia).
  refine (conj HA (conj HB (conj eq_refl (conj Htol (conj Hfuel _))))).
  exact (@skeleton_well_formed spec_ops 2 3 [0; 0]%float diag49 col11
           [4; 9]%float [1]%float 0x1p-10%float HA HB eq_refl Htol Hfuel).
Defined.

(** X10. Under the same conditions and a buffer [X_sum] of [m] entries,
    the [X_sum] returned has [m] entries and is [0.0] at every row that is
    not a row of the skeleton: lines 321-323 add to [X_sum] at the pivots
    of the column only. *)
Theorem X_sum_supported_on_skeleton `{ops : triangular_ops} (STOP_TEST : nat)
    (fuel : nat) (X_sum : list float) (A B : sp_mat_c) (D u : list float)
    (tol : float) :
  csc_wf A → csc_wf B → mat_m A = mat_m B →
  STOP_TEST = 1 ∨ (tol <? 0)%float = false → mat_m B < fuel →
  length X_sum = mat_m B →
  ∃ X Xs,
    interp_skel STOP_TEST fuel X_sum A B D u tol = Some (X, Xs) ∧
    length Xs = mat_m B ∧
    ∀ i, i < mat_m B → i ∉ log_ir X → Xs !!! i = 0%float.
Proof.
  intros (_ & HA & _) HB Hm Htol%(adjust_tol_not_negative STOP_TEST) Hfuel HX.
  rewrite Hm in HA.
  destruct (sum_on_skeleton_run STOP_TEST fuel X_sum A B D u tol
              HB HA Htol Hfuel HX) as (st & Hrun & Hlen & Hz).
  unfold interp_skel. rewrite Hrun. cbn [mbind option_bind].
  eexists _, _. split; [reflexivity|]. by split.
Qed.

Lemma X_sum_supported_on_skeleton_witness :
  csc_wf diag49 ∧ csc_wf col_tiny ∧ mat_m diag49 = mat_m col_tiny ∧
  (2 = 1 ∨ (0x1p-50 <? 0)%float = false) ∧ mat_m col_tiny < 3 ∧
  length [5; 5]%float = mat_m col_tiny ∧
  ∃ X Xs,
    @interp_skel spec_ops 2 3 [5; 5]%float diag49 col_tiny [4; 9]%float
      [1]%float 0x1p-50%float = Some (X, Xs) ∧
    length Xs = mat_m col_tiny ∧
    ∀ i, i < mat_m col_tiny → i ∉ log_ir X → Xs !!! i = 0%float.
Proof.
  assert (csc_wf diag49) as HA
    by (apply (bool_decide_unpack _); vm_compute; exact I).
  assert (csc_wf col_tiny) as HB
    by (apply (bool_decide_unpack _); vm_compute; exact I).
  assert (2 = 1 ∨ (0x1p-50 <? 0)%float = false) as Htol
    by (right; vm_compute; reflexivity).
  assert (mat_m col_tiny < 3) as Hfuel by (simpl; lia).
  refine (conj HA (conj HB (conj eq_refl (conj Htol (conj Hfuel
            (conj eq_refl _)))))).
  exact (@X_sum_supported_on_skeleton spec_ops 2 3 [5; 5]%float diag49
           col_tiny [4; 9]%float [1]%float 0x1p-50%float HA HB eq_refl Htol
           Hfuel eq_refl).
Defined.

(** X11. [X_sum] is an output only: line 239 clears it, so two calls
    that differ in the content of the buffer of [m] entries they pass
    return the same. *)
Theorem X_sum_is_output_only `{ops : triangular_ops} (STOP_TEST : nat)
    (fuel : nat) (X_sum X_sum' : list float) (A B : sp_mat_c)
    (D u : list float) (tol : float) :
  length X_sum = mat_m B → length X_sum' = mat_m B →
  interp_skel STOP_TEST fuel X_sum A B D u tol =
    interp_skel STOP_TEST fuel X_sum' A B D u tol.
Proof.
  intros H1 H2. unfold interp_skel, interp_skel_run.
  assert (init_state B X_sum = init_state B X_sum') as ->; [|done].
  pose proof (init_X_sum B X_sum H1) as E1.
  pose proof (init_X_sum B X_sum' H2) as E2.
  unfold init_state in *. simpl in E1, E2. by rewrite E1, E2.
Qed.

Lemma X_sum_is_output_only_witness :
  length [5; 6]%float = mat_m col11 ∧ length [0; 0]%float = mat_m col11 ∧
  @interp_skel spec_ops 2 3 [5; 6]%float diag49 col11 [4; 9]%float
    [1]%float 0x1p-10%float =
  @interp_skel spec_ops 2 3 [0; 0]%float diag49 col11 [4; 9]%float
    [1]%float 0x1p-10%float.
Proof.
  refine (conj eq_refl (conj eq_refl _)).
  exact (@X_sum_is_output_only spec_ops 2 3 [5; 6]%float [0; 0]%float diag49
           col11 [4; 9]%float [1]%float 0x1p-10%float eq_refl eq_refl).
Defined.

(** X12. The buffer [X_skel->ir] is never overrun.  It starts with room
    for twice the entries of [B]; an iteration of the expansion loop for a
    non-empty column of a well-formed [B] writes its pivot at a position
    below [nzmax], doubled on line 286 if the buffer was full, and keeps
    the count of entries within [nzmax]; and the [X_skel] returned has at
    most [nzmax] entries, [nzmax] being twice the entries of [B] at
    least. *)
Theorem skeleton_buffer_not_overrun `{ops : triangular_ops} (STOP_TEST : nat)
    (fuel : nat) (X_sum : list float) (A B : sp_mat_c) (D u : list float)
    (tol : float) (st : state) (j : nat) :
  csc_wf A → csc_wf B → mat_m A = mat_m B →
  STOP_TEST = 1 ∨ (tol <? 0)%float = false → mat_m B < fuel →
  j < mat_n B → 1 ≤ mat_jc B !!! (j + 1) - mat_jc B !!! j →
  ir_fits B st →
  ir_fits B (init_state B X_sum) ∧
  (st_iri st < st_nzmax (expand STOP_TEST A D u j st) ∧
   ir_fits B (expand STOP_TEST A D u j st)) ∧
  ∃ X Xs,
    interp_skel STOP_TEST fuel X_sum A B D u tol = Some (X, Xs) ∧
    length (log_ir X) ≤ log_nzmax X ∧
    2 * mat_jc B !!! mat_n B ≤ log_nzmax X.
Proof.
  intros (_ & HA & _) HB Hm Htol%(adjust_tol_not_negative STOP_TEST) Hfuel
    Hj Hrnz Hfit.
  rewrite Hm in HA. split; [|split].
  - unfold ir_fits, init_state. simpl. lia.
  - apply ir_fits_expand; [|done]. by apply (csc_wf_nnz_pos B j).
  - destruct (interp_skel_run_spec STOP_TEST fuel X_sum A B D u tol
                HB HA Htol Hfuel) as (st1 & cols & Hrun & (Hiri & _) & _).
    destruct (ir_fits_run STOP_TEST fuel X_sum A B D u tol HB HA Htol Hfuel)
      as (st2 & Hrun2 & Hle & Hmin).
    rewrite Hrun in Hrun2. injection Hrun2 as <-.
    unfold interp_skel. rewrite Hrun. cbn [mbind option_bind].
    eexists _, _. split; [reflexivity|]. simpl. split; [lia|done].
Qed.

Lemma skeleton_buffer_not_overrun_witness :
  csc_wf diag49 ∧ csc_wf col11 ∧ mat_m diag49 = mat_m col11 ∧
  (2 = 1 ∨ (0x1p-10 <? 0)%float = false) ∧ mat_m col11 < 3 ∧
  0 < mat_n col11 ∧ 1 ≤ mat_jc col11 !!! (0 + 1) - mat_jc col11 !!! 0 ∧
  ir_fits col11 (init_state col11 [0; 0]%float) ∧
  ir_fits col11 (init_state col11 [0; 0]%float) ∧
  (st_iri (init_state col11 [0; 0]%float) <
     st_nzmax (@expand spec_ops 2 diag49 [4; 9]%float [1]%float 0
                 (init_state col11 [0; 0]%float)) ∧
   ir_fits col11 (@expand spec_ops 2 diag49 [4; 9]%float [1]%float 0
                    (init_state col11 [0; 0]%float))) ∧
  ∃ X Xs,
    @interp_skel spec_ops 2 3 [0; 0]%float diag49 col11 [4; 9]%float
      [1]%float 0x1p-10%float = Some (X, Xs) ∧
    length (log_ir X) ≤ log_nzmax X ∧
    2 * mat_jc col11 !!! mat_n col11 ≤ log_nzmax X.
Proof.
  assert (csc_wf diag49) as HA
    by (apply (bool_decide_unpack _); vm_compute; exact I).
  assert (csc_wf col11) as HB
    by (apply (bool_decide_unpack _); vm_compute; exact I).
  assert (2 = 1 ∨ (0x1p-10 <? 0)%float = false) as Htol
    by (right; vm_compute; reflexivity).
  assert (mat_m col11 < 3) as Hfuel by (simpl; lia).
  assert (0 < mat_n col11) as Hj by (simpl; lia).
  assert (1 ≤ mat_jc col11 !!! (0 + 1) - mat_jc col11 !!! 0) as Hrnz
    by (vm_compute; lia).
  assert (ir_fits col11 (init_state col11 [0; 0]%float)) as Hfit
    by (vm_compute; lia).
  refine (conj HA (conj HB (conj eq_refl (conj Htol (conj Hfuel
            (conj Hj (conj Hrnz (conj Hfit _)))))))).
  exact (@skeleton_buffer_not_overrun spec_ops 2 3 [0; 0]%float diag49 col11
           [4; 9]%float [1]%float 0x1p-10%float
           (init_state col11 [0; 0]%float) 0 HA HB eq_refl Htol Hfuel Hj
           Hrnz Hfit).
Defined.

(** X13. The packed buffer [Q] is never overrun, as long as the size of
    line 293 is computed exactly.  [Q_fits] holds when [interp_skel] enters
    its first column and is kept by the start of a column and by the end of
    a column.  An iteration of the expansion loop keeps it too, and the
    entries [qk[0..k]] that it writes lie inside [Q], reallocated on line
    293 when [k+1 > max_Q], provided the doubled [max_Q] then satisfies
    [Q_size_exact]: beyond that the [int] product of line 293 overflows,
    and the property is not stated. *)
Theorem packed_buffer_not_overrun `{ops : triangular_ops} (STOP_TEST : nat)
    (X_sum : list float) (A B : sp_mat_c) (D u : list float) (j : nat)
    (st : state) :
  Q_fits st →
  (st_max_Q st < st_k st + 1 → Q_size_exact (st_max_Q st * 2)) →
  Q_fits (init_state B X_sum) ∧
  Q_fits (load_column STOP_TEST B D j (begin_column B j st)) ∧
  st_qk st + st_k st < length (st_Q (expand STOP_TEST A D u j st)) ∧
  Q_fits (expand STOP_TEST A D u j st) ∧
  Q_fits (finish_column st).
Proof.
  intros HQ Hnew. split; [|split; [|split; [|split]]].
  - unfold Q_fits, init_state, Q_size_exact.
    cbn [st_Q st_max_Q st_qk st_k]. rewrite length_replicate.
    split_and!; [done|done|lia|lia|lia].
  - destruct HQ as (Hlen & _ & _ & Hmax & Hsize). unfold Q_fits.
    destruct (load_column_keeps_fields STOP_TEST B D j (begin_column B j st))
      as (_ & _ & _ & _ & -> & -> & -> & -> & _).
    simpl. split_and!; [done|lia|lia|done|done].
  - by apply Q_fits_expand.
  - by apply Q_fits_expand.
  - done.
Qed.

Lemma packed_buffer_not_overrun_witness :
  Q_fits full_Q_state ∧
  (st_max_Q full_Q_state < st_k full_Q_state + 1 →
   Q_size_exact (st_max_Q full_Q_state * 2)) ∧
  st_max_Q full_Q_state < st_k full_Q_state + 1 ∧
  Q_fits (init_state I36 (replicate 36 0%float)) ∧
  Q_fits (load_column 2 I36 (replicate 36 1%float) 0
            (begin_column I36 0 full_Q_state)) ∧
  st_qk full_Q_state + st_k full_Q_state <
    length (st_Q (@expand spec_ops 2 I36 (replicate 36 1%float)
                    (replicate 36 1%float) 0 full_Q_state)) ∧
  Q_fits (@expand spec_ops 2 I36 (replicate 36 1%float)
            (replicate 36 1%float) 0 full_Q_state) ∧
  Q_fits (finish_column full_Q_state).
Proof.
  assert (Q_fits full_Q_state) as HQ
    by (unfold Q_fits, Q_size_exact; vm_compute; repeat split;
        lia || discriminate).
  assert (st_max_Q full_Q_state < st_k full_Q_state + 1 →
          Q_size_exact (st_max_Q full_Q_state * 2)) as Hnew
    by (intros _; unfold Q_size_exact; vm_compute; discriminate).
  assert (st_max_Q full_Q_state < st_k full_Q_state + 1) as Hre
    by (vm_compute; lia).
  refine (conj HQ (conj Hnew (conj Hre _))).
  exact (@packed_buffer_not_overrun spec_ops 2 (replicate 36 0%float) I36 I36
           (replicate 36 1%float) (replicate 36 1%float) 0 full_Q_state HQ
           Hnew).
Defined.

(** ** Tolerances that stop every column, or none *)

Section Blind.
Context {ops : triangular_ops}.
Variable STOP_TEST : nat.

(** A tolerance that no double exceeds: the loop [while(norm>tol)] is not
    entered. *)
Lemma solve_column_blind fuel A B D u tol st j :
  (∀ x, (tol <? x)%float = false) → 0 < fuel →
  ∃ st',
    solve_column STOP_TEST fuel A B D u tol st j = Some st' ∧
    st_ir st' = st_ir st ∧ st_iri st' = st_iri st ∧
    st_X_sum st' = st_X_sum st ∧ st_nzmax st' = st_nzmax st ∧
    st_jc st' = st_jc st ++ [st_iri st].
Proof.
  intros Htol Hfuel. unfold solve_column.
  destruct (decide (st_rnz (begin_column B j st) < 1)) as [Hn|Hn].
  { by eexists. }
  destruct fuel as [|fuel]; [lia|]. cbn [expand_loop]. rewrite Htol.
  cbn [mbind option_bind]. eexists. split; [done|].
  destruct (load_column_fields STOP_TEST B D j st)
    as (_ & Hir & Hiri & HX & _ & Hjc & Hk & _).
  destruct (load_column_keeps_fields STOP_TEST B D j (begin_column B j st))
    as (_ & _ & Hnz & _).
  unfold finish_column. rewrite Hk. cbn [seq foldl].
  cbn [st_ir st_iri st_X_sum st_nzmax st_jc].
  rewrite heap_sort_small, take_drop by lia. by rewrite Hnz.
Qed.

Lemma solve_columns_blind fuel A B D u tol :
  (∀ x, (tol <? x)%float = false) → 0 < fuel → ∀ js st,
  ∃ st',
    solve_columns STOP_TEST fuel A B D u tol st js = Some st' ∧
    st_ir st' = st_ir st ∧ st_iri st' = st_iri st ∧
    st_X_sum st' = st_X_sum st ∧ st_nzmax st' = st_nzmax st ∧
    st_jc st' = st_jc st ++ replicate (length js) (st_iri st).
Proof.
  intros Htol Hfuel. induction js as [|j js IH]; intros st.
  - exists st. simpl. by rewrite app_nil_r.
  - destruct (solve_column_blind fuel A B D u tol st j Htol Hfuel)
      as (st1 & Hrun & Hir & Hiri & HX & Hnz & Hjc).
    destruct (IH st1) as (st' & Hrun' & Hir' & Hiri' & HX' & Hnz' & Hjc').
    exists st'. cbn [solve_columns]. rewrite Hrun. cbn [mbind option_bind].
    split_and!; try congruence.
    rewrite Hjc', Hjc, Hiri. simpl. by rewrite <- app_assoc.
Qed.

End Blind.

Lemma adjust_tol_blind STOP_TEST tol :
  tol = nan ∨ tol = infinity →
  ∀ x, (adjust_tol STOP_TEST tol <? x)%float = false.
Proof.
  intros Htol x. unfold adjust_tol.
  destruct Htol as [-> | ->].
  - destruct (decide (STOP_TEST = 1));
      [|destruct (decide (STOP_TEST = 2))]; apply ltb_nan_l.
  - destruct (decide (STOP_TEST = 1));
      [|destruct (decide (STOP_TEST = 2))]; apply ltb_infinity_l.
Qed.

(** X14. A tolerance that is NaN or [+infinity] is exceeded by no norm
    ([norm > tol] is false): for a well-formed [B] and any [A], [D] and
    [u], [interp_skel] returns a skeleton without entries, all [n+1] column
    pointers 0, and an [X_sum] of zeros. *)
Theorem unbounded_tolerance_empty_skeleton `{ops : triangular_ops}
    (STOP_TEST : nat) (fuel : nat) (X_sum : list float) (A B : sp_mat_c)
    (D u : list float) (tol : float) :
  csc_wf B → tol = nan ∨ tol = infinity → 0 < fuel →
  length X_sum = mat_m B →
  interp_skel STOP_TEST fuel X_sum A B D u tol =
    Some ({| log_m := mat_m B; log_n := mat_n B;
             log_nzmax := 2 * mat_jc B !!! mat_n B;
             log_jc := replicate (mat_n B + 1) 0; log_ir := [] |},
          replicate (mat_m B) 0%float).
Proof.
  intros _ Htol Hfuel HX. unfold interp_skel, interp_skel_run.
  destruct (solve_columns_blind STOP_TEST fuel A B D u
              (adjust_tol STOP_TEST tol) (adjust_tol_blind STOP_TEST tol Htol)
              Hfuel (seq 0 (mat_n B)) (init_state B X_sum))
    as (st & -> & Hir & Hiri & HXs & Hnz & Hjc).
  cbn [mbind option_bind].
  rewrite Hir, Hiri, HXs, Hnz, Hjc, init_X_sum by done.
  rewrite length_seq. simpl.
  by rewrite replicate_add.
Qed.

Lemma unbounded_tolerance_empty_skeleton_witness :
  csc_wf I4 ∧ (infinity = nan ∨ infinity = infinity) ∧ 0 < 1 ∧
  length [5; 5; 5; 5]%float = mat_m I4 ∧
  @interp_skel spec_ops 2 1 [5; 5; 5; 5]%float I4 I4 ones4 ones4 infinity =
    Some ({| log_m := mat_m I4; log_n := mat_n I4;
             log_nzmax := 2 * mat_jc I4 !!! mat_n I4;
             log_jc := replicate (mat_n I4 + 1) 0; log_ir := [] |},
          replicate (mat_m I4) 0%float).
Proof.
  assert (csc_wf I4) as HB
    by (apply (bool_decide_unpack _); vm_compute; exact I).
  assert (infinity = nan ∨ infinity = infinity) as Htol by (right; reflexivity).
  assert (0 < 1) as Hfuel by lia.
  refine (conj HB (conj Htol (conj Hfuel (conj eq_refl _)))).
  exact (@unbounded_tolerance_empty_skeleton spec_ops 2 1 [5; 5; 5; 5]%float
           I4 I4 ones4 ones4 infinity HB Htol Hfuel eq_refl).
Defined.

(** ** The stopping norm is never negative *)

Lemma norm_update_not_negative STOP_TEST norm tn :
  (norm <? 0)%float = false → (tn <? 0)%float = false →
  (norm_update STOP_TEST norm tn <? 0)%float = false.
Proof.
  intros Hn Ht. unfold norm_update.
  destruct (decide (STOP_TEST = 1)); [by destruct (norm <? tn)%float|].
  destruct (decide (STOP_TEST = 2)); [by apply add_not_negative|done].
Qed.

Lemma pick_fold_norm_not_negative STOP_TEST c0 rest :
  (c0.2 <? 0)%float = false →
  Forall (λ c : nat * float * float, (c.2 <? 0)%float = false) rest →
  ((pick_fold STOP_TEST c0 rest).2 <? 0)%float = false.
Proof.
  intros H0 Hrest.
  destruct (pick_fold_spec STOP_TEST c0 rest) as (_ & _ & _ & _ & _ & ->).
  revert H0. generalize c0.2 as n.
  induction Hrest as [|c rest Hc Hrest IH]; intros n Hn; simpl; [done|].
  apply IH. by apply norm_update_not_negative.
Qed.

Lemma rescan_norm_not_negative STOP_TEST D beta rnz r s w :
  ((rescan STOP_TEST D beta rnz r s w).2 <? 0)%float = false.
Proof.
  destruct (decide (0 < rnz)) as [Hpos|Hzero].
  - rewrite rescan_fold by done. apply pick_fold_norm_not_negative.
    + apply abs_not_negative.
    + apply Forall_fmap, Forall_forall. intros e _. apply abs_not_negative.
  - unfold rescan. destruct (decide (0 < rnz)); [done|]. by vm_compute.
Qed.

Lemma init_scan_norm_not_negative STOP_TEST D beta rnz r :
  ((init_scan STOP_TEST D beta rnz r).2.2 <? 0)%float = false.
Proof.
  rewrite init_scan_fold. cbn [snd]. apply pick_fold_norm_not_negative.
  - apply abs_not_negative.
  - apply Forall_fmap, Forall_forall. intros e _. apply abs_not_negative.
Qed.

Lemma load_column_norm_not_negative `{ops : triangular_ops} STOP_TEST B D j st :
  (st_norm (load_column STOP_TEST B D j st) <? 0)%float = false.
Proof.
  unfold load_column.
  pose proof (init_scan_norm_not_negative STOP_TEST D (st_beta st)
                (st_rnz st) (column B j)) as H.
  by destruct (init_scan _ _ _ _ _) as [beta [[s w] norm]].
Qed.

Lemma expand_norm_not_negative `{ops : triangular_ops} STOP_TEST A D u j st :
  (st_norm (expand STOP_TEST A D u j st) <? 0)%float = false.
Proof.
  unfold expand. cbv zeta.
  destruct (sp_mv _ _ _ _ _) as [[[[? ?] ?] ?] ?].
  match goal with
  | |- context [rescan ?S ?D' ?b ?n ?r ?s ?w] =>
      pose proof (rescan_norm_not_negative S D' b n r s w) as H
  end.
  by destruct (rescan _ _ _ _ _ _ _) as [[? ?] ?].
Qed.

Lemma expand_loop_negative `{ops : triangular_ops} STOP_TEST A D u tol j :
  (tol <? 0)%float = true → ∀ fuel st st',
  (st_norm st <? 0)%float = false →
  expand_loop STOP_TEST fuel A D u tol j st = Some st' →
  st_norm st' = nan.
Proof.
  intros Htol. induction fuel as [|fuel IH]; intros st st' Hn Hrun; [done|].
  simpl in Hrun. destruct (tol <? st_norm st)%float eqn:Hgo.
  - eapply IH; [|exact Hrun]. apply expand_norm_not_negative.
  - injection Hrun as <-. by apply (negative_below_not_negative tol).
Qed.

(** X15. With a negative tolerance at the test of line 279, the solve of
    a non-empty column can end in one way only: on a stopping norm that is
    NaN.  (The norm is never negative, so [norm > tol] holds of every
    other norm and the loop goes on.) *)
Theorem negative_tolerance_stops_on_nan `{ops : triangular_ops}
    (STOP_TEST : nat) (fuel : nat) (A B : sp_mat_c) (D u : list float)
    (tol : float) (st st' : state) (j : nat) :
  (tol <? 0)%float = true →
  1 ≤ mat_jc B !!! (j + 1) - mat_jc B !!! j →
  solve_column STOP_TEST fuel A B D u tol st j = Some st' →
  st_norm st' = nan.
Proof.
  intros Htol Hrnz. unfold solve_column.
  destruct (decide (st_rnz (begin_column B j st) < 1)) as [Hn|_];
    [simpl in Hn; lia|].
  destruct (expand_loop _ _ _ _ _ _ _ _) as [st1|] eqn:Hrun; [|done].
  cbn [mbind option_bind]. intros [= <-].
  apply (expand_loop_negative STOP_TEST A D u tol j Htol) in Hrun; [done|].
  apply load_column_norm_not_negative.
Qed.

Lemma negative_tolerance_stops_on_nan_witness :
  (-0x1p-1 <? 0)%float = true ∧
  1 ≤ mat_jc col_nan !!! (0 + 1) - mat_jc col_nan !!! 0 ∧
  ∃ st',
    @solve_column spec_ops 2 3 diag49 col_nan [4; 9]%float [1]%float
      (-0x1p-1)%float (init_state col_nan [0; 0]%float) 0 = Some st' ∧
    st_norm st' = nan.
Proof.
  assert ((-0x1p-1 <? 0)%float = true) as Htol by (vm_compute; reflexivity).
  assert (1 ≤ mat_jc col_nan !!! (0 + 1) - mat_jc col_nan !!! 0) as Hrnz
    by (vm_compute; lia).
  refine (conj Htol (conj Hrnz _)).
  eexists. split; [vm_compute; reflexivity|].
  exact (@negative_tolerance_stops_on_nan spec_ops 2 3 diag49 col_nan
           [4; 9]%float [1]%float (-0x1p-1)%float
           (init_state col_nan [0; 0]%float) _ 0 Htol Hrnz eq_refl).
Defined.

(** ** The stopping norm and the first pivot *)

(** X16. The stopping norm that the initial scan (lines 267-278) and the
    rescan (lines 345-358) compute is never negative, under any policy: it
    is a maximum or a sum of absolute values, [0.0] for an empty residual,
    or NaN. *)
Theorem stopping_norm_not_negative `{ops : triangular_ops} (STOP_TEST : nat)
    (A B : sp_mat_c) (D u : list float) (j : nat) (st : state) :
  (st_norm (load_column STOP_TEST B D j st) <? 0)%float = false ∧
  (st_norm (expand STOP_TEST A D u j st) <? 0)%float = false.
Proof.
  split; [apply load_column_norm_not_negative|apply expand_norm_not_negative].
Qed.

(** X17. The first iteration of a column ([k = 0], [qk = Q], [Qi] at the
    end of what is written of [X_skel->ir]) changes [X_sum] at the pivot
    [s] only, by [u[j]*w*(-norm_fac)] with
    [norm_fac = -1/sqrt(D[s] - beta[s])]: what the routines of the header
    store in [qk] plays no part, line 315 overwrites it. *)
Theorem first_pivot_updates_X_sum `{ops : triangular_ops} (STOP_TEST : nat)
    (A : sp_mat_c) (D u : list float) (j : nat) (st : state) :
  st_k st = 0 → st_qk st = 0 → st_Qi st = length (st_ir st) →
  0 < length (st_Q st) → 1 ≤ st_max_Q st →
  let s := st_s st in
  let norm_fac := (-1 / sqrt (D !!! s - st_beta st !!! s))%float in
  st_X_sum (expand STOP_TEST A D u j st) =
    <[s := (st_X_sum st !!! s + u !!! j * st_w st * - norm_fac)%float]>
      (st_X_sum st).
Proof.
  intros Hk Hqk HQi Hlen Hmax s norm_fac. unfold expand. cbv zeta.
  rewrite Hk, Hqk, HQi.
  destruct (decide (st_max_Q st < 0 + 1)) as [|_]; [lia|].
  cbn [seq foldl Nat.add take]. rewrite !(take_0 (A:=float)).
  cbn [write_at].
  destruct (sp_mv _ _ _ _ _) as [[[[Aqk_nz Aqk_i] Aqk_p] sp] flag].
  destruct (rescan _ _ _ _ _ _ _) as [[s' w'] norm'].
  cbn [st_X_sum]. unfold Qi_at, qk_at. rewrite Nat.add_0_r.
  rewrite list_lookup_total_middle by done. cbn [Nat.add].
  rewrite list_lookup_total_insert_eq; [done|].
  by rewrite !length_write_at.
Qed.

Lemma first_pivot_updates_X_sum_witness :
  let st := load_column 2 col11 [4; 9]%float 0
              (begin_column col11 0 (init_state col11 [0; 0]%float)) in
  st_k st = 0 ∧ st_qk st = 0 ∧ st_Qi st = length (st_ir st) ∧
  0 < length (st_Q st) ∧ 1 ≤ st_max_Q st ∧
  st_X_sum (@expand spec_ops 2 diag49 [4; 9]%float [1]%float 0 st) =
    <[st_s st :=
        (st_X_sum st !!! st_s st
         + [1]%float !!! 0%nat * st_w st
           * - (-1 / sqrt ([4; 9]%float !!! st_s st
                           - st_beta st !!! st_s st)))%float]>
      (st_X_sum st).
Proof.
  intros st.
  assert (0 < length (st_Q st)) as Hlen by (vm_compute; lia).
  assert (1 ≤ st_max_Q st) as Hmax by (vm_compute; lia).
  refine (conj eq_refl (conj eq_refl (conj eq_refl (conj Hlen
            (conj Hmax _))))).
  exact (@first_pivot_updates_X_sum spec_ops 2 diag49 [4; 9]%float [1]%float
           0 st eq_refl eq_refl eq_refl Hlen Hmax).
Defined.

(** ** [mexFunction]: the accepted calls *)

Ltac bool_hyps :=
  repeat match goal with
         | H : _ || _ = false |- _ => apply orb_false_elim in H as [? ?]
         | H : _ || _ = true |- _ => apply orb_true_iff in H
         | H : negb _ = false |- _ => apply negb_false_iff in H
         | H : negb _ = true |- _ => apply negb_true_iff in H
         | H : (_ =? _) = true |- _ => apply Nat.eqb_eq in H
         | H : (_ =? _) = false |- _ => apply Nat.eqb_neq in H
         end.

(** What [mexFunction] does once its tests have passed, lines 412-419. *)
Lemma mexFunction_checked `{ops : triangular_ops} STOP_TEST fuel nlhs plhs prhs :
  checks_pass nlhs prhs →
  mexFunction STOP_TEST fuel nlhs plhs prhs =
    '(X_skel, X_sum) ←
      interp_skel STOP_TEST fuel
        (replicate (mat_m (sp_mat_of (prhs !!! 1))) 0%float)
        (sp_mat_of (prhs !!! 0)) (sp_mat_of (prhs !!! 1))
        (mxGetPr (prhs !!! 2)) (mxGetPr (prhs !!! 3))
        (mxGetPr (prhs !!! 4) !!! 0);
    Some (Returned
            (<[0 := mx_sparse_logical (mat_m (sp_mat_of (prhs !!! 1)))
                      (mat_n (sp_mat_of (prhs !!! 1)))
                      (take (log_n X_skel + 1) (log_jc X_skel))
                      (log_ir X_skel) (log_jc X_skel !!! log_n X_skel)]>
               (<[1 := mx_double_column (mat_m (sp_mat_of (prhs !!! 1)))
                         X_sum]> plhs))).
Proof.
  intros (Hn & Hl & (HA1 & HA2 & HA3) & (HB1 & HB2 & HB3) & (HD1 & HD2 & HD3)
          & (Hu1 & Hu2 & Hu3) & (Ht1 & Ht2 & Ht3)
          & Hsq & Hrows & (HDm & HDn) & (Hum & Hun) & (_ & _ & Htm & Htn)).
  unfold mexFunction. cbv zeta.
  destruct (decide (length prhs ≠ 5)); [done|].
  destruct (decide (nlhs ≠ 2)); [done|].
  rewrite HA1, HA2, HA3, HB1, HB2, HB3, HD1, HD2, HD3, Hu1, Hu2, Hu3,
    Ht1, Ht2, Ht3, Htm, Htn.
  cbn [negb orb Nat.eqb].
  repeat match goal with
         | |- context [decide ?P] =>
             destruct (decide P) as [Hd|Hd];
               [exfalso; unfold sp_mat_of in Hd; simpl in Hd; lia|clear Hd]
         end.
  done.
Qed.

(** X18. A call that passes every test of lines 379-411, on well-formed
    [A] and [B] and a tolerance that is not negative (any tolerance under
    policy 1), returns normally: [plhs[1]] is the column [X_sum] of
    [rows(B)] doubles and [plhs[0]] the sparse logical matrix of the shape
    of [B] with the column pointers and the row indices of the [X_skel]
    that [interp_skel] returns on a zeroed [X_sum], every stored entry
    [true]. *)
Theorem valid_inputs_accepted `{ops : triangular_ops} (STOP_TEST : nat)
    (fuel : nat) (out0 out1 : mxArray) (prhs : list mxArray) :
  checks_pass 2 prhs →
  csc_wf (sp_mat_of (prhs !!! 0)) → csc_wf (sp_mat_of (prhs !!! 1)) →
  STOP_TEST = 1 ∨ (mxGetPr (prhs !!! 4%nat) !!! 0%nat <? 0)%float = false →
  mxGetM (prhs !!! 1) < fuel →
  ∃ X Xs,
    interp_skel STOP_TEST fuel (replicate (mxGetM (prhs !!! 1)) 0%float)
      (sp_mat_of (prhs !!! 0)) (sp_mat_of (prhs !!! 1))
      (mxGetPr (prhs !!! 2)) (mxGetPr (prhs !!! 3))
      (mxGetPr (prhs !!! 4) !!! 0) = Some (X, Xs) ∧
    mexFunction STOP_TEST fuel 2 [out0; out1] prhs =
      Some (Returned
              [{| mxIsSparse := true; mxIsDouble := false;
                  mxIsComplex := false;
                  mxGetM := mxGetM (prhs !!! 1);
                  mxGetN := mxGetN (prhs !!! 1);
                  mxGetIr := log_ir X; mxGetJc := log_jc X; mxGetPr := [];
                  mxGetLogicals := replicate (length (log_ir X)) true |};
               mx_double_column (mxGetM (prhs !!! 1)) Xs]).
Proof.
  intros Hchk (_ & HA & _) HB Htol%(adjust_tol_not_negative STOP_TEST) Hfuel.
  rewrite (mexFunction_checked STOP_TEST fuel 2 [out0; out1] prhs Hchk).
  destruct Hchk as (_ & _ & _ & _ & _ & _ & _ & _ & Hrows & _).
  cbn [sp_mat_of mat_m] in HA. rewrite Hrows in HA.
  destruct (interp_skel_spec STOP_TEST fuel
              (replicate (mxGetM (prhs !!! 1)) 0%float)
              (sp_mat_of (prhs !!! 0)) (sp_mat_of (prhs !!! 1))
              (mxGetPr (prhs !!! 2)) (mxGetPr (prhs !!! 3))
              (mxGetPr (prhs !!! 4) !!! 0) HB HA Htol Hfuel)
    as (X & Xs & cols & Hrun & Hir & Hjc & Hlen & _).
  exists X, Xs. split; [done|].
  cbn [sp_mat_of mat_m mat_n] in *. rewrite Hrun. cbn [mbind option_bind].
  assert (log_n X = mxGetN (prhs !!! 1)) as Hn.
  { revert Hrun. unfold interp_skel.
    destruct (interp_skel_run _ _ _ _ _ _ _ _); [|done].
    cbn [mbind option_bind]. by intros [= <- _]. }
  unfold mx_sparse_logical.
  assert (log_jc X !!! log_n X = length (log_ir X)) as ->.
  { rewrite Hn, Hjc, Hir, <- Hlen. apply (starts_last cols 0). }
  assert (take (log_n X + 1) (log_jc X) = log_jc X) as ->.
  { apply take_ge. rewrite Hn, Hjc, length_app, starts_length. simpl. lia. }
  by rewrite firstn_all.
Qed.

Lemma valid_inputs_accepted_witness :
  let prhs := [mx_sparse_double I4; mx_sparse_double I4;
               mx_double_column 4 ones4; mx_double_column 4 ones4;
               mx_double_column 1 [0x1p-20]%float] in
  let out := mx_double_column 0 [] in
  checks_pass 2 prhs ∧
  csc_wf (sp_mat_of (prhs !!! 0)) ∧ csc_wf (sp_mat_of (prhs !!! 1)) ∧
  (2 = 1 ∨ (mxGetPr (prhs !!! 4%nat) !!! 0%nat <? 0)%float = false) ∧
  mxGetM (prhs !!! 1) < 5 ∧
  ∃ X Xs,
    @interp_skel spec_ops 2 5 (replicate (mxGetM (prhs !!! 1)) 0%float)
      (sp_mat_of (prhs !!! 0)) (sp_mat_of (prhs !!! 1))
      (mxGetPr (prhs !!! 2)) (mxGetPr (prhs !!! 3))
      (mxGetPr (prhs !!! 4) !!! 0) = Some (X, Xs) ∧
    @mexFunction spec_ops 2 5 2 [out; out] prhs =
      Some (Returned
              [{| mxIsSparse := true; mxIsDouble := false;
                  mxIsComplex := false;
                  mxGetM := mxGetM (prhs !!! 1);
                  mxGetN := mxGetN (prhs !!! 1);
                  mxGetIr := log_ir X; mxGetJc := log_jc X; mxGetPr := [];
                  mxGetLogicals := replicate (length (log_ir X)) true |};
               mx_double_column (mxGetM (prhs !!! 1)) Xs]).
Proof.
  intros prhs out.
  assert (checks_pass 2 prhs) as Hchk by (vm_compute; repeat split).
  assert (csc_wf (sp_mat_of (prhs !!! 0))) as HA
    by (apply (bool_decide_unpack _); vm_compute; exact I).
  assert (csc_wf (sp_mat_of (prhs !!! 1))) as HB
    by (apply (bool_decide_unpack _); vm_compute; exact I).
  assert (2 = 1 ∨ (mxGetPr (prhs !!! 4%nat) !!! 0%nat <? 0)%float = false)
    as Htol by (right; vm_compute; reflexivity).
  assert (mxGetM (prhs !!! 1) < 5) as Hfuel by (vm_compute; lia).
  refine (conj Hchk (conj HA (conj HB (conj Htol (conj Hfuel _))))).
  exact (@valid_inputs_accepted spec_ops 2 5 out out prhs Hchk HA HB Htol
           Hfuel).
Defined.

(** X19. [mexFunction] returns normally only after every test of lines
    379-411 has passed: five inputs, two outputs, the types of the five
    inputs and the five conditions on shapes; what it returns is then
    [plhs] with its entries 1 and 0 set from the result of [interp_skel] on
    a zeroed [X_sum]. *)
Theorem outputs_only_after_all_checks `{ops : triangular_ops}
    (STOP_TEST : nat) (fuel nlhs : nat) (plhs prhs outs : list mxArray) :
  mexFunction STOP_TEST fuel nlhs plhs prhs = Some (Returned outs) →
  checks_pass nlhs prhs ∧
  ∃ X Xs,
    interp_skel STOP_TEST fuel (replicate (mxGetM (prhs !!! 1)) 0%float)
      (sp_mat_of (prhs !!! 0)) (sp_mat_of (prhs !!! 1))
      (mxGetPr (prhs !!! 2)) (mxGetPr (prhs !!! 3))
      (mxGetPr (prhs !!! 4) !!! 0) = Some (X, Xs) ∧
    outs =
      <[0 := mx_sparse_logical (mxGetM (prhs !!! 1)) (mxGetN (prhs !!! 1))
               (take (log_n X + 1) (log_jc X)) (log_ir X)
               (log_jc X !!! log_n X)]>
        (<[1 := mx_double_column (mxGetM (prhs !!! 1)) Xs]> plhs).
Proof.
  intros Hret.
  assert (checks_pass nlhs prhs) as Hchk.
  { revert Hret. unfold mexFunction. cbv zeta.
    repeat match goal with
           | |- Some (Warned _ _) = _ → _ => by intros [=]
           | |- context [if decide ?P then Some (Warned _ _) else _] =>
               destruct (decide P)
           | |- context [if ?b then Some (Warned _ _) else _] =>
               destruct b eqn:?
           end.
    intros _. bool_hyps.
    unfold checks_pass, sparse_double_real, full_double_real, preconditions,
      real_double_scalar, sp_mat_of in *. simpl in *.
    split_and!; try done; lia. }
  split; [done|].
  rewrite (mexFunction_checked STOP_TEST fuel nlhs plhs prhs Hchk) in Hret.
  cbn [sp_mat_of mat_m mat_n] in Hret.
  destruct (interp_skel _ _ _ _ _ _ _ _) as [[X Xs]|]; [|done].
  cbn [mbind option_bind] in Hret. injection Hret as <-.
  by exists X, Xs.
Qed.

Lemma outputs_only_after_all_checks_witness :
  let prhs := [mx_sparse_double I4; mx_sparse_double I4;
               mx_double_column 4 ones4; mx_double_column 4 ones4;
               mx_double_column 1 [0x1p-20]%float] in
  let out := mx_double_column 0 [] in
  let outs := [mx_sparse_logical 4 4 [0; 1; 2; 3; 4] [0; 1; 2; 3] 4;
               mx_double_column 4 [1; 1; 1; 1]%float] in
  @mexFunction spec_ops 2 5 2 [out; out] prhs = Some (Returned outs) ∧
  checks_pass 2 prhs ∧
  ∃ X Xs,
    @interp_skel spec_ops 2 5 (replicate (mxGetM (prhs !!! 1)) 0%float)
      (sp_mat_of (prhs !!! 0)) (sp_mat_of (prhs !!! 1))
      (mxGetPr (prhs !!! 2)) (mxGetPr (prhs !!! 3))
      (mxGetPr (prhs !!! 4) !!! 0) = Some (X, Xs) ∧
    outs =
      <[0 := mx_sparse_logical (mxGetM (prhs !!! 1)) (mxGetN (prhs !!! 1))
               (take (log_n X + 1) (log_jc X)) (log_ir X)
               (log_jc X !!! log_n X)]>
        (<[1 := mx_double_column (mxGetM (prhs !!! 1)) Xs]> [out; out]).
Proof.
  intros prhs out outs.
  assert (@mexFunction spec_ops 2 5 2 [out; out] prhs = Some (Returned outs))
    as Hret by (vm_compute; reflexivity).
  refine (conj Hret _).
  exact (@outputs_only_after_all_checks spec_ops 2 5 2 [out; out] prhs outs
           Hret).
Defined.

(** ** Where the rows of a skeleton column come from *)

Lemma all_terms_source A x c :
  c ∈ all_terms A x → ∃ e, e ∈ x ∧ c.1 ∈ (column A e.1).*1.
Proof.
  unfold all_terms. intros (e & Hc & He)%list_elem_of_bind.
  exists e. split; [done|].
  destruct (abs e.2 =? 0)%float; [by apply elem_of_nil in Hc|].
  apply list_elem_of_fmap in Hc as (c' & -> & Hc'). simpl.
  apply list_elem_of_fmap. by exists c'.
Qed.

Lemma elem_of_zip_fst {T U} (l : list T) (k : list U) e :
  e ∈ (zip l k).*1 → e ∈ l.
Proof.
  intros (p & -> & Hp)%list_elem_of_fmap. destruct p as [a b].
  by apply elem_of_zip_l in Hp.
Qed.

Section Support.
Context {ops : triangular_ops}.
Variable STOP_TEST : nat.

(** Lines 332-340: the indices of the new residual come from the old one
    or from the columns of [A] at the pivots of the column. *)
Lemma expand_support A D u j nf tol st :
  Forall (λ i, i < nf) (mat_ir A) → col_inv nf tol st →
  Forall (λ e, e.1 ∈ (st_r st).*1 ∨
               ∃ c, c ∈ pivots st ++ [st_s st] ∧ e.1 ∈ (column A c).*1)
    (st_r (expand STOP_TEST A D u j st)).
Proof.
  intros HA (Hiri & HQi & Hk & Hnd & Hpiv & Hmap & Hin & Hout & Hflag &
             Hbeta & Hsp & Hrnz & Hsorted & Hr & Hs).
  unfold expand. cbv zeta.
  match goal with
  | |- context [sp_mv ?A' ?x ?sv ?fl ?mk] =>
      destruct (sp_mv_spec A' x sv fl mk nf)
        as (yi & sv' & Hmv & Hyi & Hmem & _);
        [by rewrite length_write_at|done|by apply all_terms_rows|];
      rewrite Hmv; set (xvec := x) in *
  end.
  match goal with
  | |- context [resid_update ?b ?x ?a ?y ?m] =>
      destruct (resid_update_bound b x a y m)
        as (out & Hout' & _ & _ & Hall & _);
      simpl in Hout'; subst out
  end.
  destruct (rescan _ _ _ _ _ _ _) as [[s' w'] norm']. simpl.
  eapply Forall_impl; [exact Hall|]. intros e [Ha [Hx|Hy]].
  - left. apply elem_of_zip_fst in Hx.
    by apply elem_of_take in Hx as (i & Hx%list_elem_of_lookup_2 & _).
  - right.
    assert (e.1 ∈ yi) as Hyi'.
    { apply list_elem_of_fmap in Hy as (p & -> & Hp).
      apply elem_of_take in Hp as (i & Hp%list_elem_of_lookup_2 & _).
      destruct p as [a b]. by apply elem_of_zip_l in Hp. }
    apply Hmem in Hyi' as [_ Hterm].
    apply list_elem_of_fmap in Hterm as (c & -> & Hc).
    apply all_terms_source in Hc as (e' & He' & Hc).
    exists e'.1. split; [|done].
    assert (e'.1 ∈ xvec.*1) as Hv by (apply list_elem_of_fmap; by exists e').
    unfold xvec in Hv. apply elem_of_zip_fst in Hv.
    apply elem_of_take in Hv as (i & Hv%list_elem_of_lookup_2 & _).
    unfold pivots. by rewrite <- drop_app_le.
Qed.

End Support.

Section Locality.
Context {ops : triangular_ops}.
Variable STOP_TEST : nat.

Lemma reach_inv_expand A B D u j j' nf tol st :
  Forall (λ i, i < nf) (mat_ir A) →
  col_inv nf tol st → (tol <? st_norm st)%float = true →
  reach_inv A B j st → reach_inv A B j (expand STOP_TEST A D u j' st).
Proof.
  intros HA Hinv Hgo (Hp & Hr).
  pose proof (expand_support STOP_TEST A D u j' nf tol st HA Hinv) as Hsup.
  destruct (expand_fields STOP_TEST A D u j' st) as (Hir & _ & _ & _ & HQi & _).
  assert (reach A B j (st_s st)) as Hs.
  { destruct Hinv as (_ & _ & _ & _ & _ & _ & _ & _ & _ & _ & _ & _ & _ & _ & Hs).
    specialize (Hs Hgo). apply list_elem_of_fmap in Hs as (e & -> & He).
    rewrite Forall_forall in Hr. by apply Hr. }
  assert (Forall (reach A B j) (pivots st ++ [st_s st])) as Hp'.
  { apply Forall_app. split; [done|]. constructor; [exact Hs|constructor]. }
  split.
  - unfold pivots. rewrite Hir, HQi.
    destruct Hinv as (_ & HQ & _).
    assert (drop (st_Qi st) (st_ir st ++ [st_s st]) = pivots st ++ [st_s st])
      as -> by (by apply drop_app_le).
    exact Hp'.
  - eapply Forall_impl; [exact Hsup|]. intros e [He|(c & Hc & He)].
    + apply list_elem_of_fmap in He as (e' & -> & He').
      rewrite Forall_forall in Hr. by apply Hr.
    + apply (reach_A A B j c); [|done].
      rewrite Forall_forall in Hp'. by apply Hp'.
Qed.

Lemma solve_column_reach A B D u nf tol fuel st j :
  skel_inv nf st → csc_wf B → mat_m B = nf →
  Forall (λ i, i < nf) (mat_ir A) →
  (tol <? 0)%float = false → j < mat_n B → nf < fuel →
  ∃ st' col,
    solve_column STOP_TEST fuel A B D u tol st j = Some st' ∧
    skel_inv nf st' ∧
    st_ir st' = st_ir st ++ col ∧
    st_jc st' = st_jc st ++ [length (st_ir st)] ∧
    Forall (reach A B j) col.
Proof.
  intros Hinv Hwf Hm HA Htol Hj Hfuel.
  destruct (solve_column_spec STOP_TEST A B D u nf tol fuel st j
              Hinv Hwf Hm HA Htol Hj Hfuel)
    as (st' & col & Hrun & Hinv' & Hir & Hjc & _ & Hfact & _).
  exists st', col. split_and!; try done.
  revert Hrun. unfold solve_column.
  destruct (decide (st_rnz (begin_column B j st) < 1)) as [Hempty|Hne].
  - intros [= <-]. simpl in Hir.
    rewrite <- (app_nil_r (st_ir st)) in Hir at 1.
    apply app_inv_head in Hir. by subst col.
  - destruct (load_column_inv STOP_TEST B D j nf tol st Hinv Hwf Hm Hj Hne)
      as (Hcol & Hir0 & HQi0 & _).
    set (ld := load_column STOP_TEST B D j (begin_column B j st)) in *.
    assert (reach_inv A B j ld) as Hld.
    { split.
      - unfold pivots. rewrite HQi0, Hir0, drop_all. constructor.
      - assert (st_r ld = column B j) as ->.
        { unfold ld, load_column.
          by destruct (init_scan _ _ _ _ _) as [beta [[s w] norm]]. }
        apply Forall_forall. intros e He. apply reach_B.
        apply list_elem_of_fmap. by exists e. }
    assert (∀ j' s2, j' < mat_n B →
              1 ≤ mat_jc B !!! (j' + 1) - mat_jc B !!! j' →
              col_inv nf tol s2 → (tol <? st_norm s2)%float = true →
              st_Qi s2 = length (st_ir st) ∧ reach_inv A B j s2 →
              st_Qi (expand STOP_TEST A D u j' s2) = length (st_ir st) ∧
              reach_inv A B j (expand STOP_TEST A D u j' s2)) as Hexp.
    { intros j' s2 _ _ Hinv2 Hgo2 (HQ2 & Hr2). split.
      - by destruct (expand_fields STOP_TEST A D u j' s2)
          as (_ & _ & _ & _ & -> & _).
      - by apply (reach_inv_expand A B D u j j' nf tol). }
    assert (nf - st_k ld < fuel) as Hfuel'.
    { destruct Hcol as (_ & _ & Hk & _).
      unfold pivots in Hk. rewrite HQi0, Hir0, drop_all in Hk.
      simpl in Hk. lia. }
    destruct (expand_loop_keeps STOP_TEST A B D u nf tol
                (λ s2, st_Qi s2 = length (st_ir st) ∧ reach_inv A B j s2)
                HA Htol Hm Hexp j fuel ld Hj ltac:(simpl in Hne; lia) Hcol
                (conj HQi0 Hld) Hfuel')
      as (st1 & Hloop & Hinv1 & HQi1 & Hreach1 & _).
    rewrite Hloop. cbn [mbind option_bind]. intros [= <-].
    destruct (finish_column_spec nf tol st1 Hinv1)
      as (col' & Hfin & Hperm & _).
    rewrite Hfin in Hir.
    assert (col = col') as ->.
    { assert (length (take (st_Qi st1) (st_ir st1)) = length (st_ir st)).
      { destruct Hinv1 as (_ & HQ & _). rewrite length_take. lia. }
      clear Hreach1.
      assert (take (st_Qi st1) (st_ir st1) = st_ir st) as Hpre.
      { apply (f_equal (take (length (st_ir st)))) in Hir.
        rewrite take_app_length' in Hir by done.
        by rewrite take_app_length in Hir. }
      rewrite Hpre in Hir. by apply app_inv_head in Hir. }
    by rewrite Hperm.
Qed.

Lemma solve_columns_reach A B D u nf tol fuel : ∀ js st,
  skel_inv nf st → csc_wf B → mat_m B = nf →
  Forall (λ i, i < nf) (mat_ir A) →
  (tol <? 0)%float = false → Forall (λ j, j < mat_n B) js → nf < fuel →
  ∃ st' cols,
    solve_columns STOP_TEST fuel A B D u tol st js = Some st' ∧
    st_ir st' = st_ir st ++ concat cols ∧
    st_jc st' = st_jc st ++ starts (length (st_ir st)) cols ∧
    st_iri st' = length (st_ir st') ∧
    Forall2 (λ j col, Forall (reach A B j) col) js cols.
Proof.
  induction js as [|j js IH]; intros st Hinv Hwf Hm HA Htol Hjs Hfuel.
  - exists st, []. simpl. rewrite !app_nil_r. split_and!; try done.
    by destruct Hinv as (? & _).
  - apply Forall_cons in Hjs as [Hj Hjs].
    destruct (solve_column_reach A B D u nf tol fuel st j
                Hinv Hwf Hm HA Htol Hj Hfuel)
      as (st1 & col & Hrun & Hinv1 & Hir & Hjc & Hreach).
    destruct (IH st1 Hinv1 Hwf Hm HA Htol Hjs Hfuel)
      as (st' & cols & Hrun' & Hir' & Hjc' & Hiri' & Hfacts).
    exists st', (col :: cols).
    cbn [solve_columns]. rewrite Hrun. cbn [mbind option_bind].
    split_and!; try done.
    + rewrite Hir', Hir. simpl. by rewrite <- app_assoc.
    + rewrite Hjc', Hjc, Hir, length_app. simpl. by rewrite <- app_assoc.
    + by constructor.
Qed.

End Locality.

(** X20. Under the conditions of X9, every row of column [j] of the
    [X_skel] returned is a row that column [j] of [B] reaches through the
    columns of [A]: a row of the column of [B], or a row of the column of
    [A] at a row reached.  In particular, when every entry of [A] lies on
    the diagonal, column [j] of [X_skel] lies inside the pattern of column
    [j] of [B]. *)
Theorem skeleton_rows_are_reachable `{ops : triangular_ops} (STOP_TEST : nat)
    (fuel : nat) (X_sum : list float) (A B : sp_mat_c) (D u : list float)
    (tol : float) :
  csc_wf A → csc_wf B → mat_m A = mat_m B →
  STOP_TEST = 1 ∨ (tol <? 0)%float = false → mat_m B < fuel →
  ∃ X Xs,
    interp_skel STOP_TEST fuel X_sum A B D u tol = Some (X, Xs) ∧
    ∀ j i, j < mat_n B → i ∈ col_slice (log_jc X) (log_ir X) j →
      reach A B j i ∧
      ((∀ c e, e ∈ column A c → e.1 = c) → i ∈ (column B j).*1).
Proof.
  intros (_ & HA & _) HB Hm Htol%(adjust_tol_not_negative STOP_TEST) Hfuel.
  rewrite Hm in HA.
  destruct (solve_columns_reach STOP_TEST A B D u (mat_m B)
              (adjust_tol STOP_TEST tol) fuel (seq 0 (mat_n B))
              (init_state B X_sum))
    as (st & cols & Hrun & Hir & Hjc & Hiri & Hfacts); try done.
  { apply skel_inv_init. }
  { apply Forall_seq. intros j Hj. lia. }
  unfold interp_skel, interp_skel_run. rewrite Hrun.
  cbn [mbind option_bind]. eexists _, _. split; [reflexivity|].
  simpl in *. intros j i Hj Hi.
  assert (length cols = mat_n B) as Hlen.
  { apply Forall2_length in Hfacts. by rewrite length_seq in Hfacts. }
  assert (col_slice (st_jc st ++ [st_iri st]) (st_ir st) j = cols !!! j)
    as Heq.
  { rewrite Hjc, Hiri, Hir. apply (col_slice_starts cols 0 []); [done|lia]. }
  rewrite Heq in Hi.
  assert (seq 0 (mat_n B) !! j = Some j) as Hsj by (by apply lookup_seq_lt).
  destruct (Forall2_lookup_l _ _ _ _ _ Hfacts Hsj) as (col & Hcol & Hreach).
  rewrite (list_lookup_total_correct _ _ _ Hcol) in Hi.
  rewrite Forall_forall in Hreach. specialize (Hreach i Hi).
  split; [done|]. intros Hdiag. clear Hi.
  induction Hreach as [i Hi|c i Hc IH Hi]; [done|].
  apply list_elem_of_fmap in Hi as (e & -> & He).
  by rewrite (Hdiag c e He).
Qed.

Lemma skeleton_rows_are_reachable_witness :
  csc_wf diag49 ∧ csc_wf col11 ∧ mat_m diag49 = mat_m col11 ∧
  (2 = 1 ∨ (0x1p-10 <? 0)%float = false) ∧ mat_m col11 < 3 ∧
  ∃ X Xs,
    @interp_skel spec_ops 2 3 [0; 0]%float diag49 col11 [4; 9]%float
      [1]%float 0x1p-10%float = Some (X, Xs) ∧
    ∀ j i, j < mat_n col11 → i ∈ col_slice (log_jc X) (log_ir X) j →
      reach diag49 col11 j i ∧
      ((∀ c e, e ∈ column diag49 c → e.1 = c) → i ∈ (column col11 j).*1).
Proof.
  assert (csc_wf diag49) as HA
    by (apply (bool_decide_unpack _); vm_compute; exact I).
  assert (csc_wf col11) as HB
    by (apply (bool_decide_unpack _); vm_compute; exact I).
  assert (2 = 1 ∨ (0x1p-10 <? 0)%float = false) as Htol
    by (right; vm_compute; reflexivity).
  assert (mat_m col11 < 3) as Hfuel by (simpl; lia).
  refine (conj HA (conj HB (conj eq_refl (conj Htol (conj Hfuel _))))).
  exact (@skeleton_rows_are_reachable spec_ops 2 3 [0; 0]%float diag49 col11
           [4; 9]%float [1]%float 0x1p-10%float HA HB eq_refl Htol Hfuel).
Defined.

(** ** A [B] without entries *)

Section Empty.
Context {ops : triangular_ops}.
Variable STOP_TEST : nat.

(** Columns of [B] without entries take the [continue] of line 258,
    whatever the tolerance. *)
Lemma solve_columns_empty fuel A B D u tol : ∀ js st,
  Forall (λ j, mat_jc B !!! (j + 1) - mat_jc B !!! j < 1) js →
  ∃ st',
    solve_columns STOP_TEST fuel A B D u tol st js = Some st' ∧
    st_ir st' = st_ir st ∧ st_iri st' = st_iri st ∧
    st_X_sum st' = st_X_sum st ∧ st_nzmax st' = st_nzmax st ∧
    st_jc st' = st_jc st ++ replicate (length js) (st_iri st).
Proof.
  induction js as [|j js IH]; intros st Hjs.
  - exists st. simpl. by rewrite app_nil_r.
  - apply Forall_cons in Hjs as [Hj Hjs].
    destruct (IH (begin_column B j st) Hjs)
      as (st' & Hrun' & Hir' & Hiri' & HX' & Hnz' & Hjc').
    exists st'. cbn [solve_columns]. unfold solve_column.
    destruct (decide (st_rnz (begin_column B j st) < 1)) as [_|Hn];
      [|by simpl in Hn].
    cbn [mbind option_bind]. split_and!; try done.
    rewrite Hjc'. simpl. by rewrite <- app_assoc.
Qed.

End Empty.

(** X21. When no column of a well-formed [B] has an entry, every column
    takes the [continue] of line 258: for any [A], [D], [u] and any
    tolerance, a negative one included, [interp_skel] returns a skeleton
    without entries, all [n+1] column pointers 0, and an [X_sum] of
    zeros. *)
Theorem empty_B_gives_empty_skeleton `{ops : triangular_ops}
    (STOP_TEST : nat) (fuel : nat) (X_sum : list float) (A B : sp_mat_c)
    (D u : list float) (tol : float) :
  csc_wf B →
  Forall (λ j, mat_jc B !!! (j + 1) - mat_jc B !!! j < 1)
    (seq 0 (mat_n B)) →
  length X_sum = mat_m B →
  interp_skel STOP_TEST fuel X_sum A B D u tol =
    Some ({| log_m := mat_m B; log_n := mat_n B;
             log_nzmax := 2 * mat_jc B !!! mat_n B;
             log_jc := replicate (mat_n B + 1) 0; log_ir := [] |},
          replicate (mat_m B) 0%float).
Proof.
  intros _ Hempty HX. unfold interp_skel, interp_skel_run.
  destruct (solve_columns_empty STOP_TEST fuel A B D u
              (adjust_tol STOP_TEST tol) (seq 0 (mat_n B))
              (init_state B X_sum) Hempty)
    as (st & -> & Hir & Hiri & HXs & Hnz & Hjc).
  cbn [mbind option_bind].
  rewrite Hir, Hiri, HXs, Hnz, Hjc, init_X_sum by done.
  rewrite length_seq. simpl.
  by rewrite replicate_add.
Qed.

Lemma empty_B_gives_empty_skeleton_witness :
  csc_wf col_none ∧
  Forall (λ j, mat_jc col_none !!! (j + 1) - mat_jc col_none !!! j < 1)
    (seq 0 (mat_n col_none)) ∧
  length [5; 5]%float = mat_m col_none ∧
  @interp_skel spec_ops 2 0 [5; 5]%float diag49 col_none [4; 9]%float
    [1; 1]%float (-1)%float =
    Some ({| log_m := mat_m col_none; log_n := mat_n col_none;
             log_nzmax := 2 * mat_jc col_none !!! mat_n col_none;
             log_jc := replicate (mat_n col_none + 1) 0; log_ir := [] |},
          replicate (mat_m col_none) 0%float).
Proof.
  assert (Forall (λ j, mat_jc col_none !!! (j + 1) - mat_jc col_none !!! j < 1)
            (seq 0 (mat_n col_none))) as Hempty
    by (apply (bool_decide_unpack _); vm_compute; exact I).
  assert (csc_wf col_none) as HB
    by (apply (bool_decide_unpack _); vm_compute; exact I).
  refine (conj HB (conj Hempty (conj eq_refl _))).
  exact (@empty_B_gives_empty_skeleton spec_ops 2 0 [5; 5]%float diag49
           col_none [4; 9]%float [1; 1]%float (-1)%float HB Hempty eq_refl).
Defined.

(** ** [beta] is written before it is read *)

Lemma sp_get_ext (l1 l2 : list (nat * float)) :
  StronglySorted lt l1.*1 → StronglySorted lt l2.*1 →
  (∀ i, sp_get l1 i = sp_get l2 i) → l1 = l2.
Proof.
  revert l2. induction l1 as [|[i1 v1] l1 IH]; intros l2 H1 H2 Hget.
  - destruct l2 as [|[i2 v2] l2]; [done|].
    specialize (Hget i2). simpl in Hget.
    by destruct (decide (i2 = i2)).
  - destruct l2 as [|[i2 v2] l2].
    { specialize (Hget i1). simpl in Hget. by destruct (decide (i1 = i1)). }
    apply sorted_cons_above in H1 as [H1 Ha1].
    apply sorted_cons_above in H2 as [H2 Ha2]. simpl in Ha1, Ha2.
    assert (i1 = i2) as <-.
    { pose proof (Hget i1) as G1. pose proof (Hget i2) as G2.
      simpl in G1, G2.
      destruct (decide (i1 = i1)); [|done].
      destruct (decide (i2 = i2)); [|done].
      destruct (decide (i2 = i1)) as [|Hne]; [done|].
      destruct (decide (i1 = i2)) as [|_]; [done|].
      assert (i1 ∈ l2.*1) as Hin1 by (apply sp_get_elem; by rewrite <- G1).
      assert (i2 ∈ l1.*1) as Hin2 by (apply sp_get_elem; by rewrite G2).
      apply list_elem_of_fmap in Hin1 as (e1 & -> & He1).
      apply list_elem_of_fmap in Hin2 as (e2 & -> & He2).
      rewrite Forall_forall in Ha1, Ha2.
      specialize (Ha1 e2 He2). specialize (Ha2 e1 He1). lia. }
    assert (v1 = v2) as <-.
    { specialize (Hget i1). simpl in Hget.
      destruct (decide (i1 = i1)); [|done]. by injection Hget. }
    f_equal. apply IH; [done|done|].
    intros i. specialize (Hget i). simpl in Hget.
    destruct (decide (i1 = i)) as [<-|]; [|done].
    by rewrite !(sp_get_above _ i1 i1).
Qed.

(** [resid_update] on two [beta] that agree at the indices of [x]: the
    same [r], and [beta] that agree at the indices of [r]. *)
Lemma resid_update_beta beta beta' x alpha y mask :
  length beta' = length beta →
  StronglySorted lt x.*1 → StronglySorted lt y.*1 →
  Forall (λ e, e.1 < length beta) y →
  (∀ e, e ∈ x → beta' !!! e.1 = beta !!! e.1) →
  let rs := resid_update beta x alpha y mask in
  let rs' := resid_update beta' x alpha y mask in
  rs_r rs' = rs_r rs ∧ rs_rnz rs' = rs_rnz rs ∧
  rs_rnz rs = length (rs_r rs) ∧
  length (rs_beta rs') = length (rs_beta rs) ∧
  ∀ e, e ∈ rs_r rs → rs_beta rs' !!! e.1 = rs_beta rs !!! e.1.
Proof.
  intros Hlen Hx Hy Hr Hagree rs rs'.
  destruct (resid_update_post beta x alpha y mask Hx Hy Hr)
    as (out & Hout & Hcnt & Hsorted & Hget & Hbeta & Hbl).
  destruct (resid_update_post beta' x alpha y mask Hx Hy)
    as (out' & Hout' & Hcnt' & Hsorted' & Hget' & Hbeta' & Hbl');
    [by rewrite Hlen|].
  fold rs in Hout, Hcnt, Hbeta, Hbl. fold rs' in Hout', Hcnt', Hbeta', Hbl'.
  simpl in *.
  assert (out' = out) as ->.
  { apply sp_get_ext; [done|done|]. intros i. by rewrite Hget, Hget'. }
  split_and!; try congruence.
  intros e He. rewrite Hout in He.
  assert (is_Some (sp_get out e.1)) as Hsome.
  { apply sp_get_elem, list_elem_of_fmap. by exists e. }
  rewrite Hget in Hsome.
  destruct (decide (admitted mask e.1)); [|by destruct Hsome].
  rewrite Hbeta, Hbeta'.
  destruct (sp_get y e.1) as [b|] eqn:Ey; simpl.
  - destruct (sp_get x e.1) as [xa|] eqn:Ex; [|done].
    assert (e.1 ∈ x.*1) as Hin by (apply sp_get_elem; by rewrite Ex).
    apply list_elem_of_fmap in Hin as (e' & -> & Hin).
    by rewrite (Hagree e' Hin).
  - destruct (sp_get x e.1) as [xa|] eqn:Ex; [|by destruct Hsome].
    assert (e.1 ∈ x.*1) as Hin by (apply sp_get_elem; by rewrite Ex).
    apply list_elem_of_fmap in Hin as (e' & He' & Hin).
    rewrite He'. by apply Hagree.
Qed.

Lemma rescan_beta STOP_TEST D beta beta' (r : list (nat * float)) s w :
  (∀ e, e ∈ r → beta' !!! e.1 = beta !!! e.1) →
  rescan STOP_TEST D beta' (length r) r s w =
    rescan STOP_TEST D beta (length r) r s w.
Proof.
  intros Hagree. destruct (decide (0 < length r)) as [Hpos|Hzero].
  - rewrite !rescan_fold by done.
    assert (∀ e, e ∈ r → cand D beta' e = cand D beta e) as Hc.
    { intros e He. unfold cand. by rewrite (Hagree e He). }
    f_equal.
    + apply Hc. apply list_elem_of_lookup_total_2. lia.
    + apply list_fmap_ext. intros i e He. apply Hc.
      rewrite lookup_drop in He.
      assert (take (length r) r = r) as Ht by (by apply take_ge).
      rewrite Ht in He. by eapply list_elem_of_lookup_2.
  - unfold rescan. by destruct (decide (0 < length r)).
Qed.

Lemma same_but_beta_fields st st' :
  same_but_beta st st' →
  st_norm st' = st_norm st ∧ st_rnz st' = st_rnz st ∧
  st_X_sum st' = st_X_sum st ∧ st_ir st' = st_ir st ∧
  st_jc st' = st_jc st ∧ st_iri st' = st_iri st ∧
  st_nzmax st' = st_nzmax st.
Proof. intros (Heq & _). rewrite Heq. by split_and!. Qed.

Lemma same_but_beta_intro rest b1 b2 st st' :
  st = with_beta rest b1 → st' = with_beta rest b2 →
  length b2 = length b1 → same_but_beta st st'.
Proof. intros -> -> Hlen. by split. Qed.

Section Beta.
Context {ops : triangular_ops}.
Variable STOP_TEST : nat.

(** An iteration of the expansion loop reads [beta] at the indices of the
    residual only (lines 313, 346 and 350, and [beta[iy] += y*y] on line
    117). *)
Lemma expand_beta A D u j nf tol st st' :
  Forall (λ i, i < nf) (mat_ir A) →
  col_inv nf tol st → (tol <? st_norm st)%float = true →
  same_but_beta st st' → beta_agrees st st' →
  same_but_beta (expand STOP_TEST A D u j st) (expand STOP_TEST A D u j st') ∧
  beta_agrees (expand STOP_TEST A D u j st) (expand STOP_TEST A D u j st').
Proof.
  intros HA Hinv Hgo (Heq & Hlen) Hagree.
  pose proof Hinv as (Hiri & HQi & Hk & Hnd & Hpiv & Hmap & Hin & Hout & Hflag &
                      Hbeta & Hsp & Hrnz & Hsorted & Hr & Hs).
  assert (st_beta st' !!! st_s st = st_beta st !!! st_s st) as Hbs.
  { specialize (Hs Hgo). apply list_elem_of_fmap in Hs as (e & -> & He).
    by apply Hagree. }
  set (beta' := st_beta st') in *.
  assert (∃ rest b1 b2,
            expand STOP_TEST A D u j st = with_beta rest b1 ∧
            expand STOP_TEST A D u j st' = with_beta rest b2 ∧
            length b2 = length b1 ∧
            ∀ e, e ∈ st_r rest → b2 !!! e.1 = b1 !!! e.1) as Hshape.
  { rewrite Heq. unfold expand. cbv zeta.
    cbn [with_beta st_ir st_iri st_nzmax st_jc st_X_sum st_beta st_sp st_flag
         st_map_to_Qi st_Q st_max_Q st_Qi st_qk st_k st_s st_w st_norm
         st_rnz st_r].
    rewrite Hbs.
    match goal with
    | |- context [sp_mv ?A' ?x ?sv ?fl ?mk] =>
        destruct (sp_mv_spec A' x sv fl mk nf)
          as (yi & sv' & Hmv & Hyi & Hmem & Hsv' & _);
          [by rewrite length_write_at|done|by apply all_terms_rows|];
        rewrite Hmv; set (xvec := x) in *
    end.
    assert (length (st_r st) ≤ nf) as Hrlen.
    { rewrite <- (length_fmap fst).
      apply bounded_nodup_length; [by apply StronglySorted_lt_NoDup|].
      apply Forall_fmap. eapply Forall_impl; [exact Hr|]. by intros e [? ?]. }
    rewrite Hrnz, zip_snapshot by lia.
    rewrite (take_ge (zip yi _))
      by (rewrite length_zip, length_fmap; lia).
    set (map' := <[st_s st := Z.of_nat (st_k st)]> (st_map_to_Qi st)) in *.
    set (y := zip yi (row_product A xvec <$> yi)) in *.
    assert (y.*1 = yi) as Hy1
      by (unfold y; apply fst_zip; rewrite length_fmap; lia).
    destruct (resid_update_beta (st_beta st) beta' (st_r st) (st_w st) y map')
      as (Hr' & Hn' & Hcnt & Hbl & Hag); try done.
    { by rewrite Hy1. }
    { apply Forall_forall. intros e He. rewrite Hbeta.
      assert (e.1 ∈ yi) as Hi
        by (rewrite <- Hy1; apply list_elem_of_fmap; by exists e).
      apply Hmem in Hi as [_ Hi].
      apply list_elem_of_fmap in Hi as (c & -> & Hc).
      pose proof (all_terms_rows A xvec nf HA) as Hall.
      rewrite Forall_forall in Hall. by apply Hall. }
    set (rs := resid_update (st_beta st) _ _ _ _) in *.
    set (rs' := resid_update beta' _ _ _ _) in *.
    rewrite Hr', Hn', Hcnt.
    rewrite (rescan_beta STOP_TEST D (rs_beta rs) (rs_beta rs') (rs_r rs)
               (st_s st) (st_w st) Hag).
    destruct (rescan _ _ _ _ _ _ _) as [[s' w'] norm'].
    eexists {| st_ir := st_ir st ++ [st_s st]; st_beta := [] |},
      (rs_beta rs), (rs_beta rs').
    unfold with_beta. cbn [st_ir st_iri st_nzmax st_jc st_X_sum st_beta
      st_sp st_flag st_map_to_Qi st_Q st_max_Q st_Qi st_qk st_k st_s st_w
      st_norm st_rnz st_r].
    split_and!; [reflexivity|reflexivity|done|done]. }
  destruct Hshape as (rest & b1 & b2 & -> & -> & Hl & Hag). split.
  - by apply (same_but_beta_intro rest b1 b2).
  - exact Hag.
Qed.

(** Lines 264-278 clear [beta] at the indices of the column, which are the
    indices of the first residual. *)
Lemma load_column_beta B D j nf st st' :
  skel_inv nf st → csc_wf B → mat_m B = nf → j < mat_n B →
  same_but_beta st st' →
  let ld := load_column STOP_TEST B D j (begin_column B j st) in
  let ld' := load_column STOP_TEST B D j (begin_column B j st') in
  same_but_beta ld ld' ∧ beta_agrees ld ld'.
Proof.
  intros (_ & _ & _ & Hbeta & _) Hwf Hm Hj (Heq & Hlen) ld ld'.
  destruct (csc_wf_column B j Hwf Hj) as (Hclen & _ & Hrows).
  subst ld ld'. rewrite Heq. set (beta' := st_beta st') in *.
  unfold load_column, begin_column.
  cbn [with_beta st_ir st_iri st_nzmax st_jc st_X_sum st_beta st_sp st_flag
       st_map_to_Qi st_Q st_max_Q st_Qi st_qk st_k st_s st_w st_norm
       st_rnz st_r].
  rewrite <- Hclen.
  pose proof (init_scan_pick STOP_TEST D (st_beta st) (length (column B j))
                (column B j)) as Hp1.
  pose proof (init_scan_pick STOP_TEST D beta' (length (column B j))
                (column B j)) as Hp2.
  pose proof (init_scan_beta_length STOP_TEST D (st_beta st)
                (length (column B j)) (column B j)) as Hl1.
  pose proof (init_scan_beta_length STOP_TEST D beta'
                (length (column B j)) (column B j)) as Hl2.
  assert (∀ e, e ∈ column B j →
            (init_scan STOP_TEST D beta' (length (column B j)) (column B j)).1
              !!! e.1 =
            (init_scan STOP_TEST D (st_beta st) (length (column B j))
               (column B j)).1 !!! e.1) as Hz.
  { intros e He. rewrite Forall_forall in Hrows. specialize (Hrows e He).
    rewrite !init_scan_beta_zero; [done|done|lia|done|lia]. }
  destruct (init_scan STOP_TEST D (st_beta st) _ _) as [b1 [[s1 w1] n1]].
  destruct (init_scan STOP_TEST D beta' _ _) as [b2 [[s2 w2] n2]].
  simpl in Hp1, Hp2, Hl1, Hl2, Hz. rewrite <- Hp1 in Hp2.
  injection Hp2 as -> -> ->.
  split.
  - unfold same_but_beta, with_beta. simpl. split; [done|lia].
  - intros e He. simpl in *. by apply Hz.
Qed.

Lemma expand_loop_beta A D u j nf tol : ∀ fuel st st',
  Forall (λ i, i < nf) (mat_ir A) → (tol <? 0)%float = false →
  col_inv nf tol st → same_but_beta st st' → beta_agrees st st' →
  nf - st_k st < fuel →
  ∃ st1 st1',
    expand_loop STOP_TEST fuel A D u tol j st = Some st1 ∧
    expand_loop STOP_TEST fuel A D u tol j st' = Some st1' ∧
    col_inv nf tol st1 ∧ same_but_beta st1 st1'.
Proof.
  induction fuel as [|fuel IH];
    intros st st' HA Htol Hinv Hsame Hag Hfuel; [lia|].
  simpl. destruct (same_but_beta_fields _ _ Hsame) as (-> & _).
  destruct (tol <? st_norm st)%float eqn:Hgo; [|by exists st, st'].
  destruct (expand_inv STOP_TEST A D u j nf tol st HA Htol Hinv Hgo)
    as (Hinv' & _ & _ & _ & Hk).
  destruct (expand_beta A D u j nf tol st st' HA Hinv Hgo Hsame Hag)
    as (Hsame' & Hag').
  assert (st_k (expand STOP_TEST A D u j st) ≤ nf) as Hbound.
  { destruct Hinv' as (_ & _ & Hlen & Hnd & Hpiv & _).
    rewrite <- Hlen. by apply bounded_nodup_length. }
  apply IH; [done|done|done|done|done|lia].
Qed.

Lemma solve_column_beta A B D u nf tol fuel st st' j :
  skel_inv nf st → csc_wf B → mat_m B = nf →
  Forall (λ i, i < nf) (mat_ir A) →
  (tol <? 0)%float = false → j < mat_n B → nf < fuel →
  same_but_beta st st' →
  ∃ st1 st1',
    solve_column STOP_TEST fuel A B D u tol st j = Some st1 ∧
    solve_column STOP_TEST fuel A B D u tol st' j = Some st1' ∧
    skel_inv nf st1 ∧ same_but_beta st1 st1'.
Proof.
  intros Hinv Hwf Hm HA Htol Hj Hfuel Hsame. unfold solve_column.
  assert (st_rnz (begin_column B j st') = st_rnz (begin_column B j st)) as ->
    by done.
  destruct (decide (st_rnz (begin_column B j st) < 1)) as [Hempty|Hne].
  - exists (begin_column B j st), (begin_column B j st').
    split_and!; [done|done| |].
    + by destruct Hinv as (? & ? & ? & ? & ?).
    + destruct Hsame as (Heq & Hlen). rewrite Heq. by split.
  - destruct (load_column_inv STOP_TEST B D j nf tol st Hinv Hwf Hm Hj Hne)
      as (Hcol & _).
    destruct (load_column_beta B D j nf st st' Hinv Hwf Hm Hj Hsame)
      as (Hsame0 & Hag0).
    destruct (expand_loop_beta A D u j nf tol fuel _ _ HA Htol Hcol Hsame0
                Hag0) as (st1 & st1' & -> & -> & Hinv1 & Hsame1).
    { destruct Hcol as (_ & _ & Hk & _). lia. }
    cbn [mbind option_bind]. eexists _, _. split_and!; [done|done| |].
    + by destruct (finish_column_spec nf tol st1 Hinv1)
        as (? & _ & _ & _ & ? & _).
    + destruct Hsame1 as (Heq & Hlen). rewrite Heq. by split.
Qed.

Lemma solve_columns_beta A B D u nf tol fuel : ∀ js st st',
  skel_inv nf st → csc_wf B → mat_m B = nf →
  Forall (λ i, i < nf) (mat_ir A) →
  (tol <? 0)%float = false → Forall (λ j, j < mat_n B) js → nf < fuel →
  same_but_beta st st' →
  ∃ st1 st1',
    solve_columns STOP_TEST fuel A B D u tol st js = Some st1 ∧
    solve_columns STOP_TEST fuel A B D u tol st' js = Some st1' ∧
    same_but_beta st1 st1'.
Proof.
  induction js as [|j js IH];
    intros st st' Hinv Hwf Hm HA Htol Hjs Hfuel Hsame.
  - by exists st, st'.
  - apply Forall_cons in Hjs as [Hj Hjs].
    destruct (solve_column_beta A B D u nf tol fuel st st' j
                Hinv Hwf Hm HA Htol Hj Hfuel Hsame)
      as (st1 & st1' & Hrun & Hrun' & Hinv1 & Hsame1).
    cbn [solve_columns]. rewrite Hrun, Hrun'. cbn [mbind option_bind].
    by apply IH.
Qed.

End Beta.

(** X22. [beta] is allocated without being initialised (line 228), and a
    column leaves in it what the next one finds.  Under the conditions of
    X9, the loop over the columns returns the same [X_skel] and [X_sum]
    whatever [beta] holds when it starts: [beta] is read at the indices of
    the residual only, where the column has written it before. *)
Theorem beta_is_written_before_read `{ops : triangular_ops} (STOP_TEST : nat)
    (fuel : nat) (X_sum : list float) (A B : sp_mat_c) (D u : list float)
    (tol : float) (beta0 : list float) :
  csc_wf A → csc_wf B → mat_m A = mat_m B →
  STOP_TEST = 1 ∨ (tol <? 0)%float = false → mat_m B < fuel →
  length beta0 = mat_m B →
  ∃ st st',
    interp_skel_run STOP_TEST fuel X_sum A B D u tol = Some st ∧
    solve_columns STOP_TEST fuel A B D u (adjust_tol STOP_TEST tol)
      (with_beta (init_state B X_sum) beta0) (seq 0 (mat_n B)) = Some st' ∧
    st_ir st' = st_ir st ∧ st_iri st' = st_iri st ∧
    st_jc st' = st_jc st ∧ st_X_sum st' = st_X_sum st.
Proof.
  intros (_ & HA & _) HB Hm Htol%(adjust_tol_not_negative STOP_TEST) Hfuel Hb.
  rewrite Hm in HA. unfold interp_skel_run.
  destruct (solve_columns_beta STOP_TEST A B D u (mat_m B)
              (adjust_tol STOP_TEST tol) fuel (seq 0 (mat_n B))
              (init_state B X_sum) (with_beta (init_state B X_sum) beta0))
    as (st & st' & Hrun & Hrun' & Hsame); try done.
  { apply skel_inv_init. }
  { apply Forall_seq. intros j Hj. lia. }
  { split; [done|]. simpl. by rewrite length_replicate. }
  exists st, st'.
  destruct (same_but_beta_fields _ _ Hsame) as (_ & _ & ? & ? & ? & ? & _).
  by split_and!.
Qed.

Lemma beta_is_written_before_read_witness :
  csc_wf diag49 ∧ csc_wf col11 ∧ mat_m diag49 = mat_m col11 ∧
  (2 = 1 ∨ (0x1p-10 <? 0)%float = false) ∧ mat_m col11 < 3 ∧
  length [5; 7]%float = mat_m col11 ∧
  ∃ st st',
    @interp_skel_run spec_ops 2 3 [0; 0]%float diag49 col11 [4; 9]%float
      [1]%float 0x1p-10%float = Some st ∧
    @solve_columns spec_ops 2 3 diag49 col11 [4; 9]%float [1]%float
      (@adjust_tol 2 0x1p-10%float)
      (with_beta (init_state col11 [0; 0]%float) [5; 7]%float)
      (seq 0 (mat_n col11)) = Some st' ∧
    st_ir st' = st_ir st ∧ st_iri st' = st_iri st ∧
    st_jc st' = st_jc st ∧ st_X_sum st' = st_X_sum st.
Proof.
  assert (csc_wf diag49) as HA
    by (apply (bool_decide_unpack _); vm_compute; exact I).
  assert (csc_wf col11) as HB
    by (apply (bool_decide_unpack _); vm_compute; exact I).
  assert (2 = 1 ∨ (0x1p-10 <? 0)%float = false) as Htol
    by (right; vm_compute; reflexivity).
  assert (mat_m col11 < 3) as Hfuel by (simpl; lia).
  refine (conj HA (conj HB (conj eq_refl (conj Htol (conj Hfuel
            (conj eq_refl _)))))).
  exact (@beta_is_written_before_read spec_ops 2 3 [0; 0]%float diag49 col11
           [4; 9]%float [1]%float 0x1p-10%float [5; 7]%float HA HB eq_refl
           Htol Hfuel eq_refl).
Defined.

(** ** The inverse map and the residual *)

(** X23. [map_to_Qi] is the inverse of [Qi] (comment of lines 211-212):
    [map_to_Qi[Qi[m]] = m] for the pivots [m < k] of the column and [-1]
    at every other row.  This holds when a non-empty column enters its
    loop, and an iteration of the loop (line 297) keeps it. *)
Theorem map_to_Qi_inverts_Qi `{ops : triangular_ops} (STOP_TEST : nat)
    (A B : sp_mat_c) (D u : list float) (j : nat) (nf : nat) (tol : float)
    (st0 st : state) :
  skel_inv nf st0 → csc_wf B → mat_m B = nf → j < mat_n B →
  1 ≤ mat_jc B !!! (j + 1) - mat_jc B !!! j →
  col_inv nf tol st → (tol <? st_norm st)%float = true →
  inverse_map nf st →
  inverse_map nf (load_column STOP_TEST B D j (begin_column B j st0)) ∧
  inverse_map nf (expand STOP_TEST A D u j st).
Proof.
  intros Hskel HB Hm Hj Hrnz Hinv Hgo (Hmap & Hrest). split.
  - destruct (load_column_inv STOP_TEST B D j nf tol st0 Hskel HB Hm Hj)
      as (Hcol & _); [simpl; lia|].
    destruct (load_column_fields STOP_TEST B D j st0)
      as (_ & _ & _ & _ & _ & _ & Hk & _).
    split.
    + intros m Hlt. rewrite Hk in Hlt. lia.
    + intros i Hi Hnot.
      destruct Hcol as (_ & _ & _ & _ & _ & _ & _ & Hout & _).
      by apply Hout.
  - destruct (col_inv_pivot nf tol st Hinv Hgo) as (Hs & Hfresh).
    pose proof (col_inv_length nf tol st Hinv) as Hlen.
    destruct Hinv as (_ & HQi & Hk & _ & _ & Hml & _).
    assert (st_map_to_Qi (expand STOP_TEST A D u j st) =
            <[st_s st := Z.of_nat (st_k st)]> (st_map_to_Qi st)) as Hm'.
    { unfold expand. cbv zeta.
      destruct (sp_mv _ _ _ _ _) as [[[[? ?] ?] ?] ?].
      by destruct (rescan _ _ _ _ _ _ _) as [[? ?] ?]. }
    destruct (expand_fields STOP_TEST A D u j st)
      as (Hir & _ & _ & _ & HQ' & Hk' & _).
    split.
    + intros m Hlt. rewrite Hk' in Hlt. rewrite Hm', Hir, HQ'.
      unfold Qi_at. destruct (decide (m = st_k st)) as [->|Hne].
      * rewrite <- Hlen, list_lookup_total_middle by done.
        by rewrite list_lookup_total_insert_eq by lia.
      * rewrite lookup_total_app_l by lia.
        rewrite list_lookup_total_insert_ne; [apply Hmap; lia|].
        intros Heq. apply Hfresh. rewrite Heq. unfold pivots.
        apply (list_elem_of_lookup_2 _ m).
        rewrite lookup_drop. apply list_lookup_lookup_total_lt. lia.
    + intros i Hi Hnot. rewrite Hm'. unfold pivots in Hnot.
      rewrite Hir, HQ', drop_app_le in Hnot by done.
      rewrite list_lookup_total_insert_ne.
      * apply Hrest; [done|]. intros Hin. apply Hnot, elem_of_app. by left.
      * intros <-. apply Hnot, elem_of_app. right. by left.
Qed.

Lemma map_to_Qi_inverts_Qi_witness :
  let st0 := init_state col11 [0; 0]%float in
  let st := load_column 2 col11 [4; 9]%float 0 (begin_column col11 0 st0) in
  skel_inv 2 st0 ∧ csc_wf col11 ∧ mat_m col11 = 2 ∧ 0 < mat_n col11 ∧
  1 ≤ mat_jc col11 !!! (0 + 1) - mat_jc col11 !!! 0 ∧
  col_inv 2 0x1p-11 st ∧ (0x1p-11 <? st_norm st)%float = true ∧
  inverse_map 2 st ∧
  inverse_map 2 st ∧
  inverse_map 2 (@expand spec_ops 2 diag49 [4; 9]%float [1]%float 0 st).
Proof.
  intros st0 st.
  assert (skel_inv 2 st0) as Hskel by apply (skel_inv_init col11).
  assert (csc_wf col11) as HB
    by (apply (bool_decide_unpack _); vm_compute; exact I).
  assert (0 < mat_n col11) as Hj by (simpl; lia).
  assert (1 ≤ mat_jc col11 !!! (0 + 1) - mat_jc col11 !!! 0) as Hrnz
    by (vm_compute; lia).
  assert (col_inv 2 0x1p-11 st) as Hinv.
  { apply (load_column_inv 2 col11 [4; 9]%float 0 2 0x1p-11 st0 Hskel HB
             eq_refl Hj). vm_compute. lia. }
  assert ((0x1p-11 <? st_norm st)%float = true) as Hgo
    by (vm_compute; reflexivity).
  assert (inverse_map 2 st) as Hmap.
  { split.
    - intros m Hm. vm_compute in Hm. lia.
    - intros i Hi _. destruct i as [|[|i]]; [reflexivity|reflexivity|lia]. }
  refine (conj Hskel (conj HB (conj eq_refl (conj Hj (conj Hrnz (conj Hinv
            (conj Hgo (conj Hmap _)))))))).
  exact (@map_to_Qi_inverts_Qi spec_ops 2 diag49 col11 [4; 9]%float
           [1]%float 0 2 0x1p-11%float st0 st Hskel HB eq_refl Hj Hrnz Hinv
           Hgo Hmap).
Defined.

(** X24. "The mask ensures [e_s^t r = 0]" (line 340).  An iteration of
    the expansion loop appends [s] to the pivots of the column, which stay
    pairwise distinct, and leaves a residual whose indices are strictly
    ascending, lie below [nf] and include no pivot of the column, [s]
    among them; [rnz] is its length. *)
Theorem residual_avoids_pivots `{ops : triangular_ops} (STOP_TEST : nat)
    (A : sp_mat_c) (D u : list float) (j : nat) (nf : nat) (tol : float)
    (st : state) :
  Forall (λ i, i < nf) (mat_ir A) → (tol <? 0)%float = false →
  col_inv nf tol st → (tol <? st_norm st)%float = true →
  let st' := expand STOP_TEST A D u j st in
  pivots st' = pivots st ++ [st_s st] ∧ NoDup (pivots st') ∧
  st_rnz st' = length (st_r st') ∧
  StronglySorted lt (st_r st').*1 ∧
  Forall (λ e, e.1 < nf ∧ e.1 ∉ pivots st') (st_r st').
Proof.
  intros HA Htol Hinv Hgo st'.
  destruct (expand_inv STOP_TEST A D u j nf tol st HA Htol Hinv Hgo)
    as (Hinv' & Hir & HQi & _).
  fold st' in Hinv', Hir, HQi.
  destruct Hinv as (_ & HQ & _).
  destruct Hinv' as (_ & _ & _ & Hnd & _ & _ & _ & _ & _ & _ & _ & Hrnz &
                     Hsorted & Hr & _).
  split_and!; try done.
  unfold pivots. rewrite Hir, HQi. by apply drop_app_le.
Qed.

Lemma residual_avoids_pivots_witness :
  let st0 := init_state col11 [0; 0]%float in
  let st := load_column 2 col11 [4; 9]%float 0 (begin_column col11 0 st0) in
  Forall (λ i, i < 2) (mat_ir diag49) ∧ (0x1p-11 <? 0)%float = false ∧
  col_inv 2 0x1p-11 st ∧ (0x1p-11 <? st_norm st)%float = true ∧
  let st' := @expand spec_ops 2 diag49 [4; 9]%float [1]%float 0 st in
  pivots st' = pivots st ++ [st_s st] ∧ NoDup (pivots st') ∧
  st_rnz st' = length (st_r st') ∧
  StronglySorted lt (st_r st').*1 ∧
  Forall (λ e, e.1 < 2 ∧ e.1 ∉ pivots st') (st_r st').
Proof.
  intros st0 st.
  assert (Forall (λ i, i < 2) (mat_ir diag49)) as HA
    by (apply (bool_decide_unpack _); vm_compute; exact I).
  assert ((0x1p-11 <? 0)%float = false) as Htol by (vm_compute; reflexivity).
  assert (csc_wf col11) as HB
    by (apply (bool_decide_unpack _); vm_compute; exact I).
  assert (col_inv 2 0x1p-11 st) as Hinv.
  { apply (load_column_inv 2 col11 [4; 9]%float 0 2 0x1p-11 st0
             (skel_inv_init col11 [0; 0]%float) HB eq_refl).
    - simpl. lia.
    - vm_compute. lia. }
  assert ((0x1p-11 <? st_norm st)%float = true) as Hgo
    by (vm_compute; reflexivity).
  refine (conj HA (conj Htol (conj Hinv (conj Hgo _)))).
  exact (@residual_avoids_pivots spec_ops 2 diag49 [4; 9]%float [1]%float 0
           2 0x1p-11%float st HA Htol Hinv Hgo).
Defined.
